(** * geopub: the full-text search index (package [internal/search])

    A shallow embedding of the trie-based inverted index, the document
    store, the text pipeline (tokenizer, stop-word filter, stemmer) and the
    index orchestrator, followed by the properties of the specification;
    then the parts of the renderer and of the book model that build the
    search index of a book (escaping, tag stripping, the walk of the
    chapters), with their properties.

    Conventions of the embedding.
    - A Go [string] is modelled by the sequence of code points that
      [for _, r := range s] yields (a well-formed UTF-8 text); Go's [len] is
      the number of bytes of its UTF-8 encoding, [len] below.
    - [int] and [int64] are 64-bit two's complement: every [++] of the source
      is written with its wrap-around, [Int64.incr].
    - [float64] is IEEE 754 binary64, as the Standard Library specifies it
      ([spec_float] with 53 bits of precision and maximal exponent 1024).
    - Go maps are finite maps ([gmap]); a missing key is [None].
    - The text layer of [encoding/json] is abstracted: a JSON document is the
      tree that [json.Unmarshal] into [interface{}] builds from it. *)

From Stdlib Require Import ZArith List Lia.
From Stdlib Require Import Strings.String Strings.Ascii DecimalString.
From Stdlib Require Import Floats.SpecFloat.
From Stdlib Require DecimalZ DecimalPos.
From stdpp Require Import gmap list fin_maps.

Local Open Scope Z_scope.

(* ===================================================================== *)
(** ** Machine integers *)
(* ===================================================================== *)

Module Int64.

Definition max_int : Z := 2 ^ 63 - 1.
Definition min_int : Z := - 2 ^ 63.

(** The value a 64-bit signed register holds after computing [z]. *)
Definition wrap (z : Z) : Z := (z + 2 ^ 63) mod 2 ^ 64 - 2 ^ 63.

(** [x++] on an [int] or [int64]. *)
Definition incr (z : Z) : Z := wrap (z + 1).

Definition in_range (z : Z) : Prop := min_int <= z <= max_int.

End Int64.

(* ===================================================================== *)
(** ** Strings and runes *)
(* ===================================================================== *)

Definition rune := Z.

(** A Go string, as the sequence of its code points. *)
Definition gostring := list rune.

(** String literals of the source (ASCII only). *)
Definition str (s : string) : gostring :=
  (fun a : ascii => Z.of_N (N_of_ascii a)) <$> list_ascii_of_string s.

(** [utf8.RuneLen], with the three bytes of U+FFFD for what is not a scalar
    value (as [WriteRune] and [string(r)] encode it). *)
Definition runeLen (r : rune) : Z :=
  if r <? 0 then 3
  else if r <? 128 then 1
  else if r <? 2048 then 2
  else if (55296 <=? r) && (r <=? 57343) then 3
  else if r <? 65536 then 3
  else if r <=? 1114111 then 4
  else 3.

(** Go's [len(s)]: the byte length. *)
Definition len (s : gostring) : Z := foldr (fun r n => runeLen r + n) 0 s.

(** [unicode.IsSpace]: the Latin-1 switch, then the White_Space table. *)
Definition IsSpace (r : rune) : bool :=
  if (0 <=? r) && (r <=? 255) then
    ((9 <=? r) && (r <=? 13)) || (r =? 32) || (r =? 133) || (r =? 160)
  else
    (r =? 5760) || ((8192 <=? r) && (r <=? 8202)) || (r =? 8232) || (r =? 8233)
    || (r =? 8239) || (r =? 8287) || (r =? 12288).

(** The lower-case mapping of [unicode.ToLower] for the code points above
    ASCII comes from the Unicode case tables of Go's standard library; the
    development is parametric in it. *)
Class CaseTable := { lowerTable : rune -> rune }.

(** The restriction of the Unicode table to Latin-1 (U+00C0..U+00DE except
    the multiplication sign map to the letter 32 places higher), identity
    above it: used to run the definitions on concrete texts. *)
Definition latin1Table : CaseTable :=
  {| lowerTable := fun r =>
       if (192 <=? r) && (r <=? 222) && negb (r =? 215) then r + 32 else r |}.

Section Text.
Context `{CaseTable}.

(** [unicode.ToLower]. *)
Definition toLowerRune (r : rune) : rune :=
  if r <=? 127 then
    if (65 <=? r) && (r <=? 90) then r + 32 else r
  else lowerTable r.

(** [strings.ToLower]. *)
Definition ToLower (s : gostring) : gostring := toLowerRune <$> s.

(** [strings.TrimSpace]: white space removed at both ends. *)
Fixpoint trimLeft (s : gostring) : gostring :=
  match s with
  | r :: rest => if IsSpace r then trimLeft rest else s
  | [] => []
  end.

Definition TrimSpace (s : gostring) : gostring :=
  rev (trimLeft (rev (trimLeft s))).

(** [strings.HasSuffix]. *)
Definition HasSuffix (s suffix : gostring) : bool :=
  bool_decide (drop (length s - length suffix)%nat s = suffix).

(** [word[:len(word)-len(suffix)]] for a suffix made of ASCII letters: the
    bytes cut are the last [length suffix] code points. *)
Definition cutSuffix (word suffix : gostring) : gostring :=
  take (length word - length suffix)%nat word.

(* --------------------------------------------------------------------- *)
(** *** Tokenizer *)

Definition maxWordLengthToIndex : Z := 80.

Definition isSeparator (r : rune) : bool := IsSpace r || (r =? 45).

(** The body shared by the two places where [tokenize] ends a word. *)
Definition flushWord (word : gostring) (tokens : list gostring) : list gostring :=
  let token := ToLower (TrimSpace word) in
  if negb (bool_decide (token = [])) && (len token <=? maxWordLengthToIndex)
  then tokens ++ [token] else tokens.

(** The loop of [tokenize] over the runes of the text, with the builder
    [word] and the slice [tokens] as accumulators. *)
Fixpoint tokenizeLoop (text : gostring) (word : gostring)
    (tokens : list gostring) : list gostring :=
  match text with
  | [] => if 0 <? len word then flushWord word tokens else tokens
  | r :: rest =>
      if isSeparator r then
        if 0 <? len word then tokenizeLoop rest [] (flushWord word tokens)
        else tokenizeLoop rest word tokens
      else tokenizeLoop rest (word ++ [r]) tokens
  end.

Definition tokenize (text : gostring) : list gostring :=
  tokenizeLoop text [] [].

(* --------------------------------------------------------------------- *)
(** *** Stemmer *)

Definition step1Suffixes : list (gostring * Z) :=
  [(str "ies", 3); (str "es", 2); (str "s", 1)].

Definition step3Suffixes : list gostring :=
  str <$> ["tion"; "sion"; "ment"; "ness"; "ful"; "less"; "ity";
           "ous"; "ive"; "ent"; "ant"; "able"; "ible"; "ence"; "ance"]%string.

Definition step4Suffixes : list gostring := str <$> ["ly"; "er"; "est"]%string.

(** A [for ... { if ... { word = ...; break } }] loop over a suffix table:
    the first rule whose guard holds is applied, and only that one. *)
Fixpoint stripFirst (rules : list (gostring * Z)) (word : gostring) : gostring :=
  match rules with
  | [] => word
  | (suffix, minLen) :: rest =>
      if HasSuffix word suffix && (len suffix + minLen <? len word)
      then cutSuffix word suffix
      else stripFirst rest word
  end.

Definition stemStep1 (word : gostring) : gostring := stripFirst step1Suffixes word.

Definition stemStep2 (word : gostring) : gostring :=
  if HasSuffix word (str "ed") && (4 <? len word) then cutSuffix word (str "ed")
  else if HasSuffix word (str "ing") && (5 <? len word) then cutSuffix word (str "ing")
  else word.

Definition stemStep3 (word : gostring) : gostring :=
  stripFirst ((fun s => (s, 2)) <$> step3Suffixes) word.

Definition stemStep4 (word : gostring) : gostring :=
  stripFirst ((fun s => (s, 2)) <$> step4Suffixes) word.

Definition stem (word : gostring) : gostring :=
  if len word <=? 2 then word
  else stemStep4 (stemStep3 (stemStep2 (stemStep1 (ToLower word)))).

End Text.

(* --------------------------------------------------------------------- *)
(** *** Stop words *)

Definition stopWordList : list string :=
  [""; "a"; "able"; "about"; "across"; "after"; "all"; "almost"; "also";
   "am"; "among"; "an"; "and"; "any"; "are"; "as"; "at"; "be"; "because";
   "been"; "but"; "by"; "can"; "cannot"; "could"; "dear"; "did"; "do";
   "does"; "either"; "else"; "ever"; "every"; "for"; "from"; "get"; "got";
   "had"; "has"; "have"; "he"; "her"; "hers"; "him"; "his"; "how";
   "however"; "i"; "if"; "in"; "into"; "is"; "it"; "its"; "just"; "least";
   "let"; "like"; "likely"; "may"; "me"; "might"; "most"; "must"; "my";
   "neither"; "no"; "nor"; "not"; "of"; "off"; "often"; "on"; "only"; "or";
   "other"; "our"; "own"; "rather"; "said"; "say"; "says"; "she"; "should";
   "since"; "so"; "some"; "than"; "that"; "the"; "their"; "them"; "then";
   "there"; "these"; "they"; "this"; "tis"; "to"; "too"; "twas"; "us";
   "wants"; "was"; "we"; "were"; "what"; "when"; "where"; "which"; "while";
   "who"; "whom"; "why"; "will"; "with"; "would"; "yet"; "you";
   "your"]%string.

(** The map literal [stopWords]: every listed word maps to [true]. *)
Definition stopWords : gmap gostring bool :=
  list_to_map ((fun w => (str w, true)) <$> stopWordList).

(** [stopWords[token]]: the zero value [false] for a missing key. *)
Definition isStopWord (token : gostring) : bool :=
  default false (stopWords !! token).

(* ===================================================================== *)
(** ** float64 *)
(* ===================================================================== *)

Definition float64 := spec_float.

Module Float64.

Definition prec : Z := 53.
Definition emax : Z := 1024.

(** The conversion [float64(n)] of an integer: rounding to nearest even. *)
Definition of_int (n : Z) : float64 := binary_normalize prec emax n 0 false.

(** [math.Sqrt]. *)
Definition Sqrt (x : float64) : float64 := SFsqrt prec emax x.

(** Neither NaN nor an infinity: what [json.Marshal] accepts. *)
Definition is_finite (x : float64) : bool :=
  match x with
  | S754_zero _ | S754_finite _ _ _ => true
  | S754_infinity _ | S754_nan => false
  end.

(** The conversion [int64(x)]: truncation toward zero; out of range (and for
    NaN and the infinities) the amd64 result, the smallest [int64]. *)
Definition to_int64 (x : float64) : Z :=
  match x with
  | S754_zero _ => 0
  | S754_finite s m e =>
      let mag := if 0 <=? e then Z.pos m * 2 ^ e else Z.pos m / 2 ^ (- e) in
      let z := if s then - mag else mag in
      if (Int64.min_int <=? z) && (z <=? Int64.max_int) then z else Int64.min_int
  | S754_infinity _ | S754_nan => Int64.min_int
  end.

Definition NaN : float64 := S754_nan.

End Float64.

(* ===================================================================== *)
(** ** The trie of the inverted index *)
(* ===================================================================== *)

(** [TermFrequency]: the struct with the single field [TF]. *)
Record TermFrequency := { TF : float64 }.

(** [IndexItem]: a trie node. Children are owned by their parent (a tree,
    no sharing), so the pointer graph is the nested value itself. *)
#[warnings="-register-all"]
Inductive IndexItem : Type :=
  MkIndexItem (docs : gmap gostring TermFrequency) (df : Z)
              (children : gmap gostring IndexItem).

Definition Docs (ii : IndexItem) : gmap gostring TermFrequency :=
  let 'MkIndexItem d _ _ := ii in d.
Definition DF (ii : IndexItem) : Z :=
  let 'MkIndexItem _ n _ := ii in n.
Definition Children (ii : IndexItem) : gmap gostring IndexItem :=
  let 'MkIndexItem _ _ c := ii in c.

(** [&IndexItem{Docs: make(...), Children: make(...)}]. *)
Definition newIndexItem : IndexItem := MkIndexItem ∅ 0 ∅.

(** The height of a node, the measure for induction on tries. *)
Fixpoint height (ii : IndexItem) : nat :=
  let 'MkIndexItem _ _ c := ii in
  S (map_fold (fun _ child acc => Nat.max (height child) acc) 0%nat c).

(** A property of every node of the trie below (and including) a node. *)
Inductive AllNodes (P : IndexItem -> Prop) : IndexItem -> Prop :=
| AllNodes_intro d n c :
    P (MkIndexItem d n c) ->
    (forall k child, c !! k = Some child -> AllNodes P child) ->
    AllNodes P (MkIndexItem d n c).

(** [InvertedIndex]: the root pointer. *)
Record InvertedIndex := { Root : IndexItem }.

Definition NewInvertedIndex : InvertedIndex := {| Root := newIndexItem |}.

(** [string(ch)]: the edge label of a code point. *)
Definition edge (ch : rune) : gostring := [ch].

(** The descent of [AddToken] from [current] along the runes still to read,
    creating the missing children, and the update of the terminal node. *)
Fixpoint addAt (docRef : gostring) (termFreq : float64) (token : gostring)
    (current : IndexItem) : IndexItem :=
  match token with
  | [] =>
      let df := if decide (is_Some (Docs current !! docRef))
                then DF current else Int64.incr (DF current) in
      MkIndexItem (<[docRef := {| TF := termFreq |}]> (Docs current)) df
                  (Children current)
  | ch :: rest =>
      let key := edge ch in
      let child := default newIndexItem (Children current !! key) in
      MkIndexItem (Docs current) (DF current)
                  (<[key := addAt docRef termFreq rest child]> (Children current))
  end.

Definition AddToken (ii : InvertedIndex) (docRef token : gostring)
    (termFreq : float64) : InvertedIndex :=
  if len token =? 0 then ii
  else {| Root := addAt docRef termFreq token (Root ii) |}.

(** [GetNode]: [None] is the nil pointer. *)
Fixpoint getAt (token : gostring) (current : IndexItem) : option IndexItem :=
  match token with
  | [] => Some current
  | ch :: rest =>
      match Children current !! edge ch with
      | Some child => getAt rest child
      | None => None
      end
  end.

Definition GetNode (ii : InvertedIndex) (token : gostring) : option IndexItem :=
  getAt token (Root ii).

Definition HasToken (ii : InvertedIndex) (token : gostring) : bool :=
  bool_decide (is_Some (GetNode ii token)).

(** [GetDocs]: [None] is the nil map returned for a missing node. *)
Definition GetDocs (ii : InvertedIndex) (token : gostring)
    : option (gmap gostring float64) :=
  match GetNode ii token with
  | None => None
  | Some node => Some (TF <$> Docs node)
  end.

Definition GetDocFrequency (ii : InvertedIndex) (token : gostring) : Z :=
  match GetNode ii token with
  | None => 0
  | Some node => DF node
  end.

(* --------------------------------------------------------------------- *)
(** *** The wire format *)

(** A JSON document as [json.Unmarshal] decodes it into [interface{}]:
    objects are [map[string]interface{}], every number is a [float64]. As
    the input of a decoder, a number stands for its literal: an infinity (or
    NaN) for a literal beyond the range of [float64], which [json.Unmarshal]
    refuses. *)
#[warnings="-register-all"]
Inductive json : Type :=
| JNull
| JBool (b : bool)
| JNum (x : float64)
| JStr (s : gostring)
| JArr (l : list json)
| JObj (o : gmap gostring json).

Definition key_docs : gostring := str "docs".
Definition key_df : gostring := str "df".
Definition key_tf : gostring := str "tf".

(** What the encoder emits for a [TermFrequency]: [{"tf": <float>}]. *)
Definition jsonOfTermFrequency (t : TermFrequency) : json :=
  JObj {[ key_tf := JNum (TF t) ]}.

(** All the values are present: the map without the [option]. *)
Definition allSome {A} (m : gmap gostring (option A)) : option (gmap gostring A) :=
  if decide (map_Forall (fun _ o => is_Some o) m) then Some (omap id m) else None.

(** The nesting depth of a document: the number of objects and arrays that
    are open at its deepest point. *)
Fixpoint jsonDepth (j : json) : Z :=
  match j with
  | JArr l => 1 + foldr (fun v acc => Z.max (jsonDepth v) acc) 0 l
  | JObj o => 1 + map_fold (fun _ v acc => Z.max (jsonDepth v) acc) 0 o
  | _ => 0
  end.

(** The limit of the decoder of [encoding/json] on the nesting depth: the
    scanner fails with "exceeded max depth" beyond it. *)
Definition maxNestingDepth : Z := 10000.

(** Every number literal of the document is in the range of [float64]. *)
Fixpoint numbersInRange (j : json) : bool :=
  match j with
  | JNum x => Float64.is_finite x
  | JArr l => forallb numbersInRange l
  | JObj o => map_fold (fun _ v acc => numbersInRange v && acc) true o
  | _ => true
  end.

(** [json.Unmarshal] into [interface{}] or into a map accepts the text of
    the document: it is not nested too deep and its numbers are in range. *)
Definition jsonDecodes (j : json) : bool :=
  (jsonDepth j <=? maxNestingDepth) && numbersInRange j.

(** [json.Unmarshal(childData, &childMap)] in the loop of [MarshalJSON] over
    the children. The bytes are those that the child's [MarshalJSON]
    returned, an object whose numbers were encoded from an [int64] and from
    finite [float64] values: of the errors of the decoder, only the one of
    the nesting limit is possible. *)
Definition decodeChild (childData : json) : option json :=
  if jsonDepth childData <=? maxNestingDepth then Some childData else None.

(** [MarshalJSON], up to the text layer: the tree decoded from the bytes it
    returns, or [None] when it returns an error: a child failed, the bytes of
    a child could not be decoded again, or [json.Marshal(data)] met a NaN or
    an infinity. The entries of the children are written after ["docs"] and
    ["df"], so a child key wins over them; the weights of the node are
    encoded, and can fail, only when no child has taken the key ["docs"]. *)
Fixpoint MarshalJSON (ii : IndexItem) : option json :=
  let 'MkIndexItem docs df children := ii in
  let data0 : gmap gostring json :=
    if 0 <? Z.of_nat (size docs)
    then {[ key_docs := JObj (jsonOfTermFrequency <$> docs) ]} else ∅ in
  let data1 : gmap gostring json :=
    if 0 <? df then <[ key_df := JNum (Float64.of_int df) ]> data0 else data0 in
  match allSome ((fun child => MarshalJSON child ≫= decodeChild) <$> children) with
  | None => None
  | Some childMaps =>
      if decide (is_Some (childMaps !! key_docs)
                 \/ map_Forall (fun _ t => Float64.is_finite (TF t) = true) docs)
      then Some (JObj (childMaps ∪ data1))
      else None
  end.

(** The [case "docs"] of [UnmarshalJSON]: entries that are not an object
    with a number under ["tf"] are skipped. *)
Definition parseDocs (val : json) : gmap gostring TermFrequency :=
  match val with
  | JObj docsData =>
      omap (fun tfVal =>
              match tfVal with
              | JObj tfMap =>
                  match tfMap !! key_tf with
                  | Some (JNum tf) => Some {| TF := tf |}
                  | _ => None
                  end
              | _ => None
              end) docsData
  | _ => ∅
  end.

(** [UnmarshalJSON] on a receiver whose [DF] field holds [df0], up to the
    text layer. [None] is the error of [json.Unmarshal(data, &dataMap)]: for
    a document that is neither an object nor [null], that is nested deeper
    than the limit, or that has a number out of range. A child whose value
    fails is left out. *)
Fixpoint UnmarshalJSON (df0 : Z) (data : json) : option IndexItem :=
  if negb (jsonDecodes data) then None
  else
    match data with
    | JObj dataMap =>
        let docs := match dataMap !! key_docs with
                    | Some val => parseDocs val
                    | None => ∅
                    end in
        let df := match dataMap !! key_df with
                  | Some (JNum x) => Float64.to_int64 x
                  | _ => df0
                  end in
        let children :=
          map_imap (fun key val =>
                      if decide (key = key_docs \/ key = key_df) then None
                      else UnmarshalJSON 0 val) dataMap in
        Some (MkIndexItem docs df children)
    | JNull => Some (MkIndexItem ∅ df0 ∅)
    | _ => None
    end.

(* ===================================================================== *)
(** ** Documents *)
(* ===================================================================== *)

(** The dynamic values ([interface{}]) a document carries: nil, booleans,
    integers and strings. *)
Inductive value : Type :=
| VNil
| VBool (b : bool)
| VInt (n : Z)
| VString (s : gostring).

(** A document: [map[string]interface{}]. *)
Definition document := gmap gostring value.

(** The decimal digits of an integer, as [%v] prints an [int]. *)
Definition formatInt (n : Z) : gostring :=
  str (DecimalString.NilZero.string_of_int (Z.to_int n)).

(** [fmt.Sprintf("%v", v)]. *)
Definition Sprintf_v (v : value) : gostring :=
  match v with
  | VNil => str "<nil>"
  | VBool true => str "true"
  | VBool false => str "false"
  | VInt n => formatInt n
  | VString s => s
  end.

(** [doc[key]] read into an [interface{}]: nil for a missing key. *)
Definition docField (doc : document) (key : gostring) : value :=
  default VNil (doc !! key).

(* ===================================================================== *)
(** ** The document store *)
(* ===================================================================== *)

Module DocumentStore.

Record t := {
  Save : bool;
  Docs : gmap gostring document;
  DocInfo : gmap gostring (gmap gostring Z);
  Length : Z
}.

Definition NewDocumentStore (save : bool) : t :=
  {| Save := save; Docs := ∅; DocInfo := ∅; Length := 0 |}.

Definition AddDoc (ds : t) (docRef : gostring) (doc : document) : t :=
  let length := if decide (is_Some (Docs ds !! docRef))
                then Length ds else Int64.incr (Length ds) in
  {| Save := Save ds;
     Docs := if Save ds then <[docRef := doc]> (Docs ds)
             else <[docRef := ∅]> (Docs ds);
     DocInfo := DocInfo ds;
     Length := length |}.

(** [GetDoc]: [None] is the pair with [exists = false]. *)
Definition GetDoc (ds : t) (docRef : gostring) : option document :=
  Docs ds !! docRef.

Definition HasDoc (ds : t) (docRef : gostring) : bool :=
  bool_decide (is_Some (Docs ds !! docRef)).

Definition AddFieldLength (ds : t) (docRef field : gostring) (length : Z) : t :=
  let info := default ∅ (DocInfo ds !! docRef) in
  {| Save := Save ds;
     Docs := Docs ds;
     DocInfo := <[docRef := <[field := length]> info]> (DocInfo ds);
     Length := Length ds |}.

Definition GetFieldLength (ds : t) (docRef field : gostring) : Z :=
  match DocInfo ds !! docRef with
  | Some docInfo =>
      match docInfo !! field with
      | Some length => length
      | None => 0
      end
  | None => 0
  end.

End DocumentStore.

(* ===================================================================== *)
(** ** The index *)
(* ===================================================================== *)

Definition ElasticlunrVersion : gostring := str "0.9.5".

Module Index.

Record t := {
  Fields : list gostring;
  FieldIndexes : gmap gostring InvertedIndex;
  Ref : gostring;
  Version : gostring;
  Pipeline : list gostring;
  Lang : gostring;
  Store : DocumentStore.t   (* the field [DocumentStore] *)
}.

Definition NewIndex (fields : list gostring) : t :=
  {| Fields := fields;
     FieldIndexes :=
       foldl (fun m field => <[field := NewInvertedIndex]> m) ∅ fields;
     Ref := str "id";
     Version := ElasticlunrVersion;
     Pipeline := str <$> ["trimmer"; "stopWordFilter"; "stemmer"]%string;
     Lang := str "English";
     Store := DocumentStore.NewDocumentStore true |}.

(** The copy of the document that is stored: the reference field holds its
    string form. *)
Definition docCopy (ref docRef : gostring) (doc : document) : document :=
  map_imap (fun key val =>
              Some (if decide (key = ref) then VString docRef else val)) doc.

Section Pipeline.
Context `{CaseTable}.

(** The pipeline loop: stop words are skipped, the others are stemmed and
    kept when the stem is not empty. *)
Definition processTokens (tokens : list gostring) : list gostring :=
  foldl (fun processed token =>
           if isStopWord token then processed
           else let stemmed := stem token in
                if bool_decide (stemmed <> []) then processed ++ [stemmed]
                else processed) [] tokens.

(** The set [uniqueTokens] of the processed tokens. *)
Definition uniqueTokens (processed : list gostring) : gmap gostring bool :=
  foldl (fun m token => <[token := true]> m) ∅ processed.

(** [tokenFreq[field][token]++] over the processed tokens. *)
Definition countTokens (freq : gmap gostring Z) (processed : list gostring)
    : gmap gostring Z :=
  foldl (fun m token => <[token := Int64.incr (default 0 (m !! token))]> m)
        freq processed.

(** The loop [for token, count := range tokenFreq[field]]. *)
Definition addTokens (docRef : gostring) (freq : gmap gostring Z)
    (ii : InvertedIndex) : InvertedIndex :=
  map_fold (fun token count acc =>
              AddToken acc docRef token (Float64.Sqrt (Float64.of_int count)))
           ii freq.

(** What the loop over the fields carries: the store, the field indexes and
    the local [tokenFreq]. *)
Record loopState := {
  ls_store : DocumentStore.t;
  ls_indexes : gmap gostring InvertedIndex;
  ls_tokenFreq : gmap gostring (gmap gostring Z)
}.

(** One iteration of [for _, field := range idx.Fields]. [None] is the
    nil-pointer panic of [idx.FieldIndexes[field].AddToken] for a field
    without an index. *)
Definition processField (ref docRef : gostring) (doc : document)
    (st : loopState) (field : gostring) : option loopState :=
  if decide (field = ref) then Some st
  else
    match doc !! field with
    | None => Some st
    | Some fieldVal =>
        let fieldStr := Sprintf_v fieldVal in
        let tokens := tokenize fieldStr in
        let processed := processTokens tokens in
        let store :=
          DocumentStore.AddFieldLength (ls_store st) docRef field
            (Z.of_nat (size (uniqueTokens processed))) in
        let freq := countTokens (default ∅ (ls_tokenFreq st !! field)) processed in
        let tokenFreq := <[field := freq]> (ls_tokenFreq st) in
        if decide (freq = ∅) then
          Some {| ls_store := store; ls_indexes := ls_indexes st;
                  ls_tokenFreq := tokenFreq |}
        else
          match ls_indexes st !! field with
          | None => None
          | Some ii =>
              Some {| ls_store := store;
                      ls_indexes := <[field := addTokens docRef freq ii]> (ls_indexes st);
                      ls_tokenFreq := tokenFreq |}
          end
    end.

Fixpoint processFields (ref docRef : gostring) (doc : document)
    (st : loopState) (fields : list gostring) : option loopState :=
  match fields with
  | [] => Some st
  | field :: rest =>
      match processField ref docRef doc st field with
      | None => None
      | Some st' => processFields ref docRef doc st' rest
      end
  end.

Definition AddDoc (idx : t) (doc : document) : option t :=
  let docRef := Sprintf_v (docField doc (Ref idx)) in
  let store := DocumentStore.AddDoc (Store idx) docRef (docCopy (Ref idx) docRef doc) in
  match processFields (Ref idx) docRef doc
          {| ls_store := store; ls_indexes := FieldIndexes idx; ls_tokenFreq := ∅ |}
          (Fields idx) with
  | None => None
  | Some st =>
      Some {| Fields := Fields idx;
              FieldIndexes := ls_indexes st;
              Ref := Ref idx;
              Version := Version idx;
              Pipeline := Pipeline idx;
              Lang := Lang idx;
              Store := ls_store st |}
  end.

End Pipeline.

(** The values of the map that [ToMap] returns. *)
#[warnings="-register-all"]
Inductive anyval : Type :=
| AString (s : gostring)
| AStrings (l : list gostring)
| AStore (ds : DocumentStore.t)
| ARoot (root : IndexItem)
| AMap (m : gmap gostring anyval).

Definition ToMap (idx : t) : gmap gostring anyval :=
  let nestedIndex : gmap gostring anyval :=
    (fun fieldIndex => AMap {[ str "root" := ARoot (Root fieldIndex) ]})
      <$> FieldIndexes idx in
  list_to_map
    [ (str "documentStore", AStore (Store idx));
      (str "index", AMap nestedIndex);
      (str "lang", AString (Lang idx));
      (str "pipeline", AStrings (Pipeline idx));
      (str "ref", AString (Ref idx));
      (str "version", AString (Version idx));
      (str "fields", AStrings (Fields idx)) ].

End Index.

(* ===================================================================== *)
(** ** Reference definitions, following the words of the specification *)
(* ===================================================================== *)

(** Splitting a text on its separators: the pieces between them, the empty
    ones included. *)
Fixpoint splitOn (sep : rune -> bool) (text : gostring) : list gostring :=
  match text with
  | [] => [[]]
  | r :: rest =>
      if sep r then [] :: splitOn sep rest
      else match splitOn sep rest with
           | piece :: pieces => (r :: piece) :: pieces
           | [] => [[r]]
           end
  end.

(** The tokenizer as the specification words it: split on white space and
    hyphen, drop the empty candidates, lower-case each candidate, omit those
    longer than 80. *)
Definition tokenize_spec `{CaseTable} (text : gostring) : list gostring :=
  filter (fun token => len token <= maxWordLengthToIndex)
         (ToLower <$> filter (fun piece => piece <> []) (splitOn isSeparator text)).

(** A suffix rule applies to a word that ends with the suffix, when what
    would remain is longer than the rule's minimum. *)
Definition ruleApplies (rule : gostring * Z) (word : gostring) : Prop :=
  exists stem', word = stem' ++ rule.1 /\ rule.2 < len stem'.

(** One group of suffix rules, as the specification words it: the first
    rule of the group that applies removes its suffix, nothing changes when
    none applies. *)
Definition SuffixGroup (rules : list (gostring * Z)) (word word' : gostring) : Prop :=
  (exists before rule after,
      rules = before ++ rule :: after /\
      Forall (fun r => ~ ruleApplies r word) before /\
      word = word' ++ rule.1 /\ rule.2 < len word')
  \/ (Forall (fun r => ~ ruleApplies r word) rules /\ word' = word).

(** The four groups of section 4.3. *)
Definition group1 : list (gostring * Z) :=
  [(str "ies", 3); (str "es", 2); (str "s", 1)].
Definition group2 : list (gostring * Z) :=
  [(str "ed", 2); (str "ing", 2)].
Definition group3 : list (gostring * Z) :=
  (fun s => (str s, 2)) <$>
    ["tion"; "sion"; "ment"; "ness"; "ful"; "less"; "ity"; "ous"; "ive";
     "ent"; "ant"; "able"; "ible"; "ence"; "ance"]%string.
Definition group4 : list (gostring * Z) :=
  (fun s => (str s, 2)) <$> ["ly"; "er"; "est"]%string.

(** A call of [AddToken]. *)
Record call := { c_ref : gostring; c_token : gostring; c_weight : float64 }.

(** An inverted index after a sequence of [AddToken] calls. *)
Definition addTokenCalls (calls : list call) (ii : InvertedIndex) : InvertedIndex :=
  foldl (fun acc c => AddToken acc (c_ref c) (c_token c) (c_weight c)) ii calls.

(** The references posted for a token by a sequence of calls ([AddToken]
    stores nothing for the empty token). *)
Definition postedRefs (calls : list call) (token : gostring) : gset gostring :=
  list_to_set (c_ref <$> filter (fun c => c_token c = token /\ token <> []) calls).

(** A document store after a sequence of [AddDoc] calls. *)
Definition addDocCalls (calls : list (gostring * document)) (ds : DocumentStore.t)
    : DocumentStore.t :=
  foldl (fun acc c => DocumentStore.AddDoc acc c.1 c.2) ds calls.

(** The indexes reachable from [NewIndex fields] by [AddDoc] calls. *)
Inductive Built `{CaseTable} (fields : list gostring) : Index.t -> Prop :=
| Built_new : Built fields (Index.NewIndex fields)
| Built_add idx doc idx' :
    Built fields idx -> Index.AddDoc idx doc = Some idx' -> Built fields idx'.

(** The number of occurrences of a token in a list. *)
Definition occurrences (token : gostring) (l : list gostring) : Z :=
  Z.of_nat (length (filter (fun t => t = token) l)).

(* ===================================================================== *)
(** ** Definitions used in the statements and proofs *)
(* ===================================================================== *)

Section ProofDefinitions.
Context `{CaseTable}.

Import Index.

(** What the tokenizer keeps of a list of candidate pieces. *)
Definition keep (pieces : list gostring) : list gostring :=
  filter (fun token => len token <= maxWordLengthToIndex)
         (ToLower <$> filter (fun piece => piece <> []) pieces).

(** Prefixing the word under construction to the first piece. *)
Definition withWord (word : gostring) (pieces : list gostring) : list gostring :=
  match pieces with
  | piece :: rest => (word ++ piece) :: rest
  | [] => [word]
  end.

(** The terminal update of [AddToken], on the posting list and its count. *)
Definition postDocs (docRef : gostring) (termFreq : float64)
    (docs : gmap gostring TermFrequency) : gmap gostring TermFrequency :=
  <[docRef := {| TF := termFreq |}]> docs.

Definition postDF (docRef : gostring) (docs : gmap gostring TermFrequency)
    (df : Z) : Z :=
  if decide (is_Some (docs !! docRef)) then df else Int64.incr df.

(** The node that [GetNode] finds, or the node that [AddToken] would
    create there. *)
Definition nodeAt (token : gostring) (ii : IndexItem) : IndexItem :=
  default newIndexItem (getAt token ii).

(** The posting list that a sequence of calls builds for a token. *)
Definition postings (calls : list call) (token : gostring)
    : gmap gostring TermFrequency :=
  foldl (fun docs c =>
           if decide (c_token c = token /\ token <> [])
           then postDocs (c_ref c) (c_weight c) docs else docs) ∅ calls.

Definition dfInv (k : nat) (docs : gmap gostring TermFrequency) (df : Z) : Prop :=
  df = Int64.wrap (Z.of_nat (size docs)) /\ (size docs <= k)%nat.

(** The weights 1 and 2 as [float64]. *)
Definition one : float64 := Float64.of_int 1.

Definition two : float64 := Float64.of_int 2.

Definition sampleCalls : list call :=
  [ {| c_ref := str "d1"; c_token := str "cat"; c_weight := one |};
    {| c_ref := str "d1"; c_token := str "cat"; c_weight := two |};
    {| c_ref := str "d2"; c_token := str "car"; c_weight := one |};
    {| c_ref := str "d2"; c_token := str "cat"; c_weight := one |} ].

(** The references of a sequence of [AddDoc] calls. *)
Definition storedRefs (calls : list (gostring * document)) : gset gostring :=
  list_to_set (fst <$> calls).

Definition sampleDoc (title : string) : document :=
  {[ str "title" := VString (str title) ]}.

Definition sampleAddDocs : list (gostring * document) :=
  [ (str "a", sampleDoc "first"); (str "b", sampleDoc "second");
    (str "a", sampleDoc "third") ].

(** What the round trip needs of a node. *)
Definition Serializable (node : IndexItem) : Prop :=
  map_Forall (fun _ t => Float64.is_finite (TF t) = true) (Docs node)
  /\ DF node = Z.of_nat (size (Docs node))
  /\ DF node < 2 ^ 53
  /\ (forall key, is_Some (Children node !! key) -> length key = 1%nat).

(** The flattened object of a node: ["docs"] when the posting list is not
    empty, ["df"] when the count is not zero, and beside them one entry per
    child, under the child's edge label. *)
Definition WireShape (node : IndexItem) (o : gmap gostring json) : Prop :=
  o !! key_docs = (if decide (Docs node = ∅) then None
                   else Some (JObj (jsonOfTermFrequency <$> Docs node)))
  /\ o !! key_df = (if decide (DF node = 0) then None
                    else Some (JNum (Float64.of_int (DF node))))
  /\ (forall key, key <> key_docs -> key <> key_df ->
                  o !! key = Children node !! key ≫= MarshalJSON).

(** Every edge label is the string of one code point. *)
Definition SingleRuneKeys (node : IndexItem) : Prop :=
  forall key, is_Some (Children node !! key) -> length key = 1%nat.

Definition finiteWeights (calls : list call) : Prop :=
  Forall (fun c => Float64.is_finite (c_weight c) = true) calls.

(** The nesting depth of the object that [MarshalJSON] writes for a node:
    one level for the node itself, two more for its posting list when it is
    written (not empty, and no child has taken the key ["docs"]), and the
    levels of its deepest child. *)
Fixpoint wireDepth (node : IndexItem) : Z :=
  let 'MkIndexItem docs _ children := node in
  1 + Z.max (if (0 <? Z.of_nat (size docs))
                && negb (bool_decide (is_Some (children !! key_docs)))
             then 2 else 0)
            (map_fold (fun _ child acc => Z.max (wireDepth child) acc) 0 children).

(** The nodes on which [MarshalJSON] meets no error of its own: the weights
    that it encodes are finite, and the bytes of every child can be decoded
    again. *)
Definition Encodable (node : IndexItem) : Prop :=
  (is_Some (Children node !! key_docs)
   \/ map_Forall (fun _ t => Float64.is_finite (TF t) = true) (Docs node))
  /\ map_Forall (fun _ child => wireDepth child <= maxNestingDepth) (Children node).

(** The code points of a well-formed UTF-8 text: the Unicode scalar values.
    Only such a string is written to JSON as it is ([json.Marshal] replaces
    every other byte by U+FFFD). *)
Definition isScalarValue (r : rune) : bool :=
  (0 <=? r) && (r <=? 1114111) && negb ((55296 <=? r) && (r <=? 57343)).

Definition wellFormed (s : gostring) : Prop :=
  Forall (fun r => isScalarValue r = true) s.

(** A token of 9998 letters. *)
Definition deepToken : gostring := replicate (Z.to_nat 9998) 97.

(** Calls whose trie the decoder can read: references and tokens are
    well-formed, and a token is short enough for its path, with the posting
    list at its end, to stay within the nesting limit. *)
Definition withinLimits (calls : list call) : Prop :=
  Forall (fun c => wellFormed (c_ref c) /\ wellFormed (c_token c)
                   /\ Z.of_nat (length (c_token c)) + 3 <= maxNestingDepth) calls.

(** The pipeline, as the specification words it: stop words are dropped
    first, then the survivors are stemmed (and an empty stem is not kept). *)
Definition processTokens_spec (tokens : list gostring) : list gostring :=
  filter (fun s => s <> [])
         (stem <$> filter (fun token => isStopWord token = false) tokens).

(** The processed tokens of a field value. *)
Definition processedOf (fieldVal : value) : list gostring :=
  processTokens (tokenize (Sprintf_v fieldVal)).

(** The reference string of a document. *)
Definition docRefOf (idx : Index.t) (doc : document) : gostring :=
  Sprintf_v (docField doc (Ref idx)).

(** The state in which [AddDoc] enters its loop over the fields. *)
Definition initState (idx : Index.t) (doc : document) : loopState :=
  {| ls_store := DocumentStore.AddDoc (Store idx) (docRefOf idx doc)
                   (docCopy (Ref idx) (docRefOf idx doc) doc);
     ls_indexes := FieldIndexes idx;
     ls_tokenFreq := ∅ |}.

(** The index that [AddDoc] returns for the final state of the loop. *)
Definition withState (idx : Index.t) (st : loopState) : Index.t :=
  {| Fields := Fields idx; FieldIndexes := ls_indexes st; Ref := Ref idx;
     Version := Version idx; Pipeline := Pipeline idx; Lang := Lang idx;
     Store := ls_store st |}.

(** Every field of the list has an index, and the reference field is "id". *)
Definition wfIndex (idx : Index.t) : Prop :=
  Ref idx = str "id" /\ forall field, field ∈ Fields idx -> field ∈ dom (FieldIndexes idx).

(** The number of distinct processed tokens of a field value. *)
Definition distinctTokens (fieldVal : value) : Z :=
  Z.of_nat (size (list_to_set (processedOf fieldVal) : gset gostring)).

(** Every path of every trie is at most 80 code points long. *)
Definition shortPaths (indexes : gmap gostring InvertedIndex) : Prop :=
  forall field ii p,
    indexes !! field = Some ii -> is_Some (GetNode ii p) -> (length p <= 80)%nat.

Definition shortKeys (tokenFreq : gmap gostring (gmap gostring Z)) : Prop :=
  forall field freq t,
    tokenFreq !! field = Some freq -> is_Some (freq !! t) -> (length t <= 80)%nat.

(** A token of 80 characters, each of which is two bytes long. *)
Definition eightyAccents : gostring := replicate 80 233.

Definition accentsDoc : document :=
  {[ str "id" := VInt 1; str "body" := VString eightyAccents ]}.

Definition scenarioFields : list gostring := str <$> ["id"; "title"; "body"]%string.

Definition scenarioDoc : document :=
  list_to_map
    [ (str "id", VInt 1);
      (str "title", VString (str "Quick Brown Foxes"));
      (str "body", VString (str "Running jumped runner's")) ].

(** The index of the scenario after its document has been added. *)
Definition scenarioIndex : Index.t :=
  default (Index.NewIndex scenarioFields)
          (@Index.AddDoc latin1Table (Index.NewIndex scenarioFields) scenarioDoc).

(** A second document, whose body shares the token "jump" with the first. *)
Definition secondDoc : document :=
  list_to_map
    [ (str "id", VInt 2);
      (str "title", VString (str "Lazy dogs"));
      (str "body", VString (str "jumped again")) ].

Definition unlistedFieldDoc : document :=
  list_to_map
    [ (str "id", VInt 1); (str "title", VString (str "x"));
      (str "body", VString (str "hello world")) ].

Definition repeatedFieldDoc : document :=
  list_to_map [ (str "id", VInt 1); (str "body", VString (str "cat")) ].

End ProofDefinitions.

(* ===================================================================== *)
(** ** Definitions for the further properties *)
(* ===================================================================== *)

(** The weight of the last call of a sequence for a reference and a token. *)
Definition lastWeight (calls : list call) (ref token : gostring) : option float64 :=
  last (c_weight <$> filter (fun c => c_ref c = ref /\ c_token c = token) calls).

(** The last document of a sequence of [AddDoc] calls for a reference. *)
Definition lastDoc (calls : list (gostring * document)) (ref : gostring)
    : option document :=
  last (snd <$> filter (fun c => c.1 = ref) calls).

(** An [Index] value made without [NewIndex], as a struct literal or as
    [json.Unmarshal] fills it: the field list is set, the map of the field
    indexes (which has no JSON form) is nil. *)
Definition bareIndex (fields : list gostring) : Index.t :=
  {| Index.Fields := fields;
     Index.FieldIndexes := ∅;
     Index.Ref := str "id";
     Index.Version := ElasticlunrVersion;
     Index.Pipeline := str <$> ["trimmer"; "stopWordFilter"; "stemmer"]%string;
     Index.Lang := str "English";
     Index.Store := DocumentStore.NewDocumentStore true |}.

(* ===================================================================== *)
(** ** The renderer: escaping and tag stripping *)
(* ===================================================================== *)

(** [strings.ReplaceAll(s, old, new)] for an [old] of one ASCII character:
    every occurrence is replaced, from left to right. *)
Definition ReplaceAll (s : gostring) (old : rune) (new : gostring) : gostring :=
  s ≫= (fun r => if r =? old then new else [r]).

(** [htmlEscape]: four replacements, one after the other. *)
Definition htmlEscape (s : gostring) : gostring :=
  let s := ReplaceAll s 38 (str "&amp;") in
  let s := ReplaceAll s 60 (str "&lt;") in
  let s := ReplaceAll s 62 (str "&gt;") in
  let s := ReplaceAll s 34 (str "&quot;") in
  s.

(** What [htmlEscape] writes for one character, read as a single pass. *)
Definition escapeRune (r : rune) : gostring :=
  if r =? 38 then str "&amp;"
  else if r =? 60 then str "&lt;"
  else if r =? 62 then str "&gt;"
  else if r =? 34 then str "&quot;"
  else [r].

(** The two replacements by which [generateSearchIndex] makes the JSON text
    fit between the single quotes of a JavaScript string literal: the
    backslashes first, then the quotes. *)
Definition jsEscape (jsonStr : gostring) : gostring :=
  let jsonStr := ReplaceAll jsonStr 92 [92; 92] in
  let jsonStr := ReplaceAll jsonStr 39 [92; 39] in
  jsonStr.

(** The value of the characters between the single quotes of a JavaScript
    string literal, for the two escapes that [jsEscape] writes. [None]: a
    bare quote (which ends the literal), a line break, a backslash at the
    end or before another character. *)
Fixpoint jsStringValue (lit : gostring) : option gostring :=
  match lit with
  | [] => Some []
  | r :: rest =>
      if (r =? 39) || (r =? 10) || (r =? 13) then None
      else if r =? 92 then
        match rest with
        | x :: rest' =>
            if (x =? 92) || (x =? 39) then (fun v => x :: v) <$> jsStringValue rest'
            else None
        | [] => None
        end
      else (fun v => r :: v) <$> jsStringValue rest
  end.

(** [stripHTML]: [regexp.MustCompile(`<[^>]*>`).ReplaceAllString(content, "")].
    A match starts at a [<] that has a [>] somewhere after it and ends at the
    first such [>]; the matches are found from left to right and removed.
    [closeTag] reads the characters after a [<]: [None] when no [>] follows,
    in which case nothing more matches and the rest of the text stays. *)
Fixpoint stripHTML (content : gostring) : gostring :=
  match content with
  | [] => []
  | r :: rest =>
      if r =? 60 then
        match closeTag rest with
        | Some out => out
        | None => content
        end
      else r :: stripHTML rest
  end
with closeTag (content : gostring) : option gostring :=
  match content with
  | [] => None
  | r :: rest => if r =? 62 then Some (stripHTML rest) else closeTag rest
  end.

(** A complete tag starts in the text: a [<] with a [>] after it. *)
Definition hasTag (s : gostring) : Prop :=
  exists a b c, s = a ++ 60 :: b ++ 62 :: c.

(* ===================================================================== *)
(** ** The book model *)
(* ===================================================================== *)

Module Models.

(** [Chapter], and the interface [BookItem] with its three
    implementations. [Number] holds the parts of the section number. *)
Inductive Chapter : Type :=
| MkChapter (Name Content : gostring) (Number : option (list Z))
            (SubItems : list BookItem) (Path SourcePath : option gostring)
            (ParentNames : list gostring) (IsDraft : bool)
with BookItem : Type :=
| ChapterItem (ch : Chapter)
| SeparatorItem
| PartTitleItem (Title : gostring).

Definition Name (c : Chapter) : gostring :=
  let 'MkChapter name _ _ _ _ _ _ _ := c in name.

Definition Content (c : Chapter) : gostring :=
  let 'MkChapter _ content _ _ _ _ _ _ := c in content.

Definition SubItems (c : Chapter) : list BookItem :=
  let 'MkChapter _ _ _ subItems _ _ _ _ := c in subItems.

Definition Path (c : Chapter) : option gostring :=
  let 'MkChapter _ _ _ _ path _ _ _ := c in path.

Definition IsDraftChapter (c : Chapter) : bool :=
  let 'MkChapter _ _ _ _ _ _ _ isDraft := c in isDraft.

Record Book := { Items : list BookItem }.

(** [Chapter.GetAllChapters]: the loop over [c.SubItems], with the slice
    [chapters] as accumulator. *)
Fixpoint GetAllChapters (c : Chapter) : list Chapter :=
  let 'MkChapter _ _ _ subItems _ _ _ _ := c in
  foldl (fun chapters item =>
           match item with
           | ChapterItem ch => (chapters ++ [ch]) ++ GetAllChapters ch
           | _ => chapters
           end) [] subItems.

(** [Chapter.IterSubItems]. *)
Fixpoint IterSubItems (c : Chapter) : list BookItem :=
  let 'MkChapter _ _ _ subItems _ _ _ _ := c in
  foldl (fun result item =>
           let result := result ++ [item] in
           match item with
           | ChapterItem ch => result ++ IterSubItems ch
           | _ => result
           end) [] subItems.

(** [Book.Chapters]. *)
Definition Chapters (b : Book) : list Chapter :=
  foldl (fun chapters item =>
           let chapters :=
             match item with
             | ChapterItem ch =>
                 if negb (IsDraftChapter ch) then chapters ++ [ch] else chapters
             | _ => chapters
             end in
           match item with
           | ChapterItem ch => chapters ++ GetAllChapters ch
           | _ => chapters
           end) [] (Items b).

(** [Book.IterAll]. *)
Definition IterAll (b : Book) : list BookItem :=
  foldl (fun result item =>
           let result := result ++ [item] in
           match item with
           | ChapterItem ch => result ++ IterSubItems ch
           | _ => result
           end) [] (Items b).

(** The type assertion of an item to a chapter. *)
Definition asChapter (item : BookItem) : option Chapter :=
  match item with
  | ChapterItem ch => Some ch
  | _ => None
  end.

End Models.

(* ===================================================================== *)
(** ** The renderer: chapters and the search index *)
(* ===================================================================== *)

Module Renderer.

Import Models.

(** [collectSubChapters]. *)
Fixpoint collectSubChapters (ch : Chapter) : list Chapter :=
  let 'MkChapter _ _ _ subItems _ _ _ _ := ch in
  foldl (fun chapters item =>
           match item with
           | ChapterItem subCh => (chapters ++ [subCh]) ++ collectSubChapters subCh
           | _ => chapters
           end) [] subItems.

(** [collectChapters]. *)
Definition collectChapters (book : Book) : list Chapter :=
  foldl (fun chapters item =>
           match item with
           | ChapterItem ch => (chapters ++ [ch]) ++ collectSubChapters ch
           | _ => chapters
           end) [] (Items book).

Record HeadingInfo := { Level : gostring; Text : gostring; ID : gostring }.

(** [strings.TrimSuffix], for a suffix of ASCII characters. *)
Definition TrimSuffix (s suffix : gostring) : gostring :=
  if HasSuffix s suffix then cutSuffix s suffix else s.

(** The fields of the search index. *)
Definition searchFields : list gostring :=
  str <$> ["title"; "body"; "breadcrumbs"]%string.

(** The separator [" » "] of the breadcrumbs. *)
Definition breadcrumbSep : gostring := [32; 187; 32].

(** The map literal of a search document. *)
Definition searchDoc (body breadcrumbs : gostring) (docID : Z) (title : gostring)
    : document :=
  list_to_map
    [ (str "body", VString body);
      (str "breadcrumbs", VString breadcrumbs);
      (str "id", VInt docID);
      (str "title", VString title) ].

(** What the closure [processChaptersRecursive] captures and updates: the
    index, the slice [docURLs] and the counter [docID]. *)
Record searchState := {
  ss_idx : Index.t;
  ss_docURLs : list gostring;
  ss_docID : Z
}.

Section SearchIndex.
Context `{CaseTable}.

(** [convertMarkdown], of which only the type matters here: the HTML text
    and the headings of a chapter. *)
Variable convertMarkdown : gostring -> gostring * list HeadingInfo.

(** The three statements by which one document enters the index:
    [docURLs = append(docURLs, url)], [idx.AddDoc(doc)], [docID++]. [None]
    is a panic of [AddDoc]. *)
Definition addSearchDoc (st : searchState) (body breadcrumbs title url : gostring)
    : option searchState :=
  match Index.AddDoc (ss_idx st) (searchDoc body breadcrumbs (ss_docID st) title) with
  | None => None
  | Some idx =>
      Some {| ss_idx := idx;
              ss_docURLs := ss_docURLs st ++ [url];
              ss_docID := Int64.incr (ss_docID st) |}
  end.

(** The loop over the headings of a chapter. *)
Definition addHeadings (docPath breadcrumb : gostring) (headings : list HeadingInfo)
    (st : searchState) : option searchState :=
  foldl (fun acc h =>
           acc ≫= fun st =>
             addSearchDoc st (Text h) (breadcrumb ++ breadcrumbSep ++ Text h) (Text h)
                          (docPath ++ str "#" ++ ID h))
        (Some st) headings.

(** The path of the page of a chapter. *)
Definition docPathOf (path : gostring) : gostring :=
  ReplaceAll (TrimSuffix path (str ".md") ++ str ".html") 92 (str "/").

Definition breadcrumbOf (parentBreadcrumb name : gostring) : gostring :=
  if bool_decide (parentBreadcrumb = []) then name
  else parentBreadcrumb ++ breadcrumbSep ++ name.

(** The closure [processChaptersRecursive] of [generateSearchIndex]. *)
Fixpoint processChaptersRecursive (ch : Chapter) (parentBreadcrumb : gostring)
    (st : searchState) : option searchState :=
  let 'MkChapter name content _ subItems path _ _ _ := ch in
  match path with
  | None => Some st
  | Some path =>
      let docPath := docPathOf path in
      let breadcrumb := breadcrumbOf parentBreadcrumb name in
      let '(htmlContent, headings) := convertMarkdown content in
      let plainText := stripHTML htmlContent in
      match addSearchDoc st plainText breadcrumb name docPath with
      | None => None
      | Some st =>
          foldl (fun acc item =>
                   match item with
                   | ChapterItem subCh =>
                       acc ≫= processChaptersRecursive subCh breadcrumb
                   | _ => acc
                   end)
                (addHeadings docPath breadcrumb headings st) subItems
      end
  end.

(** [generateSearchIndex], up to the point where the index and the URL list
    are complete. *)
Definition generateSearchIndex (book : Book) : option searchState :=
  foldl (fun acc item =>
           match item with
           | ChapterItem ch => acc ≫= processChaptersRecursive ch []
           | _ => acc
           end)
        (Some {| ss_idx := Index.NewIndex searchFields; ss_docURLs := []; ss_docID := 0 |})
        (Items book).

End SearchIndex.

(** The reference string of the document with a given position in the URL
    list. *)
Definition idOf (i : nat) : gostring := formatInt (Int64.wrap (Z.of_nat i)).

End Renderer.

(* ===================================================================== *)
(** ** The documents of the search index *)
(* ===================================================================== *)

(** The documents of the search index, as a list: what [generateSearchIndex]
    passes to [AddDoc], with the URL it appends for each. *)
Record searchEntry := {
  se_url : gostring;
  se_body : gostring;
  se_breadcrumbs : gostring;
  se_title : gostring
}.

Section SearchDocuments.
Context `{CaseTable}.
Variable convertMarkdown : gostring -> gostring * list Renderer.HeadingInfo.

Import Models Renderer.

(** The document of a heading of a chapter. *)
Definition headingEntry (docPath breadcrumb : gostring) (h : HeadingInfo) : searchEntry :=
  {| se_url := docPath ++ str "#" ++ ID h;
     se_body := Text h;
     se_breadcrumbs := breadcrumb ++ breadcrumbSep ++ Text h;
     se_title := Text h |}.

(** The documents of a chapter and of the chapters below it, in the order of
    the traversal: none for a chapter without a path; otherwise the chapter,
    its headings, then its sub-chapters. *)
Fixpoint chapterDocs (ch : Chapter) (parentBreadcrumb : gostring) : list searchEntry :=
  let 'MkChapter name content _ subItems path _ _ _ := ch in
  match path with
  | None => []
  | Some path =>
      let docPath := docPathOf path in
      let breadcrumb := breadcrumbOf parentBreadcrumb name in
      {| se_url := docPath;
         se_body := stripHTML (convertMarkdown content).1;
         se_breadcrumbs := breadcrumb;
         se_title := name |}
      :: (headingEntry docPath breadcrumb <$> (convertMarkdown content).2)
      ++ (subItems ≫= fun item =>
            match item with
            | ChapterItem subCh => chapterDocs subCh breadcrumb
            | _ => []
            end)
  end.

Definition bookDocs (book : Book) : list searchEntry :=
  Items book ≫= fun item =>
    match item with
    | ChapterItem ch => chapterDocs ch []
    | _ => []
    end.

(** What holds of the state of [generateSearchIndex] when the documents
    [docs] have been added: the counter is their number, the URL list holds
    their URLs, the references stored are those of their positions, and
    (below 2^63 documents) each position holds its document. *)
Definition searchInv (st : searchState) (docs : list searchEntry) : Prop :=
  Built searchFields (ss_idx st)
  /\ ss_docID st = Int64.wrap (Z.of_nat (length docs))
  /\ ss_docURLs st = se_url <$> docs
  /\ dom (DocumentStore.Docs (Index.Store (ss_idx st)))
     = list_to_set (idOf <$> seq 0 (length docs))
  /\ DocumentStore.Length (Index.Store (ss_idx st))
     = Int64.wrap (Z.of_nat (size (DocumentStore.Docs (Index.Store (ss_idx st)))))
  /\ (Z.of_nat (length docs) < 2 ^ 63 ->
      forall (i : nat) d,
        docs !! i = Some d ->
        DocumentStore.Docs (Index.Store (ss_idx st)) !! idOf i
        = Some (Index.docCopy (str "id") (idOf i)
                  (searchDoc (se_body d) (se_breadcrumbs d) (Z.of_nat i) (se_title d)))).

End SearchDocuments.

(** The text that a search document has in a field of the search index. *)
Definition entryField (field : gostring) (d : searchEntry) : option gostring :=
  if decide (field = str "title") then Some (se_title d)
  else if decide (field = str "body") then Some (se_body d)
  else if decide (field = str "breadcrumbs") then Some (se_breadcrumbs d)
  else None.

(** The postings of the search index when the documents [docs] have been
    added: in the trie of each field, a reference is posted under a string
    exactly when it is the reference of a document of the list of which the
    string is a processed token in that field. *)
Definition postInv `{CaseTable} (st : Renderer.searchState) (docs : list searchEntry)
    : Prop :=
  forall field,
    field ∈ Renderer.searchFields ->
    exists ii,
      Index.FieldIndexes (Renderer.ss_idx st) !! field = Some ii
      /\ forall p r,
           is_Some (Docs (nodeAt p (Root ii)) !! r)
           <-> exists (i : nat) d text,
                 docs !! i = Some d /\ r = Renderer.idOf i
                 /\ entryField field d = Some text
                 /\ p ∈ processedOf (VString text).

(* ===================================================================== *)
(** ** The updates of AddDoc *)
(* ===================================================================== *)

(** The updates of one [AddDoc] call, listed: the document stored, then for
    each field processed the length recorded and the frequency map posted.
    They depend on the document, the reference field and the field list, not
    on what the index holds. *)
Inductive indexUpdate : Type :=
| StoreDoc (docRef : gostring) (doc : document)
| PostField (docRef field : gostring) (length : Z) (freq : gmap gostring Z).

Definition updateRef (u : indexUpdate) : gostring :=
  match u with
  | StoreDoc docRef _ => docRef
  | PostField docRef _ _ _ => docRef
  end.

Section IndexUpdates.
Context `{CaseTable}.

Definition applyUpdate (st : DocumentStore.t * gmap gostring InvertedIndex)
    (u : indexUpdate) : DocumentStore.t * gmap gostring InvertedIndex :=
  match u with
  | StoreDoc docRef doc => (DocumentStore.AddDoc st.1 docRef doc, st.2)
  | PostField docRef field length freq =>
      (DocumentStore.AddFieldLength st.1 docRef field length,
       alter (Index.addTokens docRef freq) field st.2)
  end.

Fixpoint fieldUpdates (ref docRef : gostring) (doc : document)
    (tokenFreq : gmap gostring (gmap gostring Z)) (fields : list gostring)
    : list indexUpdate :=
  match fields with
  | [] => []
  | field :: rest =>
      if decide (field = ref) then fieldUpdates ref docRef doc tokenFreq rest
      else
        match doc !! field with
        | None => fieldUpdates ref docRef doc tokenFreq rest
        | Some fieldVal =>
            let freq := Index.countTokens (default ∅ (tokenFreq !! field))
                                          (processedOf fieldVal) in
            PostField docRef field
              (Z.of_nat (size (Index.uniqueTokens (processedOf fieldVal)))) freq
            :: fieldUpdates ref docRef doc (<[field := freq]> tokenFreq) rest
        end
  end.

Definition docUpdates (ref : gostring) (fields : list gostring) (doc : document)
    : list indexUpdate :=
  let docRef := Sprintf_v (docField doc ref) in
  StoreDoc docRef (Index.docCopy ref docRef doc)
  :: fieldUpdates ref docRef doc ∅ fields.

(** The index with the store and the field indexes replaced. *)
Definition withUpdates (idx : Index.t)
    (st : DocumentStore.t * gmap gostring InvertedIndex) : Index.t :=
  {| Index.Fields := Index.Fields idx; Index.FieldIndexes := st.2;
     Index.Ref := Index.Ref idx; Index.Version := Index.Version idx;
     Index.Pipeline := Index.Pipeline idx; Index.Lang := Index.Lang idx;
     Index.Store := st.1 |}.

End IndexUpdates.

(* ===================================================================== *)
(** ** Section numbers *)
(* ===================================================================== *)

(** [rune(x)] for an [int]: the low 32 bits, signed. *)
Definition toRune (x : Z) : rune := (x + 2 ^ 31) mod 2 ^ 32 - 2 ^ 31.

(** [string(r)] for a rune: its UTF-8 form, U+FFFD for what is not a
    Unicode scalar value. *)
Definition stringOfRune (r : rune) : gostring :=
  if (0 <=? r) && (r <=? 1114111) && negb ((55296 <=? r) && (r <=? 57343))
  then [r] else [65533].

(** [SectionNumber.String], on the pointer ([None] is nil) to the parts: the
    loop carries the index [i] and [result]. *)
Definition SectionNumber_String (sn : option (list Z)) : gostring :=
  match sn with
  | None => []
  | Some parts =>
      if Z.of_nat (length parts) =? 0 then []
      else
        (foldl (fun (acc : Z * gostring) part =>
                  let result := if 0 <? acc.1 then acc.2 ++ str "." else acc.2 in
                  (acc.1 + 1,
                   result ++ stringOfRune (toRune (Int64.wrap (part + 48)))))
               (0, []) parts).2
  end.

(** The strings of a list joined by dots. *)
Definition joinDots (l : list gostring) : gostring :=
  match l with
  | [] => []
  | x :: rest => foldl (fun acc y => acc ++ str "." ++ y) x rest
  end.

(* ===================================================================== *)
(** ** Integers, lengths *)
(* ===================================================================== *)

Lemma wrap_in_range z : Int64.in_range z -> Int64.wrap z = z.
Proof.
  unfold Int64.in_range, Int64.min_int, Int64.max_int, Int64.wrap. intros Hz.
  rewrite Z.mod_small; lia.
Qed.

Lemma wrap_wrap_succ z : Int64.wrap (Int64.wrap z + 1) = Int64.wrap (z + 1).
Proof.
  unfold Int64.wrap. f_equal.
  replace ((z + 2 ^ 63) mod 2 ^ 64 - 2 ^ 63 + 1 + 2 ^ 63)
    with ((z + 2 ^ 63) mod 2 ^ 64 + 1) by lia.
  replace (z + 1 + 2 ^ 63) with ((z + 2 ^ 63) + 1) by lia.
  rewrite Zplus_mod_idemp_l. reflexivity.
Qed.

Lemma incr_small z : 0 <= z < 2 ^ 63 - 1 -> Int64.incr z = z + 1.
Proof.
  intros Hz. unfold Int64.incr. apply wrap_in_range.
  unfold Int64.in_range, Int64.min_int, Int64.max_int. lia.
Qed.

Lemma runeLen_pos r : 1 <= runeLen r <= 4.
Proof. unfold runeLen. repeat case_match; lia. Qed.

Lemma len_nil : len [] = 0.
Proof. reflexivity. Qed.

Lemma len_cons r s : len (r :: s) = runeLen r + len s.
Proof. reflexivity. Qed.

Lemma len_app s1 s2 : len (s1 ++ s2) = len s1 + len s2.
Proof.
  induction s1 as [|r s1 IH]; [reflexivity|].
  simpl app. rewrite !len_cons, IH. lia.
Qed.

Lemma len_ge_length s : Z.of_nat (length s) <= len s.
Proof.
  induction s as [|r s IH]; [reflexivity|].
  rewrite len_cons. pose proof (runeLen_pos r). simpl length. lia.
Qed.

Lemma len_nonneg s : 0 <= len s.
Proof. pose proof (len_ge_length s). lia. Qed.

Lemma len_zero_iff s : len s = 0 <-> s = [].
Proof.
  split; [|intros ->; reflexivity].
  destruct s as [|r s]; [reflexivity|].
  rewrite len_cons. pose proof (runeLen_pos r). pose proof (len_nonneg s). lia.
Qed.

Lemma len_pos_iff s : (0 <? len s) = true <-> s <> [].
Proof.
  rewrite Z.ltb_lt, <- len_zero_iff. pose proof (len_nonneg s). lia.
Qed.

Lemma len_ascii s :
  Forall (fun r => 0 <= r < 128) s -> len s = Z.of_nat (length s).
Proof.
  induction 1 as [|r s Hr _ IH]; [reflexivity|].
  rewrite len_cons, IH. simpl length.
  unfold runeLen. rewrite (proj2 (Z.ltb_ge r 0)), (proj2 (Z.ltb_lt r 128)) by lia.
  lia.
Qed.

(* ===================================================================== *)
(** ** The tokenizer *)
(* ===================================================================== *)

Section TokenizerProofs.
Context `{CaseTable}.

Lemma trimLeft_no_space s :
  Forall (fun r => IsSpace r = false) s -> trimLeft s = s.
Proof. destruct 1 as [|r s Hr _]; simpl; [reflexivity|]. by rewrite Hr. Qed.

Lemma TrimSpace_no_space s :
  Forall (fun r => IsSpace r = false) s -> TrimSpace s = s.
Proof.
  intros Hs. unfold TrimSpace. rewrite (trimLeft_no_space s Hs).
  rewrite trimLeft_no_space; [apply rev_involutive|]. by apply Forall_rev.
Qed.

Lemma isSeparator_false_space r : isSeparator r = false -> IsSpace r = false.
Proof. unfold isSeparator. by intros [? _]%orb_false_elim. Qed.

Lemma ToLower_nil_iff s : ToLower s = [] <-> s = [].
Proof. unfold ToLower. destruct s; simpl; split; congruence. Qed.

Lemma keep_cons piece pieces : keep (piece :: pieces) = keep [piece] ++ keep pieces.
Proof.
  unfold keep. change (piece :: pieces) with ([piece] ++ pieces).
  by rewrite filter_app, fmap_app, filter_app.
Qed.

Lemma keep_nil_piece pieces : keep ([] :: pieces) = keep pieces.
Proof. unfold keep. by rewrite filter_cons_False by (intros Hne; by apply Hne). Qed.

Lemma flushWord_keep word tokens :
  word <> [] -> Forall (fun r => isSeparator r = false) word ->
  flushWord word tokens = tokens ++ keep [word].
Proof.
  intros Hne Hsep. unfold flushWord, keep.
  rewrite TrimSpace_no_space
    by (eapply Forall_impl; [exact Hsep|]; apply isSeparator_false_space).
  rewrite filter_cons_True, filter_nil by done. simpl.
  rewrite bool_decide_eq_false_2 by (by rewrite ToLower_nil_iff). simpl.
  destruct (decide (len (ToLower word) <= maxWordLengthToIndex)) as [Hle|Hgt].
  - rewrite filter_cons_True, filter_nil by done.
    by rewrite (proj2 (Z.leb_le _ _) Hle).
  - rewrite filter_cons_False, filter_nil by done.
    rewrite (proj2 (Z.leb_gt _ _)) by lia. by rewrite app_nil_r.
Qed.

Lemma splitOn_not_nil sep text : splitOn sep text <> [].
Proof.
  destruct text as [|r rest]; simpl; [done|].
  destruct (sep r); [done|]. by destruct (splitOn sep rest).
Qed.

(** The pieces contain no separator. *)
Lemma splitOn_pieces sep text :
  Forall (Forall (fun r => sep r = false)) (splitOn sep text).
Proof.
  induction text as [|r rest IH]; simpl.
  - by repeat constructor.
  - destruct (sep r) eqn:Hr; [by constructor|].
    destruct (splitOn sep rest) as [|piece pieces]; [by repeat constructor|].
    inversion IH; subst. constructor; [by constructor|done].
Qed.

Lemma withWord_nil sep text :
  withWord [] (splitOn sep text) = splitOn sep text.
Proof.
  pose proof (splitOn_not_nil sep text). by destruct (splitOn sep text).
Qed.

Lemma len_not_pos word : (0 <? len word) = false -> word = [].
Proof.
  intros Hlen. destruct (decide (word = [])) as [|Hne]; [done|].
  apply len_pos_iff in Hne. congruence.
Qed.

Lemma tokenizeLoop_keep text : forall word tokens,
  Forall (fun r => isSeparator r = false) word ->
  tokenizeLoop text word tokens
  = tokens ++ keep (withWord word (splitOn isSeparator text)).
Proof.
  induction text as [|r rest IH]; intros word tokens Hword.
  - simpl. rewrite app_nil_r. destruct (0 <? len word) eqn:Hlen.
    + apply flushWord_keep; [by apply len_pos_iff|done].
    + apply len_not_pos in Hlen as ->. by rewrite keep_nil_piece, app_nil_r.
  - cbn [tokenizeLoop splitOn]. destruct (isSeparator r) eqn:Hr.
    + cbn [withWord]. rewrite app_nil_r. destruct (0 <? len word) eqn:Hlen.
      * rewrite IH by constructor. rewrite withWord_nil.
        rewrite flushWord_keep; [|by apply len_pos_iff|done].
        by rewrite (keep_cons word (splitOn _ _)), <- app_assoc.
      * apply len_not_pos in Hlen as ->.
        rewrite IH by constructor. by rewrite withWord_nil, keep_nil_piece.
    + rewrite IH by (apply Forall_app; split; [done|by repeat constructor]).
      pose proof (splitOn_not_nil isSeparator rest).
      destruct (splitOn isSeparator rest) as [|piece pieces]; [done|].
      cbn [withWord]. by rewrite <- app_assoc.
Qed.

Lemma tokenize_eq_spec text : tokenize text = tokenize_spec text.
Proof.
  unfold tokenize. rewrite tokenizeLoop_keep by constructor.
  by rewrite withWord_nil.
Qed.

Lemma toLowerRune_ascii_other r :
  0 <= r <= 127 -> ~ (65 <= r <= 90) -> toLowerRune r = r.
Proof.
  intros Hr Hnot. unfold toLowerRune.
  rewrite (proj2 (Z.leb_le r 127)) by lia.
  destruct (65 <=? r) eqn:H1, (r <=? 90) eqn:H2; simpl; try reflexivity.
  apply Z.leb_le in H1, H2. lia.
Qed.

(** C5. The tokenizer returns the pieces of the text between the separators
    (unicode white space and the hyphen), lower-cased, without the empty
    ones (and without those longer than 80 bytes); no piece holds a
    separator, so no hyphen of the text is kept inside a token; every ASCII
    character that is not an upper-case letter, punctuation included, is
    kept as it is; and the text of scenario 1 gives the five tokens the
    specification lists. *)
Theorem tokenize_splits_lowercases_preserves_punctuation :
  (forall text, tokenize text = tokenize_spec text)
  /\ (forall text piece,
        piece ∈ splitOn isSeparator text ->
        Forall (fun r => IsSpace r = false /\ r <> 45) piece)
  /\ (forall r, 0 <= r <= 127 -> ~ (65 <= r <= 90) -> toLowerRune r = r)
  /\ tokenize (str "Hello, world! running-runner's studies")
     = str <$> ["hello,"; "world!"; "running"; "runner's"; "studies"]%string.
Proof.
  split; [exact tokenize_eq_spec|].
  split.
  { intros text piece Hin.
    pose proof (splitOn_pieces isSeparator text) as Hall.
    rewrite Forall_forall in Hall. specialize (Hall piece Hin).
    eapply Forall_impl; [exact Hall|]. intros r Hr. unfold isSeparator in Hr.
    apply orb_false_elim in Hr as [Hs Hh]. split; [done|].
    by apply Z.eqb_neq in Hh. }
  split; [exact toLowerRune_ascii_other|].
  vm_compute. reflexivity.
Qed.

End TokenizerProofs.

(* ===================================================================== *)
(** ** The stemmer *)
(* ===================================================================== *)

Section StemmerProofs.
Context `{CaseTable}.

Lemma HasSuffix_app word suffix : HasSuffix (word ++ suffix) suffix = true.
Proof.
  unfold HasSuffix. apply bool_decide_eq_true_2.
  rewrite length_app, Nat.add_sub. by rewrite drop_app_length.
Qed.

Lemma cutSuffix_app word suffix : cutSuffix (word ++ suffix) suffix = word.
Proof.
  unfold cutSuffix. rewrite length_app, Nat.add_sub. by rewrite take_app_length.
Qed.

Lemma HasSuffix_true word suffix :
  HasSuffix word suffix = true -> word = cutSuffix word suffix ++ suffix.
Proof.
  unfold HasSuffix, cutSuffix. intros Hs%bool_decide_eq_true_1.
  transitivity (take (length word - length suffix) word
                ++ drop (length word - length suffix) word).
  - by rewrite take_drop.
  - by rewrite Hs.
Qed.

(** The guard of a rule in the source is the rule of the specification. *)
Lemma guard_ruleApplies suffix minLen word :
  HasSuffix word suffix && (len suffix + minLen <? len word) = true
  <-> ruleApplies (suffix, minLen) word.
Proof.
  unfold ruleApplies. simpl. split.
  - intros [Hs Hl]%andb_true_iff. exists (cutSuffix word suffix).
    apply HasSuffix_true in Hs. split; [done|].
    apply Z.ltb_lt in Hl. rewrite Hs, len_app in Hl. lia.
  - intros (stem' & -> & Hl). rewrite HasSuffix_app, len_app. simpl.
    apply Z.ltb_lt. lia.
Qed.

Lemma stripFirst_applies suffix minLen rest word :
  ruleApplies (suffix, minLen) word ->
  stripFirst ((suffix, minLen) :: rest) word = cutSuffix word suffix.
Proof. intros Ha%guard_ruleApplies. simpl. by rewrite Ha. Qed.

Lemma stripFirst_skips rule rest word :
  ~ ruleApplies rule word ->
  stripFirst (rule :: rest) word = stripFirst rest word.
Proof.
  destruct rule as [suffix minLen]. intros Hn. simpl.
  destruct (HasSuffix word suffix && (len suffix + minLen <? len word)) eqn:Hg;
    [|done].
  by apply guard_ruleApplies in Hg.
Qed.

Lemma stripFirst_none rules word :
  Forall (fun r => ~ ruleApplies r word) rules -> stripFirst rules word = word.
Proof.
  induction 1 as [|rule rules Hn _ IH]; [done|]. by rewrite stripFirst_skips.
Qed.

(** The loop over a suffix table computes the relation of the
    specification, which is therefore a function. *)
Lemma SuffixGroup_stripFirst rules word word' :
  SuffixGroup rules word word' <-> word' = stripFirst rules word.
Proof.
  split.
  - intros [(before & [suffix minLen] & after & -> & Hbefore & Hw & Hl)|[Hall ->]].
    + simpl in Hw, Hl. induction Hbefore as [|rule before Hn _ IH]; simpl app.
      * rewrite stripFirst_applies by (by exists word'). subst word.
        by rewrite cutSuffix_app.
      * by rewrite stripFirst_skips.
    + by rewrite stripFirst_none.
  - intros ->. induction rules as [|[suffix minLen] rules IH].
    + right. by split.
    + destruct (HasSuffix word suffix && (len suffix + minLen <? len word)) eqn:Hg.
      * left. exists [], (suffix, minLen), rules. simpl. rewrite Hg.
        apply guard_ruleApplies in Hg as (stem' & -> & Hl). simpl in Hl.
        rewrite cutSuffix_app. by repeat split.
      * assert (~ ruleApplies (suffix, minLen) word) as Hn.
        { intros Ha%guard_ruleApplies. congruence. }
        rewrite stripFirst_skips by done.
        destruct IH as [(before & rule & after & -> & Hbefore & Hw & Hl)|[Hall Heq]].
        -- left. exists ((suffix, minLen) :: before), rule, after.
           repeat split; [by constructor|done|done].
        -- right. split; [by constructor|done].
Qed.

Lemma stemStep2_group word : stemStep2 word = stripFirst group2 word.
Proof. reflexivity. Qed.

Lemma stem_short word : len word <= 2 -> stem word = word.
Proof. intros Hl. unfold stem. by rewrite (proj2 (Z.leb_le _ _) Hl). Qed.

Lemma stem_long word :
  2 < len word ->
  stem word = stripFirst group4 (stripFirst group3 (stripFirst group2
                (stripFirst group1 (ToLower word)))).
Proof. intros Hl. unfold stem. by rewrite (proj2 (Z.leb_gt _ _) Hl). Qed.

(** C7. The stemmer is a function that leaves every token of at most two
    bytes unchanged and, on a longer one, is exactly the result of the four
    suffix groups applied in order to the lower-cased token, each group
    applying its first applicable rule and at most that one; with
    stem("running") = "runn", stem("studies") = "stud" and
    stem("happiness") = "happines". *)
Theorem stem_four_groups_in_order :
  (forall word, len word <= 2 -> stem word = word)
  /\ (forall word word',
        2 < len word ->
        (exists w1 w2 w3,
            SuffixGroup group1 (ToLower word) w1 /\ SuffixGroup group2 w1 w2 /\
            SuffixGroup group3 w2 w3 /\ SuffixGroup group4 w3 word')
        <-> stem word = word')
  /\ stem (str "running") = str "runn"
  /\ stem (str "studies") = str "stud"
  /\ stem (str "happiness") = str "happines".
Proof.
  split; [exact stem_short|]. split.
  { intros word word' Hl. rewrite (stem_long word Hl). split.
    - intros (w1 & w2 & w3 & H1 & H2 & H3 & H4).
      apply SuffixGroup_stripFirst in H1, H2, H3, H4. by subst.
    - intros <-. eexists _, _, _. repeat split; by apply SuffixGroup_stripFirst. }
  repeat split; vm_compute; reflexivity.
Qed.

End StemmerProofs.

(* ===================================================================== *)
(** ** The trie *)
(* ===================================================================== *)

Section TrieProofs.

Lemma height_child d n c k child :
  c !! k = Some child -> (height child < height (MkIndexItem d n c))%nat.
Proof.
  intros Hk. simpl.
  rewrite (map_fold_delete_L _ _ k child c); [lia| |done].
  intros. lia.
Qed.

(** Induction on tries: a property that holds of a node whenever it holds
    of its children holds of every node. *)
Lemma IndexItem_induction (P : IndexItem -> Prop) :
  (forall d n c, (forall k child, c !! k = Some child -> P child) ->
                 P (MkIndexItem d n c)) ->
  forall ii, P ii.
Proof.
  intros Hstep ii.
  remember (height ii) as h eqn:Hh. revert ii Hh.
  induction h as [h IH] using lt_wf_ind. intros [d n c] ->.
  apply Hstep. intros k child Hk.
  eapply IH; [|reflexivity]. by eapply height_child.
Qed.

Lemma AllNodes_impl (P Q : IndexItem -> Prop) ii :
  (forall node, P node -> Q node) -> AllNodes P ii -> AllNodes Q ii.
Proof.
  intros HPQ. induction 1 as [d n c HP _ IH]. constructor; [by apply HPQ|done].
Qed.

Lemma AllNodes_here P ii : AllNodes P ii -> P ii.
Proof. by destruct 1. Qed.

Lemma AllNodes_child P ii k child :
  AllNodes P ii -> Children ii !! k = Some child -> AllNodes P child.
Proof. destruct 1 as [d n c _ Hc]. simpl. apply Hc. Qed.

Lemma AllNodes_getAt P token : forall ii node,
  AllNodes P ii -> getAt token ii = Some node -> P node.
Proof.
  induction token as [|ch rest IH]; intros ii node Hall; simpl.
  - intros [= <-]. by apply AllNodes_here.
  - destruct (Children ii !! edge ch) as [child|] eqn:Hc; [|done].
    apply IH. by eapply AllNodes_child.
Qed.

Lemma AllNodes_newIndexItem (P : IndexItem -> Prop) :
  P newIndexItem -> AllNodes P newIndexItem.
Proof. intros HP. constructor; [done|]. intros k child. by rewrite lookup_empty. Qed.

Lemma addAt_nil docRef w ii :
  addAt docRef w [] ii
  = MkIndexItem (postDocs docRef w (Docs ii)) (postDF docRef (Docs ii) (DF ii))
                (Children ii).
Proof. reflexivity. Qed.

Lemma addAt_cons docRef w ch rest ii :
  addAt docRef w (ch :: rest) ii
  = MkIndexItem (Docs ii) (DF ii)
      (<[edge ch := addAt docRef w rest
                      (default newIndexItem (Children ii !! edge ch))]>
         (Children ii)).
Proof. reflexivity. Qed.

(** [addAt] keeps a property of the posting lists that the creation of a
    node establishes and that the terminal update maintains. *)
Lemma AllNodes_addAt (Q Q' : gmap gostring TermFrequency -> Z -> Prop)
    docRef w token :
  (forall d n, Q d n -> Q' d n) ->
  Q' ∅ 0 ->
  (forall d n, Q d n -> Q' (postDocs docRef w d) (postDF docRef d n)) ->
  Q ∅ 0 ->
  forall ii,
    AllNodes (fun node => Q (Docs node) (DF node)) ii ->
    AllNodes (fun node => Q' (Docs node) (DF node)) (addAt docRef w token ii).
Proof.
  intros Hmono Hnew Hpost Hnew0.
  induction token as [|ch rest IH]; intros ii Hall.
  - rewrite addAt_nil. constructor.
    + simpl. apply Hpost. by apply AllNodes_here in Hall.
    + intros k child Hk. eapply AllNodes_impl; [|by eapply AllNodes_child].
      simpl. auto.
  - rewrite addAt_cons. constructor.
    + simpl. apply Hmono. by apply AllNodes_here in Hall.
    + intros k child. destruct (decide (k = edge ch)) as [->|Hne].
      * rewrite lookup_insert_eq. intros [= <-]. apply IH.
        destruct (Children ii !! edge ch) as [old|] eqn:Hc; simpl.
        -- by eapply AllNodes_child.
        -- by apply AllNodes_newIndexItem.
      * rewrite lookup_insert_ne by done. intros Hk.
        eapply AllNodes_impl; [|by eapply AllNodes_child]. simpl. auto.
Qed.

Lemma getAt_newIndexItem token :
  default newIndexItem (getAt token newIndexItem) = newIndexItem.
Proof. by destruct token. Qed.

Lemma getAt_addAt_prefix docRef w p : forall rest ii,
  getAt p (addAt docRef w (p ++ rest) ii)
  = Some (addAt docRef w rest (nodeAt p ii)).
Proof.
  unfold nodeAt. induction p as [|ch p IH]; intros rest ii; [done|].
  simpl app. rewrite addAt_cons. simpl getAt. rewrite lookup_insert_eq, IH.
  destruct (Children ii !! edge ch) as [child|]; simpl; [done|].
  by rewrite getAt_newIndexItem.
Qed.

Lemma getAt_addAt_other docRef w token : forall p ii,
  ~ p `prefix_of` token ->
  getAt p (addAt docRef w token ii) = getAt p ii.
Proof.
  induction token as [|ch rest IH]; intros p ii Hp.
  - destruct p as [|c p]; [by destruct Hp; apply prefix_nil|].
    by rewrite addAt_nil.
  - destruct p as [|c p]; [by destruct Hp; apply prefix_nil|].
    rewrite addAt_cons. cbn [getAt Children].
    destruct (decide (c = ch)) as [->|Hne].
    + rewrite lookup_insert_eq, IH by (intros Hq; apply Hp; by apply prefix_cons).
      destruct (Children ii !! edge ch) as [child|]; simpl; [done|].
      destruct p; [|done]. destruct Hp. apply prefix_cons, prefix_nil.
    + rewrite lookup_insert_ne; [done|]. unfold edge. congruence.
Qed.

Lemma Docs_addAt_cons docRef w ch rest ii :
  Docs (addAt docRef w (ch :: rest) ii) = Docs ii.
Proof. reflexivity. Qed.

Lemma DF_addAt_cons docRef w ch rest ii :
  DF (addAt docRef w (ch :: rest) ii) = DF ii.
Proof. reflexivity. Qed.

(** The posting list under a path after [addAt]: changed at the token's own
    node only. *)
Lemma Docs_nodeAt_addAt docRef w token p ii :
  Docs (nodeAt p (addAt docRef w token ii))
  = if decide (p = token) then postDocs docRef w (Docs (nodeAt p ii))
    else Docs (nodeAt p ii).
Proof.
  destruct (decide (p `prefix_of` token)) as [[rest ->]|Hp].
  - unfold nodeAt at 1. rewrite getAt_addAt_prefix. simpl.
    destruct rest as [|ch rest].
    + rewrite app_nil_r, decide_True by done. by rewrite addAt_nil.
    + rewrite decide_False; [done|].
      intros Heq. apply (f_equal length) in Heq. rewrite length_app in Heq.
      simpl in Heq. lia.
  - unfold nodeAt at 1. rewrite getAt_addAt_other by done.
    rewrite decide_False; [done|]. by intros ->.
Qed.

Lemma DF_nodeAt_addAt docRef w token p ii :
  DF (nodeAt p (addAt docRef w token ii))
  = if decide (p = token) then postDF docRef (Docs (nodeAt p ii)) (DF (nodeAt p ii))
    else DF (nodeAt p ii).
Proof.
  destruct (decide (p `prefix_of` token)) as [[rest ->]|Hp].
  - unfold nodeAt at 1. rewrite getAt_addAt_prefix. simpl.
    destruct rest as [|ch rest].
    + rewrite app_nil_r, decide_True by done. by rewrite addAt_nil.
    + rewrite decide_False; [done|].
      intros Heq. apply (f_equal length) in Heq. rewrite length_app in Heq.
      simpl in Heq. lia.
  - unfold nodeAt at 1. rewrite getAt_addAt_other by done.
    rewrite decide_False; [done|]. by intros ->.
Qed.

(** A path exists after [addAt] when it existed before or leads toward the
    token. *)
Lemma is_Some_getAt_addAt docRef w token p ii :
  is_Some (getAt p (addAt docRef w token ii))
  <-> is_Some (getAt p ii) \/ p `prefix_of` token.
Proof.
  destruct (decide (p `prefix_of` token)) as [[rest ->]|Hp].
  - rewrite getAt_addAt_prefix. split; [|by eauto].
    intros _. right. by exists rest.
  - rewrite getAt_addAt_other by done. tauto.
Qed.

End TrieProofs.

(* ===================================================================== *)
(** ** The inverted index *)
(* ===================================================================== *)

Section InvertedIndexProofs.

Lemma Root_AddToken ii docRef token w :
  Root (AddToken ii docRef token w)
  = if decide (token = []) then Root ii else addAt docRef w token (Root ii).
Proof.
  unfold AddToken. destruct (decide (token = [])) as [->|Hne]; [done|].
  destruct (len token =? 0) eqn:Hl; [|done].
  apply Z.eqb_eq, len_zero_iff in Hl. done.
Qed.

Lemma Docs_nodeAt_AddToken ii docRef token w p :
  Docs (nodeAt p (Root (AddToken ii docRef token w)))
  = if decide (token = p /\ p <> [])
    then postDocs docRef w (Docs (nodeAt p (Root ii)))
    else Docs (nodeAt p (Root ii)).
Proof.
  rewrite Root_AddToken. destruct (decide (token = [])) as [->|Hne].
  - rewrite decide_False; [done|]. intros [<- ?]. done.
  - rewrite Docs_nodeAt_addAt. destruct (decide (p = token)) as [->|Hp].
    + by rewrite decide_True.
    + rewrite decide_False; [done|]. intros [<- ?]. done.
Qed.

Lemma DF_nodeAt_AddToken ii docRef token w p :
  DF (nodeAt p (Root (AddToken ii docRef token w)))
  = if decide (token = p /\ p <> [])
    then postDF docRef (Docs (nodeAt p (Root ii))) (DF (nodeAt p (Root ii)))
    else DF (nodeAt p (Root ii)).
Proof.
  rewrite Root_AddToken. destruct (decide (token = [])) as [->|Hne].
  - rewrite decide_False; [done|]. intros [<- ?]. done.
  - rewrite DF_nodeAt_addAt. destruct (decide (p = token)) as [->|Hp].
    + by rewrite decide_True.
    + rewrite decide_False; [done|]. intros [<- ?]. done.
Qed.

Lemma GetDocFrequency_nodeAt ii p : GetDocFrequency ii p = DF (nodeAt p (Root ii)).
Proof. unfold GetDocFrequency, GetNode, nodeAt. by destruct (getAt p (Root ii)). Qed.

Lemma GetDocs_nodeAt ii p :
  is_Some (GetNode ii p) -> GetDocs ii p = Some (TF <$> Docs (nodeAt p (Root ii))).
Proof.
  unfold GetDocs, GetNode, nodeAt. intros [node Hn]. by rewrite Hn.
Qed.

Lemma addTokenCalls_snoc calls c ii :
  addTokenCalls (calls ++ [c]) ii
  = AddToken (addTokenCalls calls ii) (c_ref c) (c_token c) (c_weight c).
Proof. unfold addTokenCalls. by rewrite foldl_snoc. Qed.

Lemma postings_snoc calls c token :
  postings (calls ++ [c]) token
  = if decide (c_token c = token /\ token <> [])
    then postDocs (c_ref c) (c_weight c) (postings calls token)
    else postings calls token.
Proof. unfold postings. by rewrite foldl_snoc. Qed.

Lemma postDF_wrap (docRef : gostring) (w : float64)
    (docs : gmap gostring TermFrequency) :
  postDF docRef docs (Int64.wrap (Z.of_nat (size docs)))
  = Int64.wrap (Z.of_nat (size (postDocs docRef w docs))).
Proof.
  unfold postDF, postDocs. destruct (decide (is_Some (docs !! docRef))) as [[t Ht]|Hn].
  - by rewrite map_size_insert_Some by done.
  - apply eq_None_not_Some in Hn. rewrite map_size_insert_None by done.
    unfold Int64.incr. rewrite wrap_wrap_succ. f_equal. lia.
Qed.

(** The node under every path of a built index: its posting list is the one
    the calls made for that token, and [DF] is its size (as an [int64]). *)
Lemma built_nodeAt calls p :
  let node := nodeAt p (Root (addTokenCalls calls NewInvertedIndex)) in
  Docs node = postings calls p
  /\ DF node = Int64.wrap (Z.of_nat (size (postings calls p))).
Proof.
  induction calls as [|c calls IH] using rev_ind; simpl.
  - unfold nodeAt. simpl. by rewrite getAt_newIndexItem.
  - simpl in IH. destruct IH as [IHd IHf].
    rewrite addTokenCalls_snoc, Docs_nodeAt_AddToken, DF_nodeAt_AddToken,
      postings_snoc, IHd, IHf.
    destruct (decide (c_token c = p /\ p <> [])); [|done].
    split; [done|]. apply postDF_wrap.
Qed.

Lemma postings_dom calls token : dom (postings calls token) = postedRefs calls token.
Proof.
  unfold postedRefs. induction calls as [|c calls IH] using rev_ind; [done|].
  rewrite postings_snoc, filter_app, fmap_app, list_to_set_app_L, <- IH.
  rewrite filter_cons, filter_nil.
  destruct (decide (c_token c = token /\ token <> [])).
  - unfold postDocs. rewrite dom_insert_L. simpl.
    by rewrite (union_empty_r_L {[c_ref c]}), (comm_L (∪)).
  - simpl. by rewrite (right_id_L ∅ (∪)).
Qed.

Lemma postings_size calls token : (size (postings calls token) <= length calls)%nat.
Proof.
  induction calls as [|c calls IH] using rev_ind; [done|].
  rewrite postings_snoc, length_app. simpl.
  destruct (decide (c_token c = token /\ token <> [])); [|lia].
  unfold postDocs. destruct (postings calls token !! c_ref c) as [t|] eqn:Hl.
  - rewrite map_size_insert_Some by done. lia.
  - rewrite map_size_insert_None by done. lia.
Qed.

Lemma is_Some_GetNode_AddToken ii docRef token w p :
  is_Some (GetNode (AddToken ii docRef token w) p)
  <-> is_Some (GetNode ii p) \/ (token <> [] /\ p `prefix_of` token).
Proof.
  unfold GetNode. rewrite Root_AddToken.
  destruct (decide (token = [])) as [->|Hne]; [tauto|].
  rewrite is_Some_getAt_addAt. tauto.
Qed.

Lemma is_Some_GetNode_built calls p :
  is_Some (GetNode (addTokenCalls calls NewInvertedIndex) p)
  <-> p = [] \/ exists c, c ∈ calls /\ p `prefix_of` c_token c.
Proof.
  induction calls as [|c calls IH] using rev_ind.
  - unfold GetNode. simpl. split.
    + destruct p; [by left|]. simpl. rewrite lookup_empty. by intros [? ?].
    + intros [->|(c & Hc & _)]; [by eexists|]. by apply elem_of_nil in Hc.
  - rewrite addTokenCalls_snoc, is_Some_GetNode_AddToken, IH. split.
    + intros [[->|(c' & Hc' & Hp)]|[Hne Hp]]; [by left| |].
      * right. exists c'. split; [|done]. apply elem_of_app. by left.
      * right. exists c. split; [|done]. apply elem_of_app. right. by apply list_elem_of_singleton.
    + intros [->|(c' & [Hc'|Hc']%elem_of_app & Hp)]; [by left; left| |].
      * left. right. by exists c'.
      * apply list_elem_of_singleton in Hc' as ->.
        destruct (decide (c_token c = [])) as [Hnil|Hne].
        -- left. left. rewrite Hnil in Hp. by apply prefix_nil_inv in Hp.
        -- right. by split.
Qed.

Lemma HasToken_true ii p : HasToken ii p = true <-> is_Some (GetNode ii p).
Proof. unfold HasToken. apply bool_decide_eq_true. Qed.

(** C10. For an index built from the empty one by any sequence of AddToken
    calls, HasToken(p) holds exactly when p is the empty string or a prefix
    (the whole token included) of a token passed to AddToken; HasToken("")
    holds on the fresh index; and a strict prefix of a token that was itself
    never passed as a token has document frequency 0 and an empty (non-nil)
    map of documents. *)
Theorem HasToken_iff_empty_or_prefix :
  (forall calls p,
      HasToken (addTokenCalls calls NewInvertedIndex) p = true
      <-> p = [] \/ exists c, c ∈ calls /\ p `prefix_of` c_token c)
  /\ HasToken NewInvertedIndex [] = true
  /\ (forall calls p c,
        c ∈ calls -> p `prefix_of` c_token c -> p <> c_token c ->
        (forall c', c' ∈ calls -> c_token c' <> p) ->
        GetDocFrequency (addTokenCalls calls NewInvertedIndex) p = 0
        /\ GetDocs (addTokenCalls calls NewInvertedIndex) p = Some ∅).
Proof.
  split; [|split].
  - intros calls p. rewrite HasToken_true. apply is_Some_GetNode_built.
  - reflexivity.
  - intros calls p c Hc Hp Hstrict Hnever.
    assert (postings calls p = ∅) as Hempty.
    { clear c Hc Hp Hstrict.
      induction calls as [|c calls IH] using rev_ind; [done|].
      rewrite postings_snoc. rewrite decide_False.
      - apply IH. intros c' Hc'. apply Hnever, elem_of_app. by left.
      - intros [Heq _]. apply (Hnever c); [|done].
        apply elem_of_app. right. by apply list_elem_of_singleton. }
    pose proof (built_nodeAt calls p) as [Hd Hf]. simpl in Hd, Hf.
    split.
    + by rewrite GetDocFrequency_nodeAt, Hf, Hempty.
    + rewrite GetDocs_nodeAt.
      * by rewrite Hd, Hempty, fmap_empty.
      * apply is_Some_GetNode_built. right. by exists c.
Qed.

End InvertedIndexProofs.

(* ===================================================================== *)
(** ** Document frequency *)
(* ===================================================================== *)

Section DocumentFrequencyProofs.

Lemma dfInv_post k docRef (w : float64) docs df :
  dfInv k docs df -> dfInv (S k) (postDocs docRef w docs) (postDF docRef docs df).
Proof.
  intros [-> Hk]. split; [apply postDF_wrap|].
  unfold postDocs. destruct (docs !! docRef) eqn:Hl.
  - rewrite map_size_insert_Some by done. lia.
  - rewrite map_size_insert_None by done. lia.
Qed.

Lemma dfInv_AddToken k ii docRef token w :
  AllNodes (fun node => dfInv k (Docs node) (DF node)) (Root ii) ->
  AllNodes (fun node => dfInv (S k) (Docs node) (DF node))
           (Root (AddToken ii docRef token w)).
Proof.
  intros Hall. rewrite Root_AddToken. destruct (decide (token = [])) as [Hnil|Hne].
  - eapply AllNodes_impl; [|exact Hall]. intros node [? ?]. split; [done|lia].
  - apply (AllNodes_addAt (dfInv k) (dfInv (S k))); try done.
    + intros docs df [? ?]. split; [done|lia].
    + split; [done|]. rewrite map_size_empty. lia.
    + intros docs df. apply dfInv_post.
    + split; [done|]. rewrite map_size_empty. lia.
Qed.

Lemma dfInv_built calls :
  AllNodes (fun node => dfInv (length calls) (Docs node) (DF node))
           (Root (addTokenCalls calls NewInvertedIndex)).
Proof.
  induction calls as [|c calls IH] using rev_ind.
  - apply AllNodes_newIndexItem. split; [done|]. simpl. by rewrite map_size_empty.
  - rewrite addTokenCalls_snoc, length_app, Nat.add_1_r. by apply dfInv_AddToken.
Qed.

Lemma GetDocFrequency_built calls token :
  Z.of_nat (length calls) < 2 ^ 63 ->
  GetDocFrequency (addTokenCalls calls NewInvertedIndex) token
  = Z.of_nat (size (postedRefs calls token)).
Proof.
  intros Hbound. rewrite GetDocFrequency_nodeAt.
  pose proof (built_nodeAt calls token) as [_ ->].
  pose proof (postings_size calls token).
  rewrite <- postings_dom, size_dom. apply wrap_in_range.
  unfold Int64.in_range, Int64.min_int, Int64.max_int. lia.
Qed.

(** C2, as amended. For an index built from the empty one by fewer than
    2^63 - 1 AddToken calls: at every node of the trie DF is the number of
    keys of Docs; the document frequency of a token is the number of distinct
    references posted for it, however often a (ref, token) pair was repeated;
    one more AddToken call adds one to the document frequency of its token
    when its reference is new for that token (and the token is not empty),
    and changes no other frequency, so none ever decreases; and on every
    index, a second AddToken with the same reference and the same non-empty
    token leaves DF unchanged while the stored weight becomes the new one. *)
Theorem DF_counts_distinct_references calls :
  Z.of_nat (length calls) < 2 ^ 63 - 1 ->
  let ii := addTokenCalls calls NewInvertedIndex in
  AllNodes (fun node => DF node = Z.of_nat (size (Docs node))) (Root ii)
  /\ (forall token,
        GetDocFrequency ii token = Z.of_nat (size (postedRefs calls token)))
  /\ (forall docRef token w p,
        GetDocFrequency (AddToken ii docRef token w) p
        = GetDocFrequency ii p
          + (if decide (token = p /\ p <> [] /\ docRef ∉ postedRefs calls p)
             then 1 else 0))
  /\ (forall (any : InvertedIndex) docRef token w1 w,
        token <> [] ->
        let once := AddToken any docRef token w1 in
        let twice := AddToken once docRef token w in
        GetDocFrequency twice token = GetDocFrequency once token
        /\ GetDocs twice token ≫= (fun docs => docs !! docRef) = Some w).
Proof.
  intros Hbound ii. split; [|split; [|split]].
  - eapply AllNodes_impl; [|apply dfInv_built]. simpl. intros node [-> Hk].
    apply wrap_in_range. unfold Int64.in_range, Int64.min_int, Int64.max_int. lia.
  - intros token. apply GetDocFrequency_built. lia.
  - intros docRef token w p. subst ii.
    rewrite !GetDocFrequency_nodeAt, DF_nodeAt_AddToken.
    pose proof (built_nodeAt calls p) as [Hd Hf]. simpl in Hd, Hf.
    rewrite Hd, Hf. pose proof (postings_size calls p) as Hsize.
    assert (Int64.wrap (Z.of_nat (size (postings calls p)))
            = Z.of_nat (size (postings calls p))) as Hw.
    { apply wrap_in_range.
      unfold Int64.in_range, Int64.min_int, Int64.max_int. lia. }
    rewrite Hw. unfold postDF.
    destruct (decide (token = p /\ p <> [])) as [[-> Hne]|Hno].
    + destruct (decide (is_Some (postings calls p !! docRef))) as [Hin|Hout].
      * rewrite decide_False; [lia|]. intros (_ & _ & Hnot). apply Hnot.
        rewrite <- postings_dom. by apply elem_of_dom.
      * rewrite decide_True.
        -- apply incr_small. lia.
        -- repeat split; try done. rewrite <- postings_dom. by rewrite elem_of_dom.
    + rewrite decide_False; [lia|]. tauto.
  - intros any docRef token w1 w Hne once twice. subst once twice. split.
    + rewrite !GetDocFrequency_nodeAt, DF_nodeAt_AddToken.
      rewrite decide_True by done. rewrite Docs_nodeAt_AddToken.
      rewrite decide_True by done. unfold postDF, postDocs.
      by rewrite decide_True by (by rewrite lookup_insert_eq).
    + rewrite GetDocs_nodeAt.
      * simpl. rewrite Docs_nodeAt_AddToken, decide_True by done.
        unfold postDocs. by rewrite lookup_fmap, lookup_insert_eq.
      * apply is_Some_GetNode_AddToken. right. by split.
Qed.

End DocumentFrequencyProofs.

(** Four calls, one of them repeating a (reference, token) pair: the
    document frequency of "cat" is the number of its distinct references. *)
Lemma DF_counts_distinct_references_witness :
  Z.of_nat (length sampleCalls) < 2 ^ 63 - 1
  /\ GetDocFrequency (addTokenCalls sampleCalls NewInvertedIndex) (str "cat")
     = Z.of_nat (size (postedRefs sampleCalls (str "cat"))).
Proof.
  split; [reflexivity|].
  apply (DF_counts_distinct_references sampleCalls). reflexivity.
Defined.

(** C2, the statement as written fails for the empty token: AddToken returns
    at once for it, so after two calls with the same reference nothing is
    stored under that reference. *)
Lemma AddToken_empty_token_stores_no_weight :
  GetDocs (AddToken (AddToken NewInvertedIndex (str "d1") [] one) (str "d1") [] two) []
    ≫= (fun docs => docs !! str "d1")
  = None.
Proof. reflexivity. Qed.

(* ===================================================================== *)
(** ** The document store *)
(* ===================================================================== *)

Section DocumentStoreProofs.

Import DocumentStore.

Lemma addDocCalls_snoc calls c ds :
  addDocCalls (calls ++ [c]) ds = AddDoc (addDocCalls calls ds) c.1 c.2.
Proof. unfold addDocCalls. by rewrite foldl_snoc. Qed.

Lemma Save_addDocCalls calls ds : Save (addDocCalls calls ds) = Save ds.
Proof.
  induction calls as [|c calls IH] using rev_ind; [done|].
  by rewrite addDocCalls_snoc.
Qed.

Lemma Docs_AddDoc_dom ds docRef doc :
  dom (Docs (AddDoc ds docRef doc)) = {[docRef]} ∪ dom (Docs ds).
Proof. unfold AddDoc. simpl. destruct (Save ds); apply dom_insert_L. Qed.

Lemma storedRefs_snoc calls c : storedRefs (calls ++ [c]) = {[c.1]} ∪ storedRefs calls.
Proof.
  unfold storedRefs. rewrite fmap_app, list_to_set_app_L. simpl.
  by rewrite (right_id_L ∅ (∪)), (comm_L (∪)).
Qed.

(** The store after a sequence of calls: its keys are the references of the
    calls and [Length] is their number (as an [int]). *)
Lemma addDocCalls_inv calls save :
  let ds := addDocCalls calls (NewDocumentStore save) in
  dom (Docs ds) = storedRefs calls
  /\ Length ds = Int64.wrap (Z.of_nat (size (storedRefs calls))).
Proof.
  induction calls as [|c calls IH] using rev_ind; [done|].
  simpl in *. destruct IH as [IHd IHl].
  rewrite addDocCalls_snoc, storedRefs_snoc, Docs_AddDoc_dom, IHd.
  split; [done|]. unfold AddDoc. simpl.
  destruct (decide (is_Some (Docs (addDocCalls calls (NewDocumentStore save)) !! c.1)))
    as [Hin|Hout].
  - rewrite IHl. do 2 f_equal. apply elem_of_dom in Hin. rewrite IHd in Hin.
    f_equal. apply leibniz_equiv. symmetry. by apply subseteq_union_1, singleton_subseteq_l.
  - rewrite IHl. unfold Int64.incr. rewrite wrap_wrap_succ. f_equal.
    rewrite <- elem_of_dom, IHd in Hout.
    rewrite size_union by (by apply disjoint_singleton_l).
    rewrite size_singleton. lia.
Qed.

Lemma storedRefs_size calls : (size (storedRefs calls) <= length calls)%nat.
Proof.
  induction calls as [|c calls IH] using rev_ind; [done|].
  rewrite storedRefs_snoc, length_app. simpl.
  rewrite size_union_alt, size_singleton.
  pose proof (subseteq_size (storedRefs calls ∖ {[c.1]}) (storedRefs calls)
                ltac:(apply subseteq_difference_l; done)).
  lia.
Qed.

(** C9. AddDoc stores the document as it is under its reference when the
    save flag is set, and an empty map otherwise, whatever was stored under
    that reference before, and touches no other entry; it increments Length
    exactly when the reference was not present. So after any sequence of
    AddDoc calls (fewer than 2^63, the range of an int) on a new store,
    Length is the number of distinct references stored, and adding a
    reference again overwrites its entry and leaves Length as it is. *)
Theorem DocumentStore_AddDoc_counts_distinct_references calls save :
  Z.of_nat (length calls) < 2 ^ 63 ->
  let ds := addDocCalls calls (NewDocumentStore save) in
  (forall docRef doc,
      GetDoc (AddDoc ds docRef doc) docRef = Some (if save then doc else ∅)
      /\ (forall other, other <> docRef ->
                        GetDoc (AddDoc ds docRef doc) other = GetDoc ds other)
      /\ Length (AddDoc ds docRef doc)
         = if HasDoc ds docRef then Length ds else Int64.incr (Length ds))
  /\ Length ds = Z.of_nat (size (storedRefs calls))
  /\ (forall docRef doc,
        docRef ∈ storedRefs calls ->
        HasDoc ds docRef = true
        /\ Length (AddDoc ds docRef doc) = Length ds
        /\ GetDoc (AddDoc ds docRef doc) docRef = Some (if save then doc else ∅)).
Proof.
  intros Hbound ds.
  pose proof (addDocCalls_inv calls save) as [Hdom Hlen]. fold ds in Hdom, Hlen.
  assert (Save ds = save) as Hsave by apply Save_addDocCalls.
  assert (forall docRef doc,
             GetDoc (AddDoc ds docRef doc) docRef = Some (if save then doc else ∅))
    as Hget.
  { intros docRef doc. unfold GetDoc, AddDoc. simpl. rewrite Hsave.
    destruct save; by rewrite lookup_insert_eq. }
  split; [|split].
  - intros docRef doc. split; [apply Hget|]. split.
    + intros other Hne. unfold GetDoc, AddDoc. simpl.
      destruct (Save ds); by rewrite lookup_insert_ne.
    + unfold AddDoc, HasDoc. simpl.
      destruct (decide (is_Some (Docs ds !! docRef))) as [Hin|Hout].
      * by rewrite bool_decide_eq_true_2.
      * by rewrite bool_decide_eq_false_2.
  - rewrite Hlen. apply wrap_in_range. pose proof (storedRefs_size calls).
    unfold Int64.in_range, Int64.min_int, Int64.max_int. lia.
  - intros docRef doc Hin. rewrite <- Hdom in Hin. apply elem_of_dom in Hin.
    split; [by apply bool_decide_eq_true_2|]. split; [|apply Hget].
    unfold AddDoc. simpl. by rewrite decide_True.
Qed.

End DocumentStoreProofs.

(** Three calls on two references: Length is 2 and the entry of the
    reference added twice is the last document. *)
Lemma DocumentStore_AddDoc_counts_distinct_references_witness :
  Z.of_nat (length sampleAddDocs) < 2 ^ 63
  /\ DocumentStore.Length
       (addDocCalls sampleAddDocs (DocumentStore.NewDocumentStore true)) = 2
  /\ DocumentStore.GetDoc
       (addDocCalls sampleAddDocs (DocumentStore.NewDocumentStore true)) (str "a")
     = Some (sampleDoc "third").
Proof.
  split; [reflexivity|]. split.
  - by destruct (DocumentStore_AddDoc_counts_distinct_references
                   sampleAddDocs true eq_refl) as (_ & -> & _).
  - vm_compute. reflexivity.
Defined.

(* ===================================================================== *)
(** ** float64 and int64 conversions *)
(* ===================================================================== *)

Section Float64Proofs.

Lemma digits2_pos_size p : digits2_pos p = Pos.size p.
Proof. induction p; simpl; congruence. Qed.

Lemma digits2_pos_bound p n :
  Z.pos p < 2 ^ Z.pos n -> (digits2_pos p <= n)%positive.
Proof.
  intros Hp. rewrite digits2_pos_size.
  destruct (Pos.leb_spec (Pos.size p) n) as [|Hlt]; [done|].
  pose proof (Pos.size_le p) as Hs.
  assert (2 ^ Z.pos (Pos.size p) <= 2 * Z.pos p) as Hz.
  { change 2 with (Z.pos 2). rewrite <- Pos2Z.inj_pow. change (Z.pos 2 * Z.pos p) with (Z.pos p~0). lia. }
  assert (2 ^ (Z.pos n + 1) <= 2 ^ Z.pos (Pos.size p)) as Hm.
  { apply Z.pow_le_mono_r; lia. }
  rewrite Z.pow_add_r in Hm by lia. lia.
Qed.

Lemma iter_xO_digits p k : digits2_pos (Pos.iter xO p k) = (digits2_pos p + k)%positive.
Proof.
  induction k as [|k IH] using Pos.peano_ind.
  - simpl. lia.
  - rewrite Pos.iter_succ. simpl. rewrite IH. lia.
Qed.

Lemma iter_xO_value p k : Z.pos (Pos.iter xO p k) = Z.pos p * 2 ^ Z.pos k.
Proof.
  induction k as [|k IH] using Pos.peano_ind.
  - simpl. lia.
  - rewrite Pos.iter_succ, Pos2Z.inj_xO, IH, Pos2Z.inj_succ, Z.pow_succ_r by lia. lia.
Qed.

Lemma binary_round_aux_canonical m e :
  Z.pos (digits2_pos m) = 53 -> -1074 <= e <= 971 ->
  binary_round_aux 53 1024 false (Z.pos m) e loc_Exact = S754_finite false m e.
Proof.
  intros Hd He. unfold binary_round_aux, shr_fexp, fexp, emin. simpl Zdigits2.
  rewrite Hd.
  replace (Z.max (53 + e - 53) (3 - 1024 - 53) - e) with 0 by lia.
  simpl. rewrite Hd.
  replace (Z.max (53 + e - 53) (3 - 1024 - 53) - e) with 0 by lia.
  simpl. rewrite (proj2 (Z.leb_le e (1024 - 53))) by lia. done.
Qed.

Lemma of_int_pos p :
  Z.pos p < 2 ^ 53 ->
  exists m e, Float64.of_int (Z.pos p) = S754_finite false m e
              /\ -52 <= e <= 0 /\ Z.pos m = Z.pos p * 2 ^ (- e).
Proof.
  intros Hp. pose proof (digits2_pos_bound p 53 Hp) as Hd.
  unfold Float64.of_int, Float64.prec, Float64.emax, binary_normalize, binary_round, shl_align, fexp, emin.
  replace (Z.max (Z.pos (digits2_pos p) + 0 - 53) (3 - 1024 - 53) - 0)
    with (Z.pos (digits2_pos p) - 53) by lia.
  replace (Z.max (Z.pos (digits2_pos p) + 0 - 53) (3 - 1024 - 53))
    with (Z.pos (digits2_pos p) - 53) by lia.
  destruct (Z.pos (digits2_pos p) - 53) as [|k|k] eqn:Hk; [|lia|].
  - exists p, 0. rewrite binary_round_aux_canonical by lia. split; [done|]. split; [lia|]. simpl. lia.
  - exists (Pos.iter xO p k), (Z.neg k).
    rewrite binary_round_aux_canonical.
    + split; [done|]. split; [lia|]. rewrite iter_xO_value. done.
    + rewrite iter_xO_digits. lia.
    + lia.
Qed.

Lemma to_int64_of_int z : 0 <= z < 2 ^ 53 -> Float64.to_int64 (Float64.of_int z) = z.
Proof.
  intros Hz. destruct z as [|p|p]; [done| |lia].
  destruct (of_int_pos p) as (m & e & -> & He & Hm); [lia|].
  unfold Float64.to_int64. rewrite Hm.
  assert (Z.pos p * 2 ^ (- e) / 2 ^ (- e) = Z.pos p) as Hdiv.
  { apply Z.div_mul. apply Z.pow_nonzero; lia. }
  destruct (0 <=? e) eqn:H0.
  - apply Z.leb_le in H0. assert (e = 0) as -> by lia. simpl Z.opp. rewrite Z.pow_0_r, !Z.mul_1_r.
    unfold Int64.min_int, Int64.max_int.
    rewrite (proj2 (Z.leb_le _ _)), (proj2 (Z.leb_le _ _)) by lia. done.
  - rewrite Hdiv. unfold Int64.min_int, Int64.max_int.
    rewrite (proj2 (Z.leb_le _ _)), (proj2 (Z.leb_le _ _)) by lia. done.
Qed.

End Float64Proofs.

(* ===================================================================== *)
(** ** The wire format of the trie *)
(* ===================================================================== *)


Section WireFormatProofs.

Lemma MarshalJSON_unfold docs df children :
  MarshalJSON (MkIndexItem docs df children)
  = let data0 : gmap gostring json :=
      if 0 <? Z.of_nat (size docs)
      then {[ key_docs := JObj (jsonOfTermFrequency <$> docs) ]} else ∅ in
    let data1 : gmap gostring json :=
      if 0 <? df then <[ key_df := JNum (Float64.of_int df) ]> data0 else data0 in
    match allSome ((fun child => MarshalJSON child ≫= decodeChild) <$> children) with
    | None => None
    | Some childMaps =>
        if decide (is_Some (childMaps !! key_docs)
                   \/ map_Forall (fun _ t => Float64.is_finite (TF t) = true) docs)
        then Some (JObj (childMaps ∪ data1))
        else None
    end.
Proof. reflexivity. Qed.

Lemma UnmarshalJSON_eq df0 data :
  UnmarshalJSON df0 data
  = if negb (jsonDecodes data) then None
    else match data with
         | JObj dataMap =>
             Some (MkIndexItem
                     (match dataMap !! key_docs with
                      | Some val => parseDocs val
                      | None => ∅
                      end)
                     (match dataMap !! key_df with
                      | Some (JNum x) => Float64.to_int64 x
                      | _ => df0
                      end)
                     (map_imap (fun key val =>
                                  if decide (key = key_docs \/ key = key_df) then None
                                  else UnmarshalJSON 0 val) dataMap))
         | JNull => Some (MkIndexItem ∅ df0 ∅)
         | _ => None
         end.
Proof. destruct data; reflexivity. Qed.

Lemma UnmarshalJSON_unfold df0 dataMap :
  jsonDecodes (JObj dataMap) = true ->
  UnmarshalJSON df0 (JObj dataMap)
  = Some (MkIndexItem
            (match dataMap !! key_docs with
             | Some val => parseDocs val
             | None => ∅
             end)
            (match dataMap !! key_df with
             | Some (JNum x) => Float64.to_int64 x
             | _ => df0
             end)
            (map_imap (fun key val =>
                         if decide (key = key_docs \/ key = key_df) then None
                         else UnmarshalJSON 0 val) dataMap)).
Proof. intros Hd. rewrite UnmarshalJSON_eq, Hd. reflexivity. Qed.

Lemma allSome_Some {A} (m : gmap gostring (option A)) :
  map_Forall (fun _ o => is_Some o) m -> allSome m = Some (omap id m).
Proof. intros Hm. unfold allSome. by rewrite decide_True. Qed.

Lemma allSome_is_Some {A} (m : gmap gostring (option A)) :
  is_Some (allSome m) <-> map_Forall (fun _ o => is_Some o) m.
Proof.
  unfold allSome. destruct (decide (map_Forall (fun _ o => is_Some o) m)).
  - split; [done|by eexists].
  - split; [by intros [? ?]|done].
Qed.

Lemma parseDocs_docs (docs : gmap gostring TermFrequency) :
  parseDocs (JObj (jsonOfTermFrequency <$> docs)) = docs.
Proof.
  apply map_eq. intros i. unfold parseDocs. rewrite lookup_omap, lookup_fmap.
  destruct (docs !! i) as [[tf]|]; [|done]. simpl.
  unfold jsonOfTermFrequency. simpl. by rewrite lookup_singleton_eq.
Qed.

Lemma key_docs_length : length key_docs = 4%nat. Proof. reflexivity. Qed.
Lemma key_df_length : length key_df = 2%nat. Proof. reflexivity. Qed.

(** *** Nesting depth and number literals *)

Lemma map_fold_max_le {A} (f : A -> Z) (m : gmap gostring A) :
  forall b, map_fold (fun _ v acc => Z.max (f v) acc) 0 m <= b
            <-> 0 <= b /\ map_Forall (fun _ v => f v <= b) m.
Proof.
  apply (map_fold_weak_ind
           (fun r (m : gmap gostring A) =>
              forall b, r <= b <-> 0 <= b /\ map_Forall (fun _ v => f v <= b) m)).
  - intros b. split; [intros Hb; split; [exact Hb|apply map_Forall_empty]|tauto].
  - intros i x m' r Hi IH b. rewrite map_Forall_insert by exact Hi.
    rewrite Z.max_lub_iff, IH. tauto.
Qed.

Lemma map_fold_andb_true {A} (f : A -> bool) (m : gmap gostring A) :
  map_fold (fun _ v acc => f v && acc) true m = true
  <-> map_Forall (fun _ v => f v = true) m.
Proof.
  apply (map_fold_weak_ind
           (fun r (m : gmap gostring A) =>
              r = true <-> map_Forall (fun _ v => f v = true) m)).
  - split; [intros _; apply map_Forall_empty|done].
  - intros i x m' r Hi IH. rewrite map_Forall_insert by exact Hi.
    rewrite andb_true_iff, IH. tauto.
Qed.

Lemma jsonDepth_obj_le o b :
  jsonDepth (JObj o) <= b
  <-> 1 <= b /\ map_Forall (fun _ v => jsonDepth v <= b - 1) o.
Proof.
  change (jsonDepth (JObj o))
    with (1 + map_fold (fun _ v acc => Z.max (jsonDepth v) acc) 0 o).
  pose proof (map_fold_max_le jsonDepth o (b - 1)) as Hle. split.
  - intros Hb.
    assert (map_fold (fun _ v acc => Z.max (jsonDepth v) acc) 0 o <= b - 1) as Hf by lia.
    apply Hle in Hf as [H0 Hall]. split; [lia|exact Hall].
  - intros [H1 Hall].
    assert (map_fold (fun _ v acc => Z.max (jsonDepth v) acc) 0 o <= b - 1) as Hf
      by (apply Hle; split; [lia|exact Hall]).
    lia.
Qed.

Lemma jsonDepth_below o k v :
  o !! k = Some v -> jsonDepth v <= jsonDepth (JObj o) - 1.
Proof.
  intros Hk.
  destruct (proj1 (jsonDepth_obj_le o (jsonDepth (JObj o))) (Z.le_refl _)) as [_ Hall].
  exact (Hall k v Hk).
Qed.

Lemma numbersInRange_obj o :
  numbersInRange (JObj o) = true
  <-> map_Forall (fun _ v => numbersInRange v = true) o.
Proof. exact (map_fold_andb_true numbersInRange o). Qed.

Lemma jsonDecodes_below o k v :
  jsonDecodes (JObj o) = true -> o !! k = Some v -> jsonDecodes v = true.
Proof.
  unfold jsonDecodes. rewrite !andb_true_iff, !Z.leb_le.
  intros [Hd Hn] Hk. split.
  - pose proof (jsonDepth_below o k v Hk). lia.
  - exact (proj1 (numbersInRange_obj o) Hn k v Hk).
Qed.

Lemma wireDepth_le docs df children b :
  wireDepth (MkIndexItem docs df children) <= b
  <-> 1 <= b
      /\ (0 < Z.of_nat (size docs) -> children !! key_docs = None -> 3 <= b)
      /\ map_Forall (fun _ child => wireDepth child <= b - 1) children.
Proof.
  change (wireDepth (MkIndexItem docs df children))
    with (1 + Z.max (if (0 <? Z.of_nat (size docs))
                        && negb (bool_decide (is_Some (children !! key_docs)))
                     then 2 else 0)
                    (map_fold (fun _ child acc => Z.max (wireDepth child) acc) 0 children)).
  pose proof (map_fold_max_le wireDepth children (b - 1)) as Hle.
  set (f := map_fold (fun _ child acc => Z.max (wireDepth child) acc) 0 children) in *.
  assert ((if (0 <? Z.of_nat (size docs))
              && negb (bool_decide (is_Some (children !! key_docs)))
           then 2 else 0) <= b - 1
          <-> 1 <= b
              /\ (0 < Z.of_nat (size docs) -> children !! key_docs = None -> 3 <= b))
    as Hown.
  { destruct (0 <? Z.of_nat (size docs)) eqn:Hs.
    - apply Z.ltb_lt in Hs. destruct (children !! key_docs) as [c|] eqn:Hc.
      + rewrite bool_decide_eq_true_2 by (by eexists). simpl.
        split; [intros; split; [lia|done]|lia].
      + rewrite bool_decide_eq_false_2 by (by intros [? ?]). simpl.
        split; [intros; split; lia|intros [_ H3]; specialize (H3 Hs eq_refl); lia].
    - apply Z.ltb_ge in Hs. simpl. split; [intros; split; lia|lia]. }
  rewrite <- Z.add_max_distr_l.
  rewrite Z.max_lub_iff.
  split.
  - intros [H1 H2].
    assert (f <= b - 1) as Hf by lia. apply Hle in Hf as [_ Hall].
    assert (1 <= b /\ (0 < Z.of_nat (size docs) -> children !! key_docs = None -> 3 <= b))
      as [? ?] by (apply Hown; lia).
    split; [done|]. split; done.
  - intros (H1 & H2 & Hall).
    assert (f <= b - 1) as Hf by (apply Hle; split; [lia|exact Hall]).
    assert ((if (0 <? Z.of_nat (size docs))
                && negb (bool_decide (is_Some (children !! key_docs)))
             then 2 else 0) <= b - 1) as Ho by (apply Hown; split; done).
    split; lia.
Qed.

Lemma wireDepth_pos ii : 1 <= wireDepth ii.
Proof.
  destruct ii as [docs df children].
  exact (proj1 (proj1 (wireDepth_le docs df children _) (Z.le_refl _))).
Qed.

Lemma wireDepth_child ii k child :
  Children ii !! k = Some child -> wireDepth child <= wireDepth ii - 1.
Proof.
  destruct ii as [docs df children]. simpl. intros Hk.
  destruct (proj1 (wireDepth_le docs df children _) (Z.le_refl _)) as (_ & _ & Hall).
  exact (Hall k child Hk).
Qed.

Lemma jsonDepth_posting_list (docs : gmap gostring TermFrequency) b :
  0 < Z.of_nat (size docs) ->
  jsonDepth (JObj (jsonOfTermFrequency <$> docs)) <= b <-> 2 <= b.
Proof.
  intros Hsize. rewrite jsonDepth_obj_le.
  assert (forall t, jsonDepth (jsonOfTermFrequency t) <= b - 1 <-> 2 <= b) as Hone.
  { intros t. unfold jsonOfTermFrequency. rewrite jsonDepth_obj_le. split; [lia|].
    intros Hb. split; [lia|]. intros k v. rewrite lookup_singleton_Some.
    intros [_ <-]. simpl. lia. }
  split.
  - intros [_ Hall].
    assert (docs <> ∅) as Hne.
    { intros ->. rewrite map_size_empty in Hsize. lia. }
    apply map_choose in Hne as (k & t & Hk).
    apply (Hone t). apply (Hall k). by rewrite lookup_fmap, Hk.
  - intros Hb. split; [lia|]. intros k v. rewrite lookup_fmap.
    destruct (docs !! k) as [t|]; [|done]. intros [= <-]. by apply Hone.
Qed.

Lemma decodeChild_Some j j' :
  decodeChild j = Some j' <-> j' = j /\ jsonDepth j <= maxNestingDepth.
Proof.
  unfold decodeChild. destruct (jsonDepth j <=? maxNestingDepth) eqn:Hd.
  - apply Z.leb_le in Hd. split; [by intros [= <-]|by intros [-> _]].
  - apply Z.leb_gt in Hd. split; [done|lia].
Qed.

(** The entries that [MarshalJSON] writes before the children. *)
Lemma lookup_own_entries (docs : gmap gostring TermFrequency) df k v :
  ((if 0 <? df
    then <[ key_df := JNum (Float64.of_int df) ]>
           (if 0 <? Z.of_nat (size docs)
            then {[ key_docs := JObj (jsonOfTermFrequency <$> docs) ]} else ∅)
    else (if 0 <? Z.of_nat (size docs)
          then {[ key_docs := JObj (jsonOfTermFrequency <$> docs) ]} else ∅))
     : gmap gostring json) !! k
  = Some v
  <-> (k = key_df /\ 0 < df /\ v = JNum (Float64.of_int df))
      \/ (k = key_docs /\ 0 < Z.of_nat (size docs)
          /\ v = JObj (jsonOfTermFrequency <$> docs)).
Proof.
  assert (key_df <> key_docs) as Hne by done.
  destruct (Z.ltb_spec 0 df) as [Hdf|Hdf],
           (Z.ltb_spec 0 (Z.of_nat (size docs))) as [Hs|Hs];
    rewrite ?lookup_insert_Some, ?lookup_singleton_Some, ?lookup_empty.
  - split.
    + intros [[<- <-]|[_ [<- <-]]]; [left|right];
        (split; [reflexivity|split; [assumption|reflexivity]]).
    + intros [(-> & _ & ->)|(-> & _ & ->)];
        [left; split; reflexivity|right; split; [exact Hne|split; reflexivity]].
  - split.
    + intros [[<- <-]|[_ Hf]];
        [left; split; [reflexivity|split; [assumption|reflexivity]]|discriminate Hf].
    + intros [(-> & _ & ->)|(_ & Hf & _)]; [left; split; reflexivity|lia].
  - split.
    + intros [<- <-]. right. split; [reflexivity|split; [assumption|reflexivity]].
    + intros [(_ & Hf & _)|(-> & _ & ->)]; [lia|split; reflexivity].
  - split; [intros Hf; discriminate Hf|].
    intros [(_ & Hf & _)|(_ & Hf & _)]; lia.
Qed.

(** [MarshalJSON] succeeds exactly on the tries all of whose nodes can be
    encoded, and the depth of what it writes is [wireDepth]. *)
Lemma MarshalJSON_spec : forall ii,
  (is_Some (MarshalJSON ii) <-> AllNodes Encodable ii)
  /\ (forall j, MarshalJSON ii = Some j ->
                (exists o, j = JObj o) /\ jsonDepth j = wireDepth ii).
Proof.
  induction ii as [docs df children IH] using IndexItem_induction.
  set (g := fun child => MarshalJSON child ≫= decodeChild).
  assert (forall k child j, children !! k = Some child ->
            g child = Some j
            <-> MarshalJSON child = Some j /\ wireDepth child <= maxNestingDepth) as Hg.
  { intros k child j Hk. destruct (IH k child Hk) as [_ Hd]. unfold g.
    destruct (MarshalJSON child) as [jc|] eqn:Hm; simpl.
    - destruct (Hd jc eq_refl) as [_ Hdepth]. rewrite decodeChild_Some, Hdepth.
      split; [by intros [-> ?]|]. intros [[= ->] ?]. done.
    - split; [done|by intros [? _]]. }
  assert (forall k child, children !! k = Some child ->
            is_Some (g child)
            <-> AllNodes Encodable child /\ wireDepth child <= maxNestingDepth) as HgS.
  { intros k child Hk. destruct (IH k child Hk) as [Hs _]. rewrite <- Hs. split.
    - intros [j Hj]. apply (Hg k child j Hk) in Hj as [Hm ?]. split; [by eexists|done].
    - intros [[j Hj] Hd]. exists j. apply (Hg k child j Hk). done. }
  assert (is_Some (allSome (g <$> children))
          <-> forall k child, children !! k = Some child -> is_Some (g child)) as Hall.
  { rewrite allSome_is_Some. split.
    - intros Hm k child Hk. apply (Hm k). by rewrite lookup_fmap, Hk.
    - intros Hc k o. rewrite lookup_fmap.
      destruct (children !! k) as [child|] eqn:Hk; [|done].
      intros [= <-]. by apply (Hc k). }
  assert (forall cm, allSome (g <$> children) = Some cm ->
            forall k, cm !! k = children !! k ≫= g) as Hcm.
  { intros cm Hc k. unfold allSome in Hc.
    destruct (decide (map_Forall (fun _ o => is_Some o) (g <$> children))); [|done].
    injection Hc as <-. rewrite lookup_omap, lookup_fmap.
    by destruct (children !! k). }
  rewrite MarshalJSON_unfold. cbv zeta. fold g.
  destruct (allSome (g <$> children)) as [cm|] eqn:Hc.
  - specialize (Hcm cm eq_refl).
    assert (forall k child, children !! k = Some child -> is_Some (g child)) as Hsome
      by (apply Hall; by eexists).
    assert (is_Some (cm !! key_docs) <-> is_Some (children !! key_docs)) as Hdocs.
    { rewrite Hcm. destruct (children !! key_docs) as [child|] eqn:Hk; simpl.
      - split; [by eexists|]. intros _. by apply (Hsome key_docs).
      - split; by intros [? ?]. }
    split.
    + split.
      * intros Hs.
        destruct (decide (is_Some (cm !! key_docs)
                          \/ map_Forall (fun _ t => Float64.is_finite (TF t) = true) docs))
          as [Hok|]; [|by destruct Hs].
        constructor.
        -- split; simpl; [rewrite <- Hdocs; exact Hok|].
           intros k child Hk. apply (HgS k child Hk). by apply (Hsome k).
        -- intros k child Hk. apply (HgS k child Hk). by apply (Hsome k).
      * intros Hnodes. apply AllNodes_here in Hnodes as [Hok _]. simpl in Hok.
        rewrite decide_True by (rewrite Hdocs; exact Hok). by eexists.
    + intros j Hj.
      destruct (decide (is_Some (cm !! key_docs)
                        \/ map_Forall (fun _ t => Float64.is_finite (TF t) = true) docs));
        [|done].
      injection Hj as <-. split; [by eexists|].
      assert (forall b,
                jsonDepth (JObj (cm ∪ (if 0 <? df
                   then <[ key_df := JNum (Float64.of_int df) ]>
                          (if 0 <? Z.of_nat (size docs)
                           then {[ key_docs := JObj (jsonOfTermFrequency <$> docs) ]}
                           else ∅)
                   else (if 0 <? Z.of_nat (size docs)
                         then {[ key_docs := JObj (jsonOfTermFrequency <$> docs) ]}
                         else ∅)))) <= b
                <-> wireDepth (MkIndexItem docs df children) <= b) as Hle.
      { intros b. rewrite jsonDepth_obj_le, wireDepth_le. split.
        - intros [H1 Hforall]. split; [exact H1|]. split.
          + intros Hsize Hnone.
            assert (jsonDepth (JObj (jsonOfTermFrequency <$> docs)) <= b - 1) as Hd.
            { apply (Hforall key_docs). apply lookup_union_Some_raw. right. split.
              - by rewrite Hcm, Hnone.
              - apply lookup_own_entries. right. done. }
            apply jsonDepth_posting_list in Hd; [lia|exact Hsize].
          + intros k child Hk. destruct (Hsome k child Hk) as [jc Hjc].
            pose proof (proj1 (Hg k child jc Hk) Hjc) as [Hm _].
            destruct (IH k child Hk) as [_ Hd]. destruct (Hd jc Hm) as [_ <-].
            apply (Hforall k). apply lookup_union_Some_raw. left.
            by rewrite Hcm, Hk.
        - intros (H1 & Hown & Hchildren). split; [exact H1|].
          intros k v. rewrite lookup_union_Some_raw.
          intros [Hl|[Hnone Hr]].
          + rewrite Hcm in Hl. destruct (children !! k) as [child|] eqn:Hk; [|done].
            simpl in Hl. apply (Hg k child v Hk) in Hl as [Hm _].
            destruct (IH k child Hk) as [_ Hd]. destruct (Hd v Hm) as [_ ->].
            by apply (Hchildren k).
          + apply lookup_own_entries in Hr as [(-> & _ & ->)|(-> & Hsize & ->)].
            * simpl. lia.
            * apply jsonDepth_posting_list; [exact Hsize|].
              assert (children !! key_docs = None) as Hn.
              { apply eq_None_not_Some. rewrite <- Hdocs, Hnone. by intros [? ?]. }
              specialize (Hown Hsize Hn). lia. }
      apply Z.le_antisymm; apply Hle; lia.
  - split.
    + split; [by intros [? ?]|].
      intros Hnodes.
      assert (is_Some (@None (gmap gostring json))) as [? ?]; [|done].
      apply Hall. intros k child Hk. apply (HgS k child Hk). split.
      * by apply (AllNodes_child _ _ k child Hnodes).
      * apply AllNodes_here in Hnodes as [_ Hd]. by apply (Hd k).
    + done.
Qed.

Lemma MarshalJSON_depth ii j :
  MarshalJSON ii = Some j -> jsonDepth j = wireDepth ii.
Proof. intros Hj. by destruct (proj2 (MarshalJSON_spec ii) j Hj). Qed.

Lemma MarshalJSON_shape docs df children :
  Serializable (MkIndexItem docs df children) ->
  (forall k child, children !! k = Some child ->
                   is_Some (MarshalJSON child) /\ wireDepth child <= maxNestingDepth) ->
  exists o, MarshalJSON (MkIndexItem docs df children) = Some (JObj o)
            /\ WireShape (MkIndexItem docs df children) o.
Proof.
  intros (Hfin & Hdf & Hlt & Hkeys) Hchild. simpl in Hfin, Hdf, Hlt, Hkeys.
  rewrite MarshalJSON_unfold. cbv zeta.
  assert (forall k child, children !! k = Some child ->
            MarshalJSON child ≫= decodeChild = MarshalJSON child) as Hdec.
  { intros k child Hk. destruct (Hchild k child Hk) as [[j Hj] Hd]. rewrite Hj. simpl.
    apply decodeChild_Some. split; [done|]. by rewrite (MarshalJSON_depth child j Hj). }
  rewrite allSome_Some; last first.
  { intros k o. rewrite lookup_fmap.
    destruct (children !! k) as [child|] eqn:Hk; [|done].
    simpl. intros [= <-]. rewrite (Hdec k child Hk). by apply (Hchild k). }
  rewrite decide_True by (by right).
  eexists. split; [reflexivity|].
  set (childMaps := omap id ((fun child => MarshalJSON child ≫= decodeChild) <$> children)).
  assert (forall k, childMaps !! k = children !! k ≫= MarshalJSON) as HcM.
  { intros k. unfold childMaps. rewrite lookup_omap, lookup_fmap.
    destruct (children !! k) as [child|] eqn:Hk; [|done]. simpl.
    rewrite (Hdec k child Hk). by destruct (MarshalJSON child). }
  assert (children !! key_docs = None) as Hnd.
  { apply eq_None_not_Some. intros Hs. apply Hkeys in Hs. done. }
  assert (children !! key_df = None) as Hnf.
  { apply eq_None_not_Some. intros Hs. apply Hkeys in Hs. done. }
  assert ((0 <? Z.of_nat (size docs)) = bool_decide (docs <> ∅)) as Hsz.
  { destruct (decide (docs = ∅)) as [->|Hne].
    - by rewrite bool_decide_eq_false_2 by (intros Hn; by apply Hn).
    - rewrite bool_decide_eq_true_2 by done. apply Z.ltb_lt.
      assert (size docs <> 0%nat) by (by rewrite map_size_empty_iff). lia. }
  assert ((0 <? df) = bool_decide (df <> 0)) as Hdz.
  { destruct (decide (df = 0)) as [->|Hne].
    - by rewrite bool_decide_eq_false_2 by (intros Hn; by apply Hn).
    - rewrite bool_decide_eq_true_2 by done. apply Z.ltb_lt. lia. }
  rewrite Hsz, Hdz. unfold WireShape. simpl. split; [|split].
  - rewrite lookup_union_r by (by rewrite HcM, Hnd).
    destruct (decide (docs = ∅)) as [Hd|Hd], (decide (df = 0)) as [Hf|Hf];
      rewrite ?(bool_decide_eq_true_2 (df <> 0)), ?(bool_decide_eq_true_2 (docs <> ∅)),
        ?(bool_decide_eq_false_2 (df <> 0)), ?(bool_decide_eq_false_2 (docs <> ∅))
        by tauto;
      by rewrite ?lookup_insert_ne, ?lookup_singleton_eq, ?lookup_empty by done.
  - rewrite lookup_union_r by (by rewrite HcM, Hnf).
    destruct (decide (df = 0)) as [Hf|Hf], (decide (docs = ∅)) as [Hd|Hd];
      rewrite ?(bool_decide_eq_true_2 (df <> 0)), ?(bool_decide_eq_true_2 (docs <> ∅)),
        ?(bool_decide_eq_false_2 (df <> 0)), ?(bool_decide_eq_false_2 (docs <> ∅))
        by tauto;
      by rewrite ?lookup_insert_eq, ?lookup_singleton_ne, ?lookup_empty by done.
  - intros k Hk1 Hk2. rewrite lookup_union_l; [apply HcM|].
    destruct (bool_decide (df <> 0)), (bool_decide (docs <> ∅));
      by rewrite ?lookup_insert_ne, ?lookup_singleton_ne, ?lookup_empty by done.
Qed.

Lemma UnmarshalJSON_shape node o :
  Serializable node -> WireShape node o ->
  jsonDecodes (JObj o) = true ->
  (forall k child j, Children node !! k = Some child ->
                     MarshalJSON child = Some j -> UnmarshalJSON 0 j = Some child) ->
  (forall k child, Children node !! k = Some child -> is_Some (MarshalJSON child)) ->
  UnmarshalJSON 0 (JObj o) = Some node.
Proof.
  destruct node as [docs df children].
  intros (Hfin & Hdf & Hlt & Hkeys) (Hod & Hof & Hoc) Hdec Hback Hchild.
  simpl in Hfin, Hdf, Hlt, Hkeys, Hod, Hof, Hoc, Hback, Hchild.
  rewrite (UnmarshalJSON_unfold _ _ Hdec). f_equal. f_equal.
  - rewrite Hod. destruct (decide (docs = ∅)) as [->|Hne]; [done|].
    apply parseDocs_docs.
  - rewrite Hof. destruct (decide (df = 0)) as [->|Hne]; [done|].
    apply to_int64_of_int. lia.
  - apply map_eq. intros k. rewrite map_lookup_imap.
    destruct (decide (k = key_docs \/ k = key_df)) as [Hk|Hk].
    + transitivity (@None IndexItem).
      * by match goal with |- ?x ≫= _ = _ => destruct x end.
      * symmetry. apply eq_None_not_Some. intros Hs%Hkeys.
        destruct Hk as [->| ->]; done.
    + rewrite Hoc by tauto. destruct (children !! k) as [child|] eqn:Hc; [|done].
      simpl. destruct (Hchild k child Hc) as [j Hj]. rewrite Hj. simpl.
      by apply (Hback k).
Qed.

(** The numbers of the object of a node are in range when those of the
    objects of its children are. *)
Lemma WireShape_numbersInRange node o :
  Serializable node -> WireShape node o ->
  (forall k child j, Children node !! k = Some child ->
                     MarshalJSON child = Some j -> numbersInRange j = true) ->
  numbersInRange (JObj o) = true.
Proof.
  destruct node as [docs df children].
  intros (Hfin & Hdf & Hlt & Hkeys) (Hod & Hof & Hoc) Hchild.
  simpl in Hfin, Hdf, Hlt, Hkeys, Hod, Hof, Hoc, Hchild.
  apply numbersInRange_obj. intros k v Hk.
  destruct (decide (k = key_docs)) as [->|Hk1].
  { rewrite Hod in Hk. destruct (decide (docs = ∅)); [done|]. injection Hk as <-.
    apply numbersInRange_obj. intros r v. rewrite lookup_fmap.
    destruct (docs !! r) as [t|] eqn:Hr; [|done]. intros [= <-].
    unfold jsonOfTermFrequency. apply numbersInRange_obj.
    intros k' v'. rewrite lookup_singleton_Some. intros [_ <-]. simpl.
    exact (Hfin r t Hr). }
  destruct (decide (k = key_df)) as [->|Hk2].
  { rewrite Hof in Hk. destruct (decide (df = 0)) as [|Hne]; [done|]. injection Hk as <-.
    simpl. destruct df as [|p|p]; [done| |lia].
    destruct (of_int_pos p Hlt) as (m & e & -> & _). reflexivity. }
  rewrite Hoc in Hk by done.
  destruct (children !! k) as [child|] eqn:Hc; [|done]. simpl in Hk.
  exact (Hchild k child v Hc Hk).
Qed.

(** Serializing a node that stays within the nesting limit and reading the
    result back gives the node. *)
Lemma roundtrip_node : forall ii,
  AllNodes Serializable ii ->
  wireDepth ii <= maxNestingDepth ->
  exists o, MarshalJSON ii = Some (JObj o) /\ WireShape ii o
            /\ jsonDecodes (JObj o) = true
            /\ UnmarshalJSON 0 (JObj o) = Some ii.
Proof.
  induction ii as [docs df children IH] using IndexItem_induction.
  intros Hall Hdepth. pose proof (AllNodes_here _ _ Hall) as Hser.
  assert (forall k child, children !! k = Some child ->
            wireDepth child <= maxNestingDepth) as Hdc.
  { intros k child Hk.
    pose proof (wireDepth_child (MkIndexItem docs df children) k child Hk). lia. }
  assert (forall k child, children !! k = Some child ->
            exists o, MarshalJSON child = Some (JObj o) /\ WireShape child o
                      /\ jsonDecodes (JObj o) = true
                      /\ UnmarshalJSON 0 (JObj o) = Some child) as Hchild.
  { intros k child Hk. apply (IH k child Hk).
    - by eapply (AllNodes_child _ _ k).
    - by apply (Hdc k). }
  destruct (MarshalJSON_shape docs df children Hser) as (o & Hm & Hshape).
  { intros k child Hk. destruct (Hchild k child Hk) as (oc & -> & _).
    split; [by eexists|by apply (Hdc k)]. }
  assert (jsonDecodes (JObj o) = true) as Hdec.
  { unfold jsonDecodes. apply andb_true_iff. split.
    - apply Z.leb_le. by rewrite (MarshalJSON_depth _ _ Hm).
    - apply (WireShape_numbersInRange _ _ Hser Hshape). simpl.
      intros k child j Hk Hj. destruct (Hchild k child Hk) as (oc & Hmc & _ & Hd & _).
      assert (j = JObj oc) as -> by congruence.
      unfold jsonDecodes in Hd. apply andb_true_iff in Hd. tauto. }
  exists o. split; [done|]. split; [done|]. split; [done|].
  apply UnmarshalJSON_shape; try done.
  - simpl. intros k child j Hk Hj.
    destruct (Hchild k child Hk) as (oc & Hmc & _ & _ & Hu). congruence.
  - simpl. intros k child Hk.
    destruct (Hchild k child Hk) as (oc & -> & _). by eexists.
Qed.

End WireFormatProofs.

Section RoundTripProofs.

Lemma SingleRuneKeys_addAt docRef w token : forall ii,
  AllNodes SingleRuneKeys ii -> AllNodes SingleRuneKeys (addAt docRef w token ii).
Proof.
  induction token as [|ch rest IH]; intros ii Hall.
  - rewrite addAt_nil. constructor.
    + apply AllNodes_here in Hall. exact Hall.
    + intros k child Hk. by eapply AllNodes_child.
  - rewrite addAt_cons. constructor.
    + intros key. unfold SingleRuneKeys. simpl.
      destruct (decide (key = edge ch)) as [->|Hne]; [done|].
      rewrite lookup_insert_ne by done. apply AllNodes_here in Hall. apply Hall.
    + intros k child. destruct (decide (k = edge ch)) as [->|Hne].
      * rewrite lookup_insert_eq. intros [= <-]. apply IH.
        destruct (Children ii !! edge ch) as [old|] eqn:Hc; simpl.
        -- by eapply AllNodes_child.
        -- apply AllNodes_newIndexItem. intros key. simpl.
           rewrite lookup_empty. by intros [? ?].
      * rewrite lookup_insert_ne by done. intros Hk. by eapply AllNodes_child.
Qed.

Lemma AllNodes_and (P Q : IndexItem -> Prop) ii :
  AllNodes P ii -> AllNodes Q ii -> AllNodes (fun node => P node /\ Q node) ii.
Proof.
  induction 1 as [d n c HP Hc IH]. intros HQ. constructor.
  - split; [done|]. by apply AllNodes_here in HQ.
  - intros k child Hk. apply (IH k child Hk). by eapply (AllNodes_child _ _ k).
Qed.

Lemma AllNodes_below P token : forall ii node,
  AllNodes P ii -> getAt token ii = Some node -> AllNodes P node.
Proof.
  induction token as [|ch rest IH]; intros ii node Hall; simpl.
  - by intros [= <-].
  - destruct (Children ii !! edge ch) as [child|] eqn:Hc; [|done].
    apply IH. by eapply AllNodes_child.
Qed.

Lemma built_keys_and_weights calls :
  finiteWeights calls ->
  AllNodes (fun node =>
              SingleRuneKeys node
              /\ map_Forall (fun _ t => Float64.is_finite (TF t) = true) (Docs node))
           (Root (addTokenCalls calls NewInvertedIndex)).
Proof.
  induction calls as [|c calls IH] using rev_ind; intros Hfin.
  - apply AllNodes_newIndexItem. split.
    + intros key. simpl. rewrite lookup_empty. by intros [? ?].
    + simpl. apply map_Forall_empty.
  - apply Forall_app in Hfin as [Hfin Hc]. apply Forall_inv in Hc.
    specialize (IH Hfin). rewrite addTokenCalls_snoc, Root_AddToken.
    destruct (decide (c_token c = [])); [done|].
    apply AllNodes_and.
    + apply SingleRuneKeys_addAt. eapply AllNodes_impl; [|exact IH]. by intros ? [? ?].
    + apply (AllNodes_addAt
               (fun d _ => map_Forall (fun _ t => Float64.is_finite (TF t) = true) d)
               (fun d _ => map_Forall (fun _ t => Float64.is_finite (TF t) = true) d));
        try done.
      * intros d _ Hd. unfold postDocs. apply map_Forall_insert_2; [exact Hc|done].
      * eapply AllNodes_impl; [|exact IH]. by intros ? [? ?].
Qed.

Lemma built_Serializable calls :
  finiteWeights calls -> Z.of_nat (length calls) < 2 ^ 53 ->
  AllNodes Serializable (Root (addTokenCalls calls NewInvertedIndex)).
Proof.
  intros Hfin Hbound.
  pose proof (AllNodes_and _ _ _ (built_keys_and_weights calls Hfin) (dfInv_built calls))
    as Hall.
  eapply AllNodes_impl; [|exact Hall]. simpl.
  intros node ((Hkeys & Hw) & (Hdf & Hsize)).
  assert (Int64.wrap (Z.of_nat (size (Docs node))) = Z.of_nat (size (Docs node))) as Hwrap.
  { apply wrap_in_range. unfold Int64.in_range, Int64.min_int, Int64.max_int. lia. }
  rewrite Hwrap in Hdf. split; [done|]. split; [done|]. split; [lia|done].
Qed.

(** A token of [n] code points adds a path of [n] nodes below the node,
    with a posting list at its end. *)
Lemma wireDepth_addAt docRef w token : forall ii b,
  wireDepth ii <= b -> Z.of_nat (length token) + 3 <= b ->
  wireDepth (addAt docRef w token ii) <= b.
Proof.
  induction token as [|ch rest IH]; intros [docs df children] b Hii Hb.
  - rewrite addAt_nil. simpl Docs. simpl DF. simpl Children.
    apply wireDepth_le in Hii as (H1 & _ & Hc). apply wireDepth_le.
    simpl in Hb. split; [lia|]. split; [lia|exact Hc].
  - rewrite addAt_cons. simpl Docs. simpl DF. simpl Children.
    apply wireDepth_le in Hii as (H1 & Hown & Hc). apply wireDepth_le.
    simpl length in Hb. split; [lia|]. split.
    + intros Hs _. lia.
    + intros k child. destruct (decide (k = edge ch)) as [->|Hne].
      * rewrite lookup_insert_eq. intros [= <-]. apply IH; [|lia].
        destruct (children !! edge ch) as [old|] eqn:Hold; cbn [default].
        -- by apply (Hc (edge ch)).
        -- change (wireDepth newIndexItem) with 1. lia.
      * rewrite lookup_insert_ne by done. apply Hc.
Qed.

(** A token of [n] code points posted on an empty trie is written [n + 3]
    levels deep. *)
Lemma wireDepth_addAt_new docRef w token :
  wireDepth (addAt docRef w token newIndexItem) = Z.of_nat (length token) + 3.
Proof.
  assert (forall b, wireDepth (addAt docRef w token newIndexItem) <= b
                    <-> Z.of_nat (length token) + 3 <= b) as Hle.
  { induction token as [|ch rest IH]; intros b.
    - rewrite addAt_nil. simpl Docs. simpl DF. simpl Children. rewrite wireDepth_le.
      unfold postDocs. rewrite map_size_insert_None by apply lookup_empty.
      rewrite map_size_empty. simpl length. split.
      + intros (_ & H3 & _). specialize (H3 ltac:(lia) (lookup_empty _)). lia.
      + intros Hb. split; [lia|]. split; [lia|apply map_Forall_empty].
    - rewrite addAt_cons. simpl Docs. simpl DF. simpl Children. rewrite wireDepth_le.
      rewrite lookup_empty. cbn [default].
      rewrite map_Forall_insert by apply lookup_empty.
      rewrite IH, map_size_empty. simpl length. split.
      + intros (_ & _ & Hc & _). lia.
      + intros Hb. split; [lia|]. split; [lia|]. split; [lia|apply map_Forall_empty]. }
  apply Z.le_antisymm.
  - apply Hle. lia.
  - apply Hle. lia.
Qed.

Lemma built_wireDepth calls :
  withinLimits calls ->
  wireDepth (Root (addTokenCalls calls NewInvertedIndex)) <= maxNestingDepth.
Proof.
  induction calls as [|c calls IH] using rev_ind; intros Hlim.
  - done.
  - apply Forall_app in Hlim as [Hlim Hc]. apply Forall_inv in Hc as (_ & _ & Hc).
    rewrite addTokenCalls_snoc, Root_AddToken.
    destruct (decide (c_token c = [])); [by apply IH|].
    apply wireDepth_addAt; [by apply IH|exact Hc].
Qed.

Lemma wireDepth_getAt token : forall ii node,
  getAt token ii = Some node -> wireDepth node <= wireDepth ii.
Proof.
  induction token as [|ch rest IH]; intros ii node; simpl.
  - intros [= <-]. lia.
  - destruct (Children ii !! edge ch) as [child|] eqn:Hc; [|done].
    intros Hn. apply IH in Hn. pose proof (wireDepth_child ii _ child Hc). lia.
Qed.

(** C1, as amended. For the trie built from the empty index by AddToken
    calls whose weights are finite, whose references and tokens are
    well-formed UTF-8 and whose tokens have at most 9997 code points (the
    decoder of encoding/json stops at a nesting depth of 10000, and a token
    of n code points is written n + 3 levels deep), with fewer than 2^53
    calls (so that every DF is exactly a float64): MarshalJSON succeeds; at
    every reachable node the serialized object holds "docs" when Docs is not
    empty and "df" when DF is not zero, beside one entry per child under its
    one-character edge label, and no "children" key; and UnmarshalJSON of the
    serialized trie is the trie itself. *)
Theorem trie_wire_format_round_trip calls :
  finiteWeights calls ->
  withinLimits calls ->
  Z.of_nat (length calls) < 2 ^ 53 ->
  let root := Root (addTokenCalls calls NewInvertedIndex) in
  (exists j, MarshalJSON root = Some j /\ UnmarshalJSON 0 j = Some root)
  /\ (forall token node,
        getAt token root = Some node ->
        exists o, MarshalJSON node = Some (JObj o)
                  /\ WireShape node o
                  /\ o !! str "children" = None
                  /\ UnmarshalJSON 0 (JObj o) = Some node).
Proof.
  intros Hfin Hlim Hbound root.
  pose proof (built_Serializable calls Hfin Hbound) as Hall. fold root in Hall.
  pose proof (built_wireDepth calls Hlim) as Hdepth. fold root in Hdepth.
  split.
  - destruct (roundtrip_node root Hall Hdepth) as (o & Hm & _ & _ & Hu).
    by exists (JObj o).
  - intros token node Hnode.
    pose proof (AllNodes_below _ _ _ _ Hall Hnode) as Hsub.
    pose proof (wireDepth_getAt _ _ _ Hnode) as Hle.
    destruct (roundtrip_node node Hsub ltac:(lia)) as (o & Hm & Hshape & _ & Hu).
    exists o. repeat split; try done; try apply Hshape.
    destruct Hshape as (_ & _ & Hc). rewrite Hc by done.
    apply AllNodes_here in Hsub as (_ & _ & _ & Hkeys).
    destruct (Children node !! str "children") eqn:Hl; [|done].
    assert (length (str "children") = 1%nat) by (apply Hkeys; by eexists). done.
Qed.

End RoundTripProofs.

(** The trie of the four sample calls survives the round trip. *)
Lemma trie_wire_format_round_trip_witness :
  finiteWeights sampleCalls
  /\ withinLimits sampleCalls
  /\ Z.of_nat (length sampleCalls) < 2 ^ 53
  /\ exists j, MarshalJSON (Root (addTokenCalls sampleCalls NewInvertedIndex)) = Some j
               /\ UnmarshalJSON 0 j
                  = Some (Root (addTokenCalls sampleCalls NewInvertedIndex)).
Proof.
  assert (finiteWeights sampleCalls) as Hfin by (repeat constructor).
  assert (withinLimits sampleCalls) as Hlim
    by (repeat constructor; vm_compute; discriminate).
  split; [exact Hfin|]. split; [exact Hlim|]. split; [reflexivity|].
  exact (proj1 (trie_wire_format_round_trip sampleCalls Hfin Hlim eq_refl)).
Defined.

(** C1, the statement as written fails in two ways. A weight that JSON
    cannot hold: after AddToken with a NaN weight, MarshalJSON returns an
    error. A token that is too long: after one AddToken with the weight 1 and
    a token of 9998 letters, the serialized trie is 10001 levels deep and
    UnmarshalJSON refuses it. *)
Lemma round_trip_fails_on_NaN_and_on_deep_tries :
  MarshalJSON (Root (AddToken NewInvertedIndex (str "d1") (str "a") Float64.NaN))
  = None
  /\ Float64.is_finite one = true
  /\ Z.of_nat (length deepToken) = 9998
  /\ MarshalJSON (Root (AddToken NewInvertedIndex (str "d1") deepToken one))
       ≫= UnmarshalJSON 0
     = None.
Proof.
  assert (Z.of_nat (length deepToken) = 9998) as Hlen.
  { unfold deepToken. rewrite length_replicate. apply Z2Nat.id. lia. }
  split; [vm_compute; reflexivity|]. split; [reflexivity|]. split; [exact Hlen|].
  rewrite Root_AddToken.
  destruct (decide (deepToken = [])) as [Hnil|_].
  { rewrite Hnil in Hlen. discriminate Hlen. }
  destruct (MarshalJSON (addAt (str "d1") one deepToken (Root NewInvertedIndex)))
    as [j|] eqn:Hj; [|reflexivity].
  apply MarshalJSON_depth in Hj.
  change (Root NewInvertedIndex) with newIndexItem in Hj.
  rewrite wireDepth_addAt_new, Hlen in Hj.
  cbn [mbind option_bind]. rewrite UnmarshalJSON_eq.
  unfold jsonDecodes. rewrite Hj. reflexivity.
Qed.

(* ===================================================================== *)
(** ** The pipeline of AddDoc *)
(* ===================================================================== *)

Section PipelineProofs.
Context `{CaseTable}.

Import Index.

Lemma processTokens_snoc tokens token :
  processTokens (tokens ++ [token])
  = if isStopWord token then processTokens tokens
    else if bool_decide (stem token <> []) then processTokens tokens ++ [stem token]
         else processTokens tokens.
Proof. unfold processTokens. by rewrite foldl_snoc. Qed.

Lemma processTokens_eq_spec tokens : processTokens tokens = processTokens_spec tokens.
Proof.
  unfold processTokens_spec.
  induction tokens as [|token tokens IH] using rev_ind; [done|].
  rewrite processTokens_snoc, IH, filter_app, fmap_app, filter_app.
  destruct (isStopWord token) eqn:Hstop.
  - rewrite filter_cons_False, filter_nil by (by rewrite Hstop).
    by rewrite app_nil_r.
  - rewrite filter_cons_True, filter_nil by done. simpl.
    destruct (decide (stem token <> [])) as [Hne|Hempty].
    + rewrite bool_decide_eq_true_2 by done.
      by rewrite filter_cons_True, filter_nil by done.
    + rewrite bool_decide_eq_false_2 by done.
      by rewrite filter_cons_False, filter_nil, app_nil_r by done.
Qed.

Lemma cutSuffix_nonempty word suffix minLen :
  0 <= minLen -> HasSuffix word suffix && (len suffix + minLen <? len word) = true ->
  cutSuffix word suffix <> [].
Proof.
  intros Hmin [Hs Hl]%andb_true_iff Hnil. apply HasSuffix_true in Hs.
  rewrite Hnil in Hs. simpl in Hs. subst word. apply Z.ltb_lt in Hl. lia.
Qed.

Lemma stripFirst_nonempty rules word :
  Forall (fun rule => 0 <= rule.2) rules -> word <> [] -> stripFirst rules word <> [].
Proof.
  intros Hrules Hne. induction Hrules as [|[suffix minLen] rules Hmin _ IH]; [done|].
  simpl. destruct (HasSuffix word suffix && (len suffix + minLen <? len word)) eqn:Hg.
  - by eapply cutSuffix_nonempty.
  - done.
Qed.

(** The stem of a token is empty only for the empty token. *)
Lemma stem_nonempty word : word <> [] -> stem word <> [].
Proof.
  intros Hne. unfold stem. destruct (len word <=? 2); [done|].
  assert (ToLower word <> []) as Hl by (by rewrite ToLower_nil_iff).
  unfold stemStep4, stemStep3. apply stripFirst_nonempty; [by repeat constructor|].
  apply stripFirst_nonempty; [by repeat constructor|].
  rewrite stemStep2_group. apply stripFirst_nonempty; [by repeat constructor|].
  apply stripFirst_nonempty; [by repeat constructor|done].
Qed.

Lemma length_cutSuffix word suffix : (length (cutSuffix word suffix) <= length word)%nat.
Proof. unfold cutSuffix. rewrite length_take. lia. Qed.

Lemma length_stripFirst rules word : (length (stripFirst rules word) <= length word)%nat.
Proof.
  induction rules as [|[suffix minLen] rules IH]; simpl; [lia|].
  destruct (HasSuffix word suffix && (len suffix + minLen <? len word)); [|done].
  apply length_cutSuffix.
Qed.

(** Stemming never adds a code point. *)
Lemma length_stem word : (length (stem word) <= length word)%nat.
Proof.
  unfold stem. destruct (len word <=? 2); [lia|].
  unfold stemStep4, stemStep3. rewrite stemStep2_group.
  etrans; [apply length_stripFirst|]. etrans; [apply length_stripFirst|].
  etrans; [apply length_stripFirst|]. etrans; [apply length_stripFirst|].
  unfold ToLower. by rewrite length_fmap.
Qed.

Lemma isStopWord_nil : isStopWord [] = true.
Proof. reflexivity. Qed.

Lemma elem_of_processTokens s tokens :
  s ∈ processTokens tokens
  <-> exists token, token ∈ tokens /\ isStopWord token = false /\ s = stem token.
Proof.
  rewrite processTokens_eq_spec. unfold processTokens_spec.
  rewrite list_elem_of_filter, list_elem_of_fmap. split.
  - intros (_ & token & -> & [Hs Hin]%list_elem_of_filter).
    exists token. split; [exact Hin|]. split; [exact Hs|reflexivity].
  - intros (token & Hin & Hs & ->). split.
    + apply stem_nonempty. intros ->. rewrite isStopWord_nil in Hs. discriminate Hs.
    + exists token. split; [reflexivity|]. apply list_elem_of_filter.
      split; [exact Hs|exact Hin].
Qed.

Lemma processTokens_nonempty s tokens : s ∈ processTokens tokens -> s <> [].
Proof.
  rewrite processTokens_eq_spec. unfold processTokens_spec.
  by intros [? _]%list_elem_of_filter.
Qed.

(* --------------------------------------------------------------------- *)
(** *** The set of unique tokens and the frequency map *)

Lemma uniqueTokens_dom processed :
  dom (uniqueTokens processed) = list_to_set processed.
Proof.
  unfold uniqueTokens. induction processed as [|t l IH] using rev_ind; [done|].
  rewrite foldl_snoc, dom_insert_L, IH, list_to_set_app_L. simpl.
  by rewrite (right_id_L ∅ (∪)), (comm_L (∪)).
Qed.

Lemma uniqueTokens_size processed :
  size (uniqueTokens processed) = size (list_to_set processed : gset gostring).
Proof. by rewrite <- uniqueTokens_dom, size_dom. Qed.

Lemma countTokens_snoc freq processed token :
  countTokens freq (processed ++ [token])
  = <[token := Int64.incr (default 0 (countTokens freq processed !! token))]>
      (countTokens freq processed).
Proof. unfold countTokens. by rewrite foldl_snoc. Qed.

Lemma countTokens_dom freq processed :
  dom (countTokens freq processed) = dom freq ∪ list_to_set processed.
Proof.
  induction processed as [|t l IH] using rev_ind.
  - simpl. by rewrite (right_id_L ∅ (∪)).
  - rewrite countTokens_snoc, dom_insert_L, IH, list_to_set_app_L. simpl.
    rewrite (right_id_L ∅ (∪) {[t]}).
    by rewrite (comm_L (∪) {[t]}), (assoc_L (∪)).
Qed.

Lemma occurrences_snoc token l t :
  occurrences token (l ++ [t])
  = occurrences token l + (if decide (t = token) then 1 else 0).
Proof.
  unfold occurrences. rewrite filter_app, length_app, filter_cons, filter_nil.
  destruct (decide (t = token)); simpl; lia.
Qed.

Lemma occurrences_bounds token l : 0 <= occurrences token l <= Z.of_nat (length l).
Proof.
  unfold occurrences. pose proof (length_filter (fun t => t = token) l). lia.
Qed.

Lemma occurrences_not_in token l : token ∉ l -> occurrences token l = 0.
Proof.
  intros Hn. unfold occurrences.
  destruct (filter (fun t => t = token) l) as [|x xs] eqn:Hf; [done|].
  assert (x ∈ filter (fun t => t = token) l) as Hx by (rewrite Hf; left).
  apply list_elem_of_filter in Hx as [-> Hx]. done.
Qed.

Lemma occurrences_in token l : token ∈ l -> 0 < occurrences token l.
Proof.
  intros Hin. unfold occurrences.
  assert (token ∈ filter (fun t => t = token) l) as Hx by (by apply list_elem_of_filter).
  destruct (filter (fun t => t = token) l); [by apply elem_of_nil in Hx|].
  simpl. lia.
Qed.

(** The frequency map of a field counted from the empty map: the number of
    occurrences of each processed token. *)
Lemma countTokens_lookup processed token :
  Z.of_nat (length processed) < 2 ^ 63 ->
  countTokens ∅ processed !! token
  = if decide (token ∈ processed) then Some (occurrences token processed) else None.
Proof.
  induction processed as [|t l IH] using rev_ind; intros Hbound.
  - rewrite decide_False by apply not_elem_of_nil. done.
  - rewrite length_app in Hbound. simpl in Hbound.
    rewrite countTokens_snoc, occurrences_snoc.
    destruct (decide (t = token)) as [->|Hne].
    + rewrite lookup_insert_eq, IH by lia.
      rewrite (decide_True (P := token ∈ l ++ [token]))
        by (apply elem_of_app; right; by apply list_elem_of_singleton).
      f_equal. pose proof (occurrences_bounds token l).
      destruct (decide (token ∈ l)) as [Hin|Hout]; simpl.
      * apply incr_small. lia.
      * rewrite occurrences_not_in by done. reflexivity.
    + rewrite lookup_insert_ne, IH by first [done|lia].
      destruct (decide (token ∈ l)) as [Hin|Hout].
      * rewrite decide_True by (apply elem_of_app; by left). f_equal. lia.
      * rewrite decide_False; [done|].
        intros [?|Hx%list_elem_of_singleton]%elem_of_app; congruence.
Qed.

End PipelineProofs.

(* ===================================================================== *)
(** ** The loop over the frequency map *)
(* ===================================================================== *)

Section AddTokensProofs.

Import Index.

(** Two descents for different tokens commute. *)
Lemma addAt_comm docRef w1 w2 t1 : forall t2 ii,
  t1 <> t2 ->
  addAt docRef w1 t1 (addAt docRef w2 t2 ii)
  = addAt docRef w2 t2 (addAt docRef w1 t1 ii).
Proof.
  induction t1 as [|c1 q1 IH]; intros t2 ii Hne.
  - destruct t2 as [|c2 q2]; [done|]. by rewrite !addAt_nil, !addAt_cons.
  - destruct t2 as [|c2 q2]; [by rewrite !addAt_nil, !addAt_cons|].
    rewrite !addAt_cons. cbn [Docs DF Children]. f_equal.
    destruct (decide (c1 = c2)) as [->|Hc].
    + rewrite !lookup_insert_eq, !insert_insert_eq. simpl. f_equal.
      apply IH. congruence.
    + rewrite !lookup_insert_ne by (unfold edge; congruence).
      apply insert_insert_ne. unfold edge. congruence.
Qed.

Lemma AddToken_comm ii docRef t1 t2 w1 w2 :
  t1 <> t2 ->
  AddToken (AddToken ii docRef t1 w1) docRef t2 w2
  = AddToken (AddToken ii docRef t2 w2) docRef t1 w1.
Proof.
  intros Hne. destruct ii as [root]. unfold AddToken. simpl.
  destruct (len t1 =? 0), (len t2 =? 0); simpl; try done.
  f_equal. by apply addAt_comm.
Qed.

(** The iteration order of the frequency map does not matter: making the
    calls of the loop in any order gives the same index. *)
Lemma addTokens_any_order `{CaseTable} docRef freq ii (l : list (gostring * Z)) :
  l ≡ₚ map_to_list freq ->
  foldr (uncurry (fun token count acc =>
                    AddToken acc docRef token (Float64.Sqrt (Float64.of_int count))))
        ii l
  = addTokens docRef freq ii.
Proof.
  intros Hl. unfold addTokens. rewrite map_fold_foldr. symmetry.
  apply (foldr_permutation eq _ ii (map_to_list freq) l); [|done].
  intros j1 [t1 c1] j2 [t2 c2] acc Hj H1 H2. simpl.
  apply AddToken_comm. intros Heq. subst t2.
  pose proof (NoDup_fst_map_to_list freq) as Hnd.
  apply Hj. eapply (NoDup_lookup _ j1 j2 t1 Hnd).
  - by rewrite list_lookup_fmap, H1.
  - by rewrite list_lookup_fmap, H2.
Qed.

Lemma Docs_nodeAt_addTokens `{CaseTable} docRef freq ii p :
  Docs (nodeAt p (Root (addTokens docRef freq ii)))
  = match freq !! p with
    | Some c => if decide (p = []) then Docs (nodeAt p (Root ii))
                else postDocs docRef (Float64.Sqrt (Float64.of_int c))
                              (Docs (nodeAt p (Root ii)))
    | None => Docs (nodeAt p (Root ii))
    end.
Proof.
  unfold addTokens.
  apply (map_fold_weak_ind
           (fun acc (m : gmap gostring Z) =>
              Docs (nodeAt p (Root acc))
              = match m !! p with
                | Some c => if decide (p = []) then Docs (nodeAt p (Root ii))
                            else postDocs docRef (Float64.Sqrt (Float64.of_int c))
                                          (Docs (nodeAt p (Root ii)))
                | None => Docs (nodeAt p (Root ii))
                end)); [done|].
  intros t c m acc Hm IH. rewrite Docs_nodeAt_AddToken.
  destruct (decide (t = p)) as [->|Hne].
  - rewrite lookup_insert_eq. rewrite Hm in IH.
    destruct (decide (p = [])) as [->|Hp].
    + by rewrite decide_False by (intros [_ ?]; done).
    + by rewrite decide_True, IH by done.
  - rewrite lookup_insert_ne by done. by rewrite decide_False by (intros [? _]; done).
Qed.

Lemma is_Some_GetNode_addTokens `{CaseTable} docRef freq ii p :
  is_Some (GetNode (addTokens docRef freq ii) p)
  <-> is_Some (GetNode ii p)
      \/ exists t, is_Some (freq !! t) /\ t <> [] /\ p `prefix_of` t.
Proof.
  unfold addTokens.
  apply (map_fold_weak_ind
           (fun acc (m : gmap gostring Z) =>
              is_Some (GetNode acc p)
              <-> is_Some (GetNode ii p)
                  \/ exists t, is_Some (m !! t) /\ t <> [] /\ p `prefix_of` t)).
  - split; [by left|]. intros [?|(t & Hs & _)]; [done|].
    rewrite lookup_empty in Hs. by destruct Hs.
  - intros t c m acc Hm IH. rewrite is_Some_GetNode_AddToken, IH. split.
    + intros [[?|(t' & Hs & Hne & Hp)]|[Hne Hp]]; [by left| |].
      * right. exists t'. split; [|done].
        destruct (decide (t = t')) as [->|]; [by rewrite lookup_insert_eq|].
        by rewrite lookup_insert_ne.
      * right. exists t. by rewrite lookup_insert_eq.
    + intros [?|(t' & Hs & Hne & Hp)]; [by left; left|].
      destruct (decide (t = t')) as [->|Hn]; [by right|].
      rewrite lookup_insert_ne in Hs by done. left. right. by exists t'.
Qed.

End AddTokensProofs.

(* ===================================================================== *)
(** ** The loop over the fields *)
(* ===================================================================== *)

Section FieldLoopProofs.
Context `{CaseTable}.

Import Index.

Lemma addTokens_empty docRef ii : addTokens docRef ∅ ii = ii.
Proof. unfold addTokens. by rewrite map_fold_empty. Qed.

(** What one iteration does for a field that is indexed. *)
Lemma processField_this ref docRef doc st field fieldVal ii :
  field <> ref -> doc !! field = Some fieldVal -> ls_indexes st !! field = Some ii ->
  let freq := countTokens (default ∅ (ls_tokenFreq st !! field)) (processedOf fieldVal) in
  exists st',
    processField ref docRef doc st field = Some st'
    /\ ls_indexes st' = <[field := addTokens docRef freq ii]> (ls_indexes st)
    /\ ls_tokenFreq st' = <[field := freq]> (ls_tokenFreq st)
    /\ ls_store st'
       = DocumentStore.AddFieldLength (ls_store st) docRef field
           (Z.of_nat (size (uniqueTokens (processedOf fieldVal)))).
Proof.
  intros Hne Hdoc Hii freq. unfold processField.
  rewrite decide_False by done. rewrite Hdoc. fold (processedOf fieldVal). fold freq.
  destruct (decide (freq = ∅)) as [Hempty|Hfreq].
  - eexists. split; [reflexivity|]. simpl. split; [|done].
    rewrite Hempty, addTokens_empty. symmetry. by apply insert_id.
  - rewrite Hii. eexists. split; [reflexivity|]. done.
Qed.

Lemma processField_skip ref docRef doc st field :
  field = ref \/ doc !! field = None ->
  processField ref docRef doc st field = Some st.
Proof.
  intros [->|Hnone]; unfold processField.
  - by rewrite decide_True.
  - destruct (decide (field = ref)); [done|]. by rewrite Hnone.
Qed.

(** An iteration either leaves the state as it is or is the one
    [processField_this] describes. *)
Lemma processField_cases ref docRef doc st field st' :
  is_Some (ls_indexes st !! field) ->
  processField ref docRef doc st field = Some st' ->
  st' = st
  \/ exists fieldVal ii,
       field <> ref /\ doc !! field = Some fieldVal
       /\ ls_indexes st !! field = Some ii
       /\ ls_indexes st'
          = <[field := addTokens docRef
                         (countTokens (default ∅ (ls_tokenFreq st !! field))
                                      (processedOf fieldVal)) ii]> (ls_indexes st)
       /\ ls_tokenFreq st'
          = <[field := countTokens (default ∅ (ls_tokenFreq st !! field))
                                   (processedOf fieldVal)]> (ls_tokenFreq st)
       /\ ls_store st'
          = DocumentStore.AddFieldLength (ls_store st) docRef field
              (Z.of_nat (size (uniqueTokens (processedOf fieldVal)))).
Proof.
  intros [ii Hii] Hst'. destruct (decide (field = ref)) as [Href|Href].
  { left. rewrite processField_skip in Hst' by (by left). congruence. }
  destruct (doc !! field) as [fieldVal|] eqn:Hdoc; last first.
  { left. rewrite processField_skip in Hst' by (by right). congruence. }
  right. exists fieldVal, ii.
  destruct (processField_this ref docRef doc st field fieldVal ii Href Hdoc Hii)
    as (st2 & Hst2 & Hi & Hf & Hs).
  rewrite Hst' in Hst2. injection Hst2 as <-. done.
Qed.

End FieldLoopProofs.

Section LoopInvariantProofs.
Context `{CaseTable}.

Import Index.

Lemma processField_total ref docRef doc st field :
  field ∈ dom (ls_indexes st) ->
  exists st', processField ref docRef doc st field = Some st'
              /\ dom (ls_indexes st') = dom (ls_indexes st).
Proof.
  intros Hdom. pose proof Hdom as [ii Hii]%elem_of_dom.
  destruct (decide (field = ref \/ doc !! field = None)) as [Hskip|Hno].
  - exists st. by rewrite processField_skip.
  - destruct (doc !! field) as [fieldVal|] eqn:Hdoc; [|tauto].
    destruct (processField_this ref docRef doc st field fieldVal ii)
      as (st' & Hst' & Hi & _); [tauto|done|done|].
    exists st'. split; [done|]. rewrite Hi, dom_insert_L.
    apply leibniz_equiv, subseteq_union_1, singleton_subseteq_l. done.
Qed.

(** The loop over the fields terminates normally when every field has an
    index, and maintains every invariant that each iteration maintains. *)
Lemma processFields_invariant (I : loopState -> Prop) ref docRef doc fields :
  (forall st field st',
      field ∈ fields -> field ∈ dom (ls_indexes st) -> I st ->
      processField ref docRef doc st field = Some st' -> I st') ->
  forall st,
    (forall field, field ∈ fields -> field ∈ dom (ls_indexes st)) ->
    I st ->
    exists st', processFields ref docRef doc st fields = Some st'
                /\ I st' /\ dom (ls_indexes st') = dom (ls_indexes st).
Proof.
  induction fields as [|field fields IH]; intros Hstep st Hdom HI.
  - by exists st.
  - destruct (processField_total ref docRef doc st field) as (st1 & Hst1 & Hd1).
    { apply Hdom. left. }
    simpl. rewrite Hst1.
    destruct (IH (fun st0 f st' Hf => Hstep st0 f st' (list_elem_of_further _ _ _ Hf)) st1)
      as (st2 & Hst2 & HI2 & Hd2).
    + intros f Hf. rewrite Hd1. apply Hdom. by right.
    + eapply Hstep; [left|apply Hdom; left|done|done].
    + exists st2. split; [done|]. split; [done|]. congruence.
Qed.

Lemma processFields_app ref docRef doc st l1 l2 :
  processFields ref docRef doc st (l1 ++ l2)
  = processFields ref docRef doc st l1 ≫= fun st1 => processFields ref docRef doc st1 l2.
Proof.
  revert st. induction l1 as [|field l1 IH]; intros st; [done|].
  simpl. destruct (processField ref docRef doc st field) as [st1|]; [|done].
  apply IH.
Qed.

(** The fields that the loop does not visit keep their index, their
    frequency map and their lengths. *)
Lemma processFields_other ref docRef doc fields field :
  field ∉ fields ->
  forall st,
    (forall f, f ∈ fields -> f ∈ dom (ls_indexes st)) ->
    exists st', processFields ref docRef doc st fields = Some st'
                /\ dom (ls_indexes st') = dom (ls_indexes st)
                /\ ls_indexes st' !! field = ls_indexes st !! field
                /\ ls_tokenFreq st' !! field = ls_tokenFreq st !! field
                /\ (forall r, DocumentStore.GetFieldLength (ls_store st') r field
                              = DocumentStore.GetFieldLength (ls_store st) r field).
Proof.
  intros Hnot st Hdom.
  destruct (processFields_invariant
              (fun st' => ls_indexes st' !! field = ls_indexes st !! field
                          /\ ls_tokenFreq st' !! field = ls_tokenFreq st !! field
                          /\ (forall r, DocumentStore.GetFieldLength (ls_store st') r field
                                        = DocumentStore.GetFieldLength (ls_store st) r field))
              ref docRef doc fields) with (st := st) as (st' & Hst' & HI & Hd);
    [|done|done|by exists st'].
  intros st0 f st1 Hf Hfd (Hi & Hf' & Hl) Hstep.
  apply processField_cases in Hstep; [|by apply elem_of_dom].
  destruct Hstep as [->|(fieldVal & ii & Hne & Hdoc & Hii & Hi1 & Hf1 & Hs1)]; [done|].
  assert (f <> field) as Hdiff by (intros ->; done).
  rewrite Hi1, Hf1, Hs1, !lookup_insert_ne by done.
  split; [done|]. split; [done|]. intros r. rewrite <- Hl.
  unfold DocumentStore.GetFieldLength, DocumentStore.AddFieldLength. simpl.
  destruct (decide (docRef = r)) as [->|Hr].
  - rewrite lookup_insert_eq, lookup_insert_ne by done.
    by destruct (DocumentStore.DocInfo (ls_store st0) !! r).
  - by rewrite lookup_insert_ne.
Qed.

End LoopInvariantProofs.

(* ===================================================================== *)
(** ** The index *)
(* ===================================================================== *)

Section IndexProofs.
Context `{CaseTable}.

Import Index.

Lemma AddDoc_unfold idx doc :
  AddDoc idx doc
  = withState idx <$> processFields (Ref idx) (docRefOf idx doc) doc
                        (initState idx doc) (Fields idx).
Proof.
  unfold AddDoc. fold (docRefOf idx doc). fold (initState idx doc).
  by destruct (processFields _ _ _ _ _).
Qed.

Lemma NewIndex_lookup fields field :
  FieldIndexes (NewIndex fields) !! field
  = if decide (field ∈ fields) then Some NewInvertedIndex else None.
Proof.
  unfold NewIndex. simpl. induction fields as [|f fields IH] using rev_ind.
  - by rewrite decide_False by apply not_elem_of_nil.
  - rewrite foldl_snoc. destruct (decide (f = field)) as [->|Hne].
    + rewrite lookup_insert_eq.
      by rewrite decide_True
        by (apply elem_of_app; right; by apply list_elem_of_singleton).
    + rewrite lookup_insert_ne, IH by done.
      destruct (decide (field ∈ fields)) as [Hin|Hout].
      * by rewrite decide_True by (apply elem_of_app; by left).
      * rewrite decide_False; [done|].
        intros [?|Hx%list_elem_of_singleton]%elem_of_app; congruence.
Qed.

Lemma NewIndex_wf fields : wfIndex (NewIndex fields).
Proof.
  split; [done|]. intros field Hin. apply elem_of_dom.
  rewrite NewIndex_lookup, decide_True by done. by eexists.
Qed.

(** [AddDoc] on a well-formed index returns normally, and what holds of the
    final state of its loop holds of the index it returns. *)
Lemma AddDoc_invariant (I : loopState -> Prop) idx doc :
  wfIndex idx ->
  (forall st field st',
      field ∈ Fields idx -> field ∈ dom (ls_indexes st) -> I st ->
      processField (Ref idx) (docRefOf idx doc) doc st field = Some st' -> I st') ->
  I (initState idx doc) ->
  exists st', AddDoc idx doc = Some (withState idx st') /\ I st'
              /\ wfIndex (withState idx st').
Proof.
  intros [Href Hdom] Hstep HI.
  destruct (processFields_invariant I (Ref idx) (docRefOf idx doc) doc (Fields idx) Hstep
              (initState idx doc)) as (st' & Hst' & HI' & Hd); [done|done|].
  exists st'. rewrite AddDoc_unfold, Hst'. split; [done|]. split; [done|].
  split; [done|]. simpl. intros field Hin. rewrite Hd. by apply Hdom.
Qed.

Lemma AddDoc_wf idx doc idx' :
  wfIndex idx -> AddDoc idx doc = Some idx' ->
  wfIndex idx' /\ Fields idx' = Fields idx.
Proof.
  intros Hwf Hadd.
  destruct (AddDoc_invariant (fun _ => True) idx doc Hwf) as (st' & Hst' & _ & Hwf');
    [done|done|].
  rewrite Hadd in Hst'. injection Hst' as ->. done.
Qed.

Lemma Built_wf fields idx : Built fields idx -> wfIndex idx /\ Fields idx = fields.
Proof.
  induction 1 as [|idx doc idx' _ [IHwf IHf] Hadd].
  - split; [apply NewIndex_wf|done].
  - destruct (AddDoc_wf idx doc idx' IHwf Hadd) as [? ?]. split; [done|congruence].
Qed.

Lemma AddDoc_dom idx doc idx' :
  wfIndex idx -> AddDoc idx doc = Some idx' ->
  dom (FieldIndexes idx') = dom (FieldIndexes idx).
Proof.
  intros [Href Hdom]. rewrite AddDoc_unfold.
  destruct (processFields_invariant (fun _ => True) (Ref idx) (docRefOf idx doc) doc
              (Fields idx)) with (st := initState idx doc)
    as (st' & -> & _ & Hd); [done|done|done|].
  simpl. by intros [= <-].
Qed.

Lemma Built_dom fields idx :
  Built fields idx -> dom (FieldIndexes idx) = list_to_set fields.
Proof.
  induction 1 as [|idx doc idx' Hb IH Hadd].
  - apply set_eq. intros field. rewrite elem_of_dom, NewIndex_lookup, elem_of_list_to_set.
    destruct (decide (field ∈ fields)); [by split; [|eexists]|].
    split; [by intros [? ?]|done].
  - destruct (Built_wf fields idx Hb) as [Hwf _].
    by rewrite (AddDoc_dom idx doc idx' Hwf Hadd).
Qed.

(** A path of a field's trie is still there after more fields are
    processed. *)
Lemma processFields_paths ref docRef doc fields field p : forall st ii,
  (forall f, f ∈ fields -> f ∈ dom (ls_indexes st)) ->
  ls_indexes st !! field = Some ii -> is_Some (GetNode ii p) ->
  exists st' ii', processFields ref docRef doc st fields = Some st'
                  /\ ls_indexes st' !! field = Some ii'
                  /\ is_Some (GetNode ii' p).
Proof.
  intros st ii Hdom Hii Hp.
  destruct (processFields_invariant
              (fun st' => exists ii', ls_indexes st' !! field = Some ii'
                                      /\ is_Some (GetNode ii' p))
              ref docRef doc fields) with (st := st)
    as (st' & Hst' & (ii' & Hii' & Hp') & _); [|done|by exists ii|by exists st', ii'].
  intros st0 f st1 Hf Hfd (ii0 & Hii0 & Hp0) Hstep.
  apply processField_cases in Hstep; [|by apply elem_of_dom].
  destruct Hstep as [->|(fieldVal & iif & Hne & Hdoc & Hiif & Hi1 & _)]; [by exists ii0|].
  rewrite Hi1. destruct (decide (f = field)) as [->|Hdiff].
  - rewrite lookup_insert_eq. eexists. split; [done|].
    apply is_Some_GetNode_addTokens. left. congruence.
  - rewrite lookup_insert_ne by done. by exists ii0.
Qed.

(** After [AddDoc], the trie of an indexed field has the stem of every
    token of the field that is not a stop word. *)
Lemma AddDoc_indexes_stems idx doc field fieldVal token :
  wfIndex idx -> field ∈ Fields idx -> field <> Ref idx ->
  doc !! field = Some fieldVal ->
  token ∈ tokenize (Sprintf_v fieldVal) -> isStopWord token = false ->
  exists idx' ii, AddDoc idx doc = Some idx'
                  /\ FieldIndexes idx' !! field = Some ii
                  /\ HasToken ii (stem token) = true.
Proof.
  intros [Href Hdom] Hin Hne Hdoc Htok Hstop.
  apply list_elem_of_split in Hin as (pre & post & Hfields).
  assert (forall f, f ∈ pre \/ f = field \/ f ∈ post -> f ∈ dom (FieldIndexes idx)) as Hd.
  { intros f Hf. apply Hdom. rewrite Hfields, elem_of_app, elem_of_cons. tauto. }
  rewrite AddDoc_unfold, Hfields, processFields_app.
  destruct (processFields_invariant (fun _ => True) (Ref idx) (docRefOf idx doc) doc pre)
    with (st := initState idx doc) as (st1 & -> & _ & Hd1); [done|auto|done|].
  simpl. assert (field ∈ dom (ls_indexes st1)) as [ii1 Hii1]%elem_of_dom.
  { rewrite Hd1. apply Hd. tauto. }
  destruct (processField_this (Ref idx) (docRefOf idx doc) doc st1 field fieldVal ii1)
    as (st2 & -> & Hi2 & _); [done..|].
  set (freq := countTokens (default ∅ (ls_tokenFreq st1 !! field)) (processedOf fieldVal))
    in Hi2.
  destruct (processFields_paths (Ref idx) (docRefOf idx doc) doc post field (stem token)
              st2 (addTokens (docRefOf idx doc) freq ii1))
    as (st3 & ii3 & -> & Hii3 & Hp3).
  - intros f Hf. rewrite Hi2, dom_insert_L, Hd1. apply elem_of_union_r, Hd. tauto.
  - by rewrite Hi2, lookup_insert_eq.
  - apply is_Some_GetNode_addTokens. right. exists (stem token).
    assert (stem token ∈ processedOf fieldVal) as Hproc.
    { unfold processedOf. apply elem_of_processTokens. exists token.
      split; [exact Htok|]. split; [exact Hstop|reflexivity]. }
    split; [|split; [|done]].
    + apply elem_of_dom. unfold freq. rewrite countTokens_dom.
      apply elem_of_union_r. by apply elem_of_list_to_set.
    + by eapply processTokens_nonempty.
  - simpl. exists (withState idx st3), ii3. split; [done|]. split; [done|].
    by apply HasToken_true.
Qed.


End IndexProofs.

Section FieldLengthProofs.
Context `{CaseTable}.

Import Index.

Lemma GetFieldLength_AddFieldLength ds docRef field n :
  DocumentStore.GetFieldLength (DocumentStore.AddFieldLength ds docRef field n)
                               docRef field = n.
Proof.
  unfold DocumentStore.GetFieldLength, DocumentStore.AddFieldLength. simpl.
  by rewrite !lookup_insert_eq.
Qed.

Lemma GetFieldLength_AddFieldLength_ne ds docRef field field' n :
  field <> field' ->
  DocumentStore.GetFieldLength (DocumentStore.AddFieldLength ds docRef field n)
                               docRef field'
  = DocumentStore.GetFieldLength ds docRef field'.
Proof.
  intros Hne. unfold DocumentStore.GetFieldLength, DocumentStore.AddFieldLength. simpl.
  rewrite lookup_insert_eq, lookup_insert_ne by done.
  by destruct (DocumentStore.DocInfo ds !! docRef).
Qed.

(** After [AddDoc], the recorded length of every indexed field of the
    document is the number of its distinct processed tokens. *)
Lemma AddDoc_field_length idx doc field fieldVal :
  wfIndex idx -> field ∈ Fields idx -> field <> Ref idx ->
  doc !! field = Some fieldVal ->
  exists idx', AddDoc idx doc = Some idx'
               /\ DocumentStore.GetFieldLength (Store idx') (docRefOf idx doc) field
                  = distinctTokens fieldVal.
Proof.
  intros [Href Hdom] Hin Hne Hdoc.
  apply list_elem_of_split in Hin as (pre & post & Hfields).
  assert (forall f, f ∈ pre \/ f = field \/ f ∈ post -> f ∈ dom (FieldIndexes idx)) as Hd.
  { intros f Hf. apply Hdom. rewrite Hfields, elem_of_app, elem_of_cons. tauto. }
  rewrite AddDoc_unfold, Hfields, processFields_app.
  destruct (processFields_invariant (fun _ => True) (Ref idx) (docRefOf idx doc) doc pre)
    with (st := initState idx doc) as (st1 & -> & _ & Hd1); [done|auto|done|].
  simpl. assert (field ∈ dom (ls_indexes st1)) as [ii1 Hii1]%elem_of_dom.
  { rewrite Hd1. apply Hd. tauto. }
  destruct (processField_this (Ref idx) (docRefOf idx doc) doc st1 field fieldVal ii1)
    as (st2 & -> & Hi2 & _ & Hs2); [done..|].
  destruct (processFields_invariant
              (fun st => DocumentStore.GetFieldLength (ls_store st) (docRefOf idx doc) field
                         = distinctTokens fieldVal)
              (Ref idx) (docRefOf idx doc) doc post) with (st := st2)
    as (st3 & -> & Hlen & _).
  - intros st f st' Hf Hfd Hl Hstep.
    apply processField_cases in Hstep; [|by apply elem_of_dom].
    destruct Hstep as [->|(fv & iif & Hnf & Hdf & _ & _ & _ & Hs)]; [done|].
    rewrite Hs. destruct (decide (f = field)) as [->|Hdiff].
    + rewrite GetFieldLength_AddFieldLength. unfold distinctTokens.
      rewrite Hdoc in Hdf. injection Hdf as <-. by rewrite uniqueTokens_size.
    + by rewrite GetFieldLength_AddFieldLength_ne.
  - intros f Hf. rewrite Hi2, dom_insert_L, Hd1. apply elem_of_union_r, Hd. tauto.
  - rewrite Hs2, GetFieldLength_AddFieldLength. unfold distinctTokens.
    by rewrite uniqueTokens_size.
  - by exists (withState idx st3).
Qed.

(** A field without processed tokens leaves its trie as it is. *)
Lemma AddDoc_no_tokens idx doc field fieldVal :
  wfIndex idx -> doc !! field = Some fieldVal -> processedOf fieldVal = [] ->
  exists idx', AddDoc idx doc = Some idx'
               /\ FieldIndexes idx' !! field = FieldIndexes idx !! field.
Proof.
  intros Hwf Hdoc Hnone.
  destruct (AddDoc_invariant
              (fun st => ls_indexes st !! field = FieldIndexes idx !! field
                         /\ default ∅ (ls_tokenFreq st !! field) = ∅) idx doc Hwf)
    as (st' & Hst' & [Hi _] & _); [| |by exists (withState idx st')].
  - intros st f st1 Hf Hfd [Hi Ht] Hstep.
    apply processField_cases in Hstep; [|by apply elem_of_dom].
    destruct Hstep as [->|(fv & iif & Hnf & Hdf & Hiif & Hi1 & Hf1 & _)]; [done|].
    rewrite Hi1, Hf1. destruct (decide (f = field)) as [->|Hdiff].
    + rewrite Hdoc in Hdf. injection Hdf as <-.
      rewrite Hnone, Ht. simpl. rewrite !lookup_insert_eq, addTokens_empty.
      split; [congruence|done].
    + by rewrite !lookup_insert_ne.
  - simpl. by rewrite lookup_empty.
Qed.

End FieldLengthProofs.

(* ===================================================================== *)
(** ** The length boundary *)
(* ===================================================================== *)

Section LengthBoundaryProofs.
Context `{CaseTable}.

Import Index.

Lemma splitOn_no_separator sep piece :
  Forall (fun r => sep r = false) piece -> splitOn sep piece = [piece].
Proof.
  induction 1 as [|r piece Hr _ IH]; [done|]. simpl. by rewrite Hr, IH.
Qed.

(** The tokens of a text that is one piece: the piece lower-cased, when that
    is at most 80 bytes long, and nothing otherwise. *)
Lemma tokenize_piece piece :
  piece <> [] -> Forall (fun r => isSeparator r = false) piece ->
  tokenize piece
  = if decide (len (ToLower piece) <= maxWordLengthToIndex) then [ToLower piece] else [].
Proof.
  intros Hne Hsep. rewrite tokenize_eq_spec. unfold tokenize_spec.
  rewrite splitOn_no_separator by done.
  rewrite filter_cons_True, filter_nil by done. simpl.
  destruct (decide (len (ToLower piece) <= maxWordLengthToIndex)).
  - by rewrite filter_cons_True by done.
  - by rewrite filter_cons_False by done.
Qed.

Lemma tokenize_len token text : token ∈ tokenize text -> len token <= maxWordLengthToIndex.
Proof.
  rewrite tokenize_eq_spec. unfold tokenize_spec. by intros [? _]%list_elem_of_filter.
Qed.

Lemma processedOf_length s fieldVal : s ∈ processedOf fieldVal -> (length s <= 80)%nat.
Proof.
  unfold processedOf. rewrite elem_of_processTokens.
  intros (token & Htok & _ & ->).
  apply tokenize_len in Htok. pose proof (len_ge_length token).
  pose proof (length_stem token). unfold maxWordLengthToIndex in Htok. lia.
Qed.

Lemma processField_short ref docRef doc st field st' :
  field ∈ dom (ls_indexes st) ->
  shortPaths (ls_indexes st) /\ shortKeys (ls_tokenFreq st) ->
  processField ref docRef doc st field = Some st' ->
  shortPaths (ls_indexes st') /\ shortKeys (ls_tokenFreq st').
Proof.
  intros Hfd [Hp Hk] Hstep.
  apply processField_cases in Hstep; [|by apply elem_of_dom].
  destruct Hstep as [->|(fv & iif & Hnf & Hdf & Hiif & Hi1 & Hf1 & _)]; [done|].
  set (freq := countTokens (default ∅ (ls_tokenFreq st !! field)) (processedOf fv)) in *.
  assert (forall t, is_Some (freq !! t) -> (length t <= 80)%nat) as Hfreq.
  { intros t Ht%elem_of_dom. unfold freq in Ht.
    rewrite countTokens_dom in Ht. apply elem_of_union in Ht as [Hold|Hnew].
    - destruct (ls_tokenFreq st !! field) as [old|] eqn:Ho; simpl in Hold.
      + eapply Hk; [done|]. by apply elem_of_dom.
      + by rewrite dom_empty_L in Hold.
    - apply elem_of_list_to_set in Hnew. by eapply processedOf_length. }
  rewrite Hi1, Hf1. split.
  - intros f ii p. destruct (decide (field = f)) as [->|Hdiff].
    + rewrite lookup_insert_eq. intros [= <-].
      intros [Hold|(t & Ht & _ & Hpre)]%is_Some_GetNode_addTokens.
      * by eapply Hp.
      * apply prefix_length in Hpre. specialize (Hfreq t Ht). lia.
    + rewrite lookup_insert_ne by done. apply Hp.
  - intros f fm t. destruct (decide (field = f)) as [->|Hdiff].
    + rewrite lookup_insert_eq. intros [= <-]. apply Hfreq.
    + rewrite lookup_insert_ne by done. apply Hk.
Qed.

Lemma Built_shortPaths fields idx : Built fields idx -> shortPaths (FieldIndexes idx).
Proof.
  induction 1 as [|idx doc idx' Hb IH Hadd].
  - intros field ii p. rewrite NewIndex_lookup.
    destruct (decide (field ∈ fields)); [|done]. intros [= <-].
    intros [->|(c & Hc & _)]%(is_Some_GetNode_built []); [simpl; lia|].
    by apply elem_of_nil in Hc.
  - destruct (Built_wf fields idx Hb) as [Hwf _].
    destruct (AddDoc_invariant
                (fun st => shortPaths (ls_indexes st) /\ shortKeys (ls_tokenFreq st))
                idx doc Hwf) as (st' & Hst' & [Hp _] & _).
    + intros st f st1 _ Hfd HI Hstep. by eapply processField_short.
    + split; [done|]. intros f fm t. simpl. by rewrite lookup_empty.
    + rewrite Hadd in Hst'. injection Hst' as ->. done.
Qed.

Lemma processedOf_piece_kept piece :
  piece <> [] -> Forall (fun r => isSeparator r = false) piece ->
  len (ToLower piece) <= maxWordLengthToIndex ->
  isStopWord (ToLower piece) = false ->
  processedOf (VString piece) = [stem (ToLower piece)].
Proof.
  intros Hne Hsep Hlen Hstop. unfold processedOf. simpl Sprintf_v.
  rewrite tokenize_piece, decide_True by done.
  change [ToLower piece] with ([] ++ [ToLower piece]).
  rewrite processTokens_snoc, Hstop, bool_decide_eq_true_2; [done|].
  apply stem_nonempty. by rewrite ToLower_nil_iff.
Qed.

Lemma processedOf_piece_dropped piece :
  piece <> [] -> Forall (fun r => isSeparator r = false) piece ->
  maxWordLengthToIndex < len (ToLower piece) ->
  processedOf (VString piece) = [].
Proof.
  intros Hne Hsep Hlen. unfold processedOf. simpl Sprintf_v.
  rewrite tokenize_piece, decide_False by first [done|lia]. done.
Qed.

(** The tokens of a text are the lower-cased forms, at most 80 bytes long,
    of its pieces between separators that are not empty. *)
Lemma elem_of_tokenize text token :
  token ∈ tokenize text
  <-> exists piece, piece ∈ splitOn isSeparator text /\ piece <> []
                    /\ token = ToLower piece /\ len token <= 80.
Proof.
  rewrite tokenize_eq_spec. unfold tokenize_spec.
  rewrite list_elem_of_filter, list_elem_of_fmap. split.
  - intros (Hlen & piece & -> & [Hne Hin]%list_elem_of_filter).
    exists piece. split; [exact Hin|]. split; [exact Hne|]. split; [reflexivity|exact Hlen].
  - intros (piece & Hin & Hne & -> & Hlen). split; [exact Hlen|].
    exists piece. split; [reflexivity|]. apply list_elem_of_filter.
    split; [exact Hne|exact Hin].
Qed.

(** The paths that AddDoc adds to the trie of a field lead to processed
    tokens of the document's value of the field. *)
Lemma AddDoc_new_paths idx doc field fieldVal ii :
  wfIndex idx -> doc !! field = Some fieldVal -> FieldIndexes idx !! field = Some ii ->
  exists idx' ii',
    AddDoc idx doc = Some idx'
    /\ FieldIndexes idx' !! field = Some ii'
    /\ forall p, is_Some (GetNode ii' p) ->
                 is_Some (GetNode ii p)
                 \/ exists t, t ∈ processedOf fieldVal /\ p `prefix_of` t.
Proof.
  intros Hwf Hdoc Hii.
  destruct (AddDoc_invariant
              (fun st =>
                 (exists ii1, ls_indexes st !! field = Some ii1
                              /\ forall p, is_Some (GetNode ii1 p) ->
                                   is_Some (GetNode ii p)
                                   \/ exists t, t ∈ processedOf fieldVal /\ p `prefix_of` t)
                 /\ (forall t, is_Some (default ∅ (ls_tokenFreq st !! field) !! t) ->
                               t ∈ processedOf fieldVal))
              idx doc Hwf) as (st' & Hst' & [(ii' & Hii' & Hpaths) _] & _).
  - intros st f st1 _ Hfd [(ii1 & Hii1 & Hp) Hk] Hstep.
    apply processField_cases in Hstep; [|by apply elem_of_dom].
    destruct Hstep as [->|(fv & iif & Hnf & Hdf & Hiif & Hi1 & Hf1 & _)].
    { split; [by exists ii1|exact Hk]. }
    rewrite Hi1, Hf1. destruct (decide (f = field)) as [->|Hdiff].
    + assert (fv = fieldVal) as -> by congruence.
      assert (iif = ii1) as -> by congruence.
      set (freq := countTokens (default ∅ (ls_tokenFreq st !! field))
                               (processedOf fieldVal)).
      assert (forall t, is_Some (freq !! t) -> t ∈ processedOf fieldVal) as Hfreq.
      { intros t Ht%elem_of_dom. unfold freq in Ht.
        rewrite countTokens_dom in Ht. apply elem_of_union in Ht as [Hold|Hnew].
        - apply Hk. by apply elem_of_dom.
        - by apply elem_of_list_to_set in Hnew. }
      rewrite !lookup_insert_eq. split; [|exact Hfreq].
      eexists. split; [reflexivity|]. intros p.
      intros [Hold|(t & Ht & _ & Hpre)]%is_Some_GetNode_addTokens.
      * by apply Hp.
      * right. exists t. split; [by apply Hfreq|exact Hpre].
    + rewrite !lookup_insert_ne by done. split; [by exists ii1|exact Hk].
  - split.
    + exists ii. split; [exact Hii|]. intros p Hp. by left.
    + intros t. simpl. rewrite lookup_empty. simpl. rewrite lookup_empty. by intros [? ?].
  - exists (withState idx st'), ii'. split; [exact Hst'|]. split; [exact Hii'|exact Hpaths].
Qed.

(** C6, as amended. The length that decides is the byte length of the
    lower-cased token. A text that is one token gives that token when its
    lower-cased form is at most 80 bytes long and no token otherwise. For
    every index built from NewIndex by AddDoc calls and every indexed field
    whose value is one token: when the lower-cased token is at most 80 bytes
    long and not a stop word, its stem is in the field's trie after AddDoc
    and the field length is 1; when it is longer than 80 bytes the field's
    trie is left as it was and the field length is 0; and a token of more
    than 80 characters is in no trie, so HasToken is false for it.
    For a token among others: the tokens of any text are exactly the
    lower-cased forms, at most 80 bytes long, of its non-empty pieces between
    separators, so that a piece whose lower-cased form is longer is not a
    token; and for any value of an indexed field, after AddDoc the stem of
    every token that is not a stop word is in the field's trie, every string
    of the trie was there before or is a prefix of such a stem, the field
    length is the number of distinct such stems, and no string of more than
    80 characters is in the trie. *)
Theorem token_length_boundary :
  (forall piece,
      piece <> [] -> Forall (fun r => isSeparator r = false) piece ->
      tokenize piece
      = if decide (len (ToLower piece) <= 80) then [ToLower piece] else [])
  /\ (forall fields idx doc field piece,
        Built fields idx -> field ∈ fields -> field <> str "id" ->
        doc !! field = Some (VString piece) ->
        piece <> [] -> Forall (fun r => isSeparator r = false) piece ->
        exists idx' ii ii',
          AddDoc idx doc = Some idx'
          /\ FieldIndexes idx !! field = Some ii
          /\ FieldIndexes idx' !! field = Some ii'
          /\ (len (ToLower piece) <= 80 -> isStopWord (ToLower piece) = false ->
              HasToken ii' (stem (ToLower piece)) = true
              /\ DocumentStore.GetFieldLength
                   (Store idx') (Sprintf_v (docField doc (str "id"))) field = 1)
          /\ (80 < len (ToLower piece) ->
              ii' = ii
              /\ DocumentStore.GetFieldLength
                   (Store idx') (Sprintf_v (docField doc (str "id"))) field = 0)
          /\ (80 < Z.of_nat (length piece) ->
              HasToken ii' piece = false
              /\ HasToken ii' (ToLower piece) = false
              /\ DocumentStore.GetFieldLength
                   (Store idx') (Sprintf_v (docField doc (str "id"))) field = 0))
  /\ (forall text,
        (forall token,
            token ∈ tokenize text
            <-> exists piece, piece ∈ splitOn isSeparator text /\ piece <> []
                              /\ token = ToLower piece /\ len token <= 80)
        /\ (forall piece,
              piece ∈ splitOn isSeparator text -> 80 < len (ToLower piece) ->
              ToLower piece ∉ tokenize text))
  /\ (forall fields idx doc field fieldVal,
        Built fields idx -> field ∈ fields -> field <> str "id" ->
        doc !! field = Some fieldVal ->
        exists idx' ii ii' (stems : gset gostring),
          AddDoc idx doc = Some idx'
          /\ FieldIndexes idx !! field = Some ii
          /\ FieldIndexes idx' !! field = Some ii'
          /\ (forall s, s ∈ stems
                        <-> exists token, token ∈ tokenize (Sprintf_v fieldVal)
                                          /\ isStopWord token = false
                                          /\ s = stem token)
          /\ (forall s, s ∈ stems -> HasToken ii' s = true)
          /\ (forall p, HasToken ii' p = true ->
                        HasToken ii p = true
                        \/ exists s, s ∈ stems /\ p `prefix_of` s)
          /\ DocumentStore.GetFieldLength
               (Store idx') (Sprintf_v (docField doc (str "id"))) field
             = Z.of_nat (size stems)
          /\ (forall p, 80 < Z.of_nat (length p) -> HasToken ii' p = false)).
Proof.
  split; [exact tokenize_piece|]. split; [|split].
  - intros fields idx doc field piece Hb Hin Hne Hdoc Hpiece Hsep.
    destruct (Built_wf fields idx Hb) as [Hwf Hf]. pose proof Hwf as [Href Hdom].
    assert (field ∈ Fields idx) as Hin' by (by rewrite Hf).
    assert (field <> Ref idx) as Hne' by (by rewrite Href).
    destruct (AddDoc_field_length idx doc field (VString piece) Hwf Hin' Hne' Hdoc)
      as (idx' & Hadd & Hlen).
    unfold docRefOf in Hlen. rewrite Href in Hlen.
    assert (Built fields idx') as Hb' by (by eapply Built_add).
    destruct (Built_wf fields idx' Hb') as [[_ Hdom'] Hf'].
    assert (field ∈ dom (FieldIndexes idx)) as [ii Hii]%elem_of_dom by (by apply Hdom).
    assert (field ∈ dom (FieldIndexes idx')) as [ii' Hii']%elem_of_dom
      by (apply Hdom'; by rewrite Hf').
    assert (maxWordLengthToIndex < len (ToLower piece) ->
            ii' = ii
            /\ DocumentStore.GetFieldLength
                 (Store idx') (Sprintf_v (docField doc (str "id"))) field = 0) as Hdropped.
    { intros Hlong. pose proof (processedOf_piece_dropped piece Hpiece Hsep Hlong) as Hnone.
      split.
      - destruct (AddDoc_no_tokens idx doc field (VString piece) Hwf Hdoc Hnone)
          as (idx2 & Hadd2 & Hsame).
        rewrite Hadd in Hadd2. injection Hadd2 as <-. congruence.
      - rewrite Hlen. unfold distinctTokens. by rewrite Hnone. }
    exists idx', ii, ii'. split; [done|]. split; [done|]. split; [done|].
    split; [|split].
    + intros Hshort Hstop. split.
      * destruct (AddDoc_indexes_stems idx doc field (VString piece) (ToLower piece)
                    Hwf Hin' Hne' Hdoc) as (idx2 & ii2 & Hadd2 & Hii2 & Hhas); [|done|].
        -- simpl Sprintf_v. rewrite tokenize_piece, decide_True by done. left.
        -- rewrite Hadd in Hadd2. injection Hadd2 as <-. congruence.
      * rewrite Hlen. unfold distinctTokens.
        rewrite processedOf_piece_kept by done.
        by rewrite list_to_set_cons, list_to_set_nil, (right_id_L ∅ (∪)), size_singleton.
    + exact Hdropped.
    + intros Hchars.
      assert (maxWordLengthToIndex < len (ToLower piece)) as Hlong.
      { pose proof (len_ge_length (ToLower piece)) as Hge.
        unfold ToLower in Hge at 1. rewrite length_fmap in Hge.
        unfold maxWordLengthToIndex. lia. }
      pose proof (Built_shortPaths fields idx' Hb') as Hpaths.
      split; [|split; [|by apply Hdropped]].
      * apply bool_decide_eq_false_2. intros Hs.
        pose proof (Hpaths field ii' piece Hii' Hs). lia.
      * apply bool_decide_eq_false_2. intros Hs.
        pose proof (Hpaths field ii' (ToLower piece) Hii' Hs) as Hl.
        unfold ToLower in Hl. rewrite length_fmap in Hl. lia.
  - intros text. split; [exact (elem_of_tokenize text)|].
    intros piece _ Hlong Htok. apply tokenize_len in Htok.
    unfold maxWordLengthToIndex in Htok. lia.
  - intros fields idx doc field fieldVal Hb Hin Hne Hdoc.
    destruct (Built_wf fields idx Hb) as [Hwf Hf]. pose proof Hwf as [Href Hdom].
    assert (field ∈ Fields idx) as Hin' by (by rewrite Hf).
    assert (field <> Ref idx) as Hne' by (by rewrite Href).
    assert (field ∈ dom (FieldIndexes idx)) as [ii Hii]%elem_of_dom by (by apply Hdom).
    destruct (AddDoc_field_length idx doc field fieldVal Hwf Hin' Hne' Hdoc)
      as (idx' & Hadd & Hlen).
    unfold docRefOf in Hlen. rewrite Href in Hlen.
    assert (Built fields idx') as Hb' by (by eapply Built_add).
    destruct (AddDoc_new_paths idx doc field fieldVal ii Hwf Hdoc Hii)
      as (idx2 & ii' & Hadd2 & Hii' & Hnew).
    rewrite Hadd in Hadd2. injection Hadd2 as <-.
    assert (forall s, s ∈ (list_to_set (processedOf fieldVal) : gset gostring)
                      <-> exists token, token ∈ tokenize (Sprintf_v fieldVal)
                                        /\ isStopWord token = false
                                        /\ s = stem token) as Hstems.
    { intros s. rewrite elem_of_list_to_set. unfold processedOf.
      apply elem_of_processTokens. }
    exists idx', ii, ii', (list_to_set (processedOf fieldVal)).
    split; [exact Hadd|]. split; [exact Hii|]. split; [exact Hii'|].
    split; [exact Hstems|]. split; [|split; [|split]].
    + intros s (token & Htok & Hstop & ->)%Hstems.
      destruct (AddDoc_indexes_stems idx doc field fieldVal token
                  Hwf Hin' Hne' Hdoc Htok Hstop) as (idx2 & ii2 & Hadd2 & Hii2 & Hhas).
      rewrite Hadd in Hadd2. injection Hadd2 as <-.
      rewrite Hii' in Hii2. injection Hii2 as <-. exact Hhas.
    + intros p Hp%HasToken_true. destruct (Hnew p Hp) as [Hold|(t & Ht & Hpre)].
      * left. by apply HasToken_true.
      * right. exists t. split; [|exact Hpre]. by apply elem_of_list_to_set.
    + exact Hlen.
    + intros p Hlong. apply bool_decide_eq_false_2. intros Hs.
      pose proof (Built_shortPaths fields idx' Hb' field ii' p Hii' Hs). lia.
Qed.

End LengthBoundaryProofs.

(** C6, the statement as written fails for characters outside ASCII: a token
    of exactly 80 characters that is 160 bytes long is dropped by the
    tokenizer, the field length is 0 and the trie of the field stays
    empty. *)
Lemma eighty_character_token_dropped :
  length eightyAccents = 80%nat
  /\ @tokenize latin1Table eightyAccents = []
  /\ (@Index.AddDoc latin1Table (Index.NewIndex (str <$> ["id"; "body"]%string)) accentsDoc
        ≫= fun idx =>
             Index.FieldIndexes idx !! str "body"
               ≫= fun ii =>
                    Some (HasToken ii eightyAccents,
                          DocumentStore.GetFieldLength (Index.Store idx) (str "1") (str "body")))
     = Some (false, 0).
Proof. vm_compute. repeat split; reflexivity. Qed.

(* ===================================================================== *)
(** ** Term weights and field lengths *)
(* ===================================================================== *)

Section TermWeightProofs.
Context `{CaseTable}.

Import Index.

(** The trie of a field that occurs once in the field list, after AddDoc:
    the loop over the frequency map of the field, counted from the empty
    map, applied to the trie the field had. *)
Lemma AddDoc_field_index idx doc field fieldVal ii :
  wfIndex idx -> NoDup (Fields idx) -> field ∈ Fields idx -> field <> Ref idx ->
  doc !! field = Some fieldVal -> FieldIndexes idx !! field = Some ii ->
  exists idx', AddDoc idx doc = Some idx'
               /\ FieldIndexes idx' !! field
                  = Some (addTokens (docRefOf idx doc)
                                    (countTokens ∅ (processedOf fieldVal)) ii).
Proof.
  intros [Href Hdom] Hnd Hin Hne Hdoc Hii.
  apply list_elem_of_split in Hin as (pre & post & Hfields).
  assert (forall f, f ∈ pre \/ f = field \/ f ∈ post -> f ∈ dom (FieldIndexes idx)) as Hd.
  { intros f Hf. apply Hdom. rewrite Hfields, elem_of_app, elem_of_cons. tauto. }
  rewrite Hfields in Hnd. apply NoDup_app in Hnd as (_ & Hpre & Hpost).
  apply NoDup_cons in Hpost as [Hpost _].
  assert (field ∉ pre) as Hpre'.
  { intros Hx. apply (Hpre field Hx). left. }
  rewrite AddDoc_unfold, Hfields, processFields_app.
  destruct (processFields_other (Ref idx) (docRefOf idx doc) doc pre field Hpre'
              (initState idx doc)) as (st1 & -> & Hd1 & Hi1 & Hf1 & _); [auto|].
  simpl in Hi1, Hf1, Hd1. rewrite lookup_empty in Hf1. rewrite Hii in Hi1. simpl.
  destruct (processField_this (Ref idx) (docRefOf idx doc) doc st1 field fieldVal ii)
    as (st2 & -> & Hi2 & _); [done..|].
  rewrite Hf1 in Hi2. simpl in Hi2.
  destruct (processFields_other (Ref idx) (docRefOf idx doc) doc post field Hpost st2)
    as (st3 & -> & _ & Hi3 & _).
  { intros f Hf. rewrite Hi2, dom_insert_L, Hd1. apply elem_of_union_r, Hd. tauto. }
  exists (withState idx st3). split; [done|]. simpl.
  by rewrite Hi3, Hi2, lookup_insert_eq.
Qed.

(** The postings and the length of one field of the list, after AddDoc. *)
Lemma AddDoc_listed_field fields idx doc field fieldVal :
  NoDup fields ->
  Built fields idx ->
  field ∈ fields -> field <> str "id" ->
  doc !! field = Some fieldVal ->
  Z.of_nat (length (processedOf fieldVal)) < 2 ^ 63 ->
  let processed := processedOf fieldVal in
  let r := Sprintf_v (docField doc (str "id")) in
  exists idx' ii ii' (calls : list (gostring * Z)),
    AddDoc idx doc = Some idx'
    /\ FieldIndexes idx !! field = Some ii
    /\ FieldIndexes idx' !! field = Some ii'
    /\ NoDup calls.*1
    /\ (forall t c, (t, c) ∈ calls <-> t ∈ processed /\ c = occurrences t processed)
    /\ (forall l, l ≡ₚ calls ->
                  ii' = foldr (uncurry (fun t c acc =>
                                 AddToken acc r t (Float64.Sqrt (Float64.of_int c))))
                              ii l)
    /\ (forall t, t ∈ processed ->
                  GetDocs ii' t ≫= (fun docs => docs !! r)
                  = Some (Float64.Sqrt (Float64.of_int (occurrences t processed))))
    /\ DocumentStore.GetFieldLength (Store idx') r field
       = Z.of_nat (size (list_to_set processed : gset gostring)).
Proof.
  intros Hnd Hb Hin Hne Hdoc Hbound processed r.
  destruct (Built_wf fields idx Hb) as [Hwf Hf]. pose proof Hwf as [Href Hdom].
  assert (field ∈ Fields idx) as Hin' by (by rewrite Hf).
  assert (field <> Ref idx) as Hne' by (by rewrite Href).
  assert (docRefOf idx doc = r) as Hr by (unfold docRefOf; by rewrite Href).
  assert (field ∈ dom (FieldIndexes idx)) as [ii Hii]%elem_of_dom by (by apply Hdom).
  destruct (AddDoc_field_index idx doc field fieldVal ii) as (idx' & Hadd & Hii');
    [done|by rewrite Hf|done..|].
  rewrite Hr in Hii'. fold processed in Hii'.
  set (freq := countTokens ∅ processed) in Hii'.
  assert (forall t, freq !! t
                    = if decide (t ∈ processed) then Some (occurrences t processed)
                      else None) as Hfreq.
  { intros t. by apply countTokens_lookup. }
  exists idx', ii, (addTokens r freq ii), (map_to_list freq).
  split; [done|]. split; [done|]. split; [done|].
  split; [apply NoDup_fst_map_to_list|]. split; [|split; [|split]].
  - intros t c. rewrite elem_of_map_to_list, Hfreq.
    destruct (decide (t ∈ processed)); [|by split; [|intros [? _]]].
    split; [intros [= <-]; done|]. by intros [_ ->].
  - intros l Hl. symmetry. by apply addTokens_any_order.
  - intros t Ht. rewrite GetDocs_nodeAt.
    + simpl. rewrite Docs_nodeAt_addTokens, Hfreq, decide_True by done.
      rewrite decide_False by (by eapply processTokens_nonempty).
      unfold postDocs. by rewrite lookup_fmap, lookup_insert_eq.
    + apply is_Some_GetNode_addTokens. right. exists t. split; [|split; [|done]].
      * rewrite Hfreq, decide_True by done. by eexists.
      * by eapply processTokens_nonempty.
  - destruct (AddDoc_field_length idx doc field fieldVal Hwf Hin' Hne' Hdoc)
      as (idx2 & Hadd2 & Hlen).
    rewrite Hadd in Hadd2. injection Hadd2 as <-. by rewrite <- Hr, Hlen.
Qed.

Lemma GetFieldLength_AddFieldLength_other ds docRef field n docRef' field' :
  field' <> field ->
  DocumentStore.GetFieldLength (DocumentStore.AddFieldLength ds docRef field n)
                               docRef' field'
  = DocumentStore.GetFieldLength ds docRef' field'.
Proof.
  intros Hne. destruct (decide (docRef' = docRef)) as [->|Hr].
  - apply GetFieldLength_AddFieldLength_ne. congruence.
  - unfold DocumentStore.GetFieldLength, DocumentStore.AddFieldLength. simpl.
    by rewrite lookup_insert_ne.
Qed.

(** No length is ever recorded for a field outside the field list. *)
Lemma Built_unlisted_length fields idx docRef field :
  Built fields idx -> field ∉ fields ->
  DocumentStore.GetFieldLength (Store idx) docRef field = 0.
Proof.
  induction 1 as [|idx doc idx' Hb IH Hadd]; intros Hout; [reflexivity|].
  destruct (Built_wf fields idx Hb) as [Hwf Hf].
  destruct (AddDoc_invariant
              (fun st => DocumentStore.GetFieldLength (ls_store st) docRef field = 0)
              idx doc Hwf) as (st' & Hst' & Hlen & _).
  - intros st f st1 Hfin Hfd HI Hstep.
    apply processField_cases in Hstep; [|by apply elem_of_dom].
    destruct Hstep as [->|(fv & iif & _ & _ & _ & _ & _ & Hs)]; [exact HI|].
    rewrite Hs, GetFieldLength_AddFieldLength_other; [exact HI|].
    intros ->. apply Hout. by rewrite <- Hf.
  - exact (IH Hout).
  - rewrite Hadd in Hst'. injection Hst' as ->. exact Hlen.
Qed.

(** C4, as amended. For an index built from NewIndex on a field list without
    repeated names, AddDoc returns an index such that, for every field of
    that list other than the reference field that the document has (a field
    whose processed tokens fit an int): AddDoc makes one AddToken call per
    distinct processed token t of the field, with the reference string of
    the document and the weight sqrt(c), c being the number of occurrences
    of t among the processed tokens of this field of this document, in an
    order that does not matter; afterwards the weight stored for the
    document under t is sqrt(c), and GetFieldLength(r, f) is the number of
    distinct processed tokens. A field outside the field list, whether the
    document has it or not, is not processed: the index has no trie for it
    and no length is recorded for it, for any reference. *)
Theorem AddDoc_posts_sqrt_weights fields idx doc :
  NoDup fields ->
  Built fields idx ->
  let r := Sprintf_v (docField doc (str "id")) in
  exists idx',
    AddDoc idx doc = Some idx'
    /\ (forall field fieldVal,
          field ∈ fields -> field <> str "id" ->
          doc !! field = Some fieldVal ->
          Z.of_nat (length (processedOf fieldVal)) < 2 ^ 63 ->
          let processed := processedOf fieldVal in
          exists ii ii' (calls : list (gostring * Z)),
            FieldIndexes idx !! field = Some ii
            /\ FieldIndexes idx' !! field = Some ii'
            /\ NoDup calls.*1
            /\ (forall t c, (t, c) ∈ calls
                            <-> t ∈ processed /\ c = occurrences t processed)
            /\ (forall l, l ≡ₚ calls ->
                          ii' = foldr (uncurry (fun t c acc =>
                                         AddToken acc r t
                                           (Float64.Sqrt (Float64.of_int c))))
                                      ii l)
            /\ (forall t, t ∈ processed ->
                          GetDocs ii' t ≫= (fun docs => docs !! r)
                          = Some (Float64.Sqrt
                                    (Float64.of_int (occurrences t processed))))
            /\ DocumentStore.GetFieldLength (Store idx') r field
               = Z.of_nat (size (list_to_set processed : gset gostring)))
    /\ (forall field,
          field ∉ fields ->
          FieldIndexes idx' !! field = None
          /\ forall docRef,
               DocumentStore.GetFieldLength (Store idx') docRef field = 0).
Proof.
  intros Hnd Hb r.
  destruct (Built_wf fields idx Hb) as [Hwf Hf].
  destruct (AddDoc_invariant (fun _ => True) idx doc Hwf) as (st' & Hadd & _ & _);
    [done|done|].
  assert (Built fields (withState idx st')) as Hb' by (by eapply Built_add).
  exists (withState idx st'). split; [exact Hadd|]. split.
  - intros field fieldVal Hin Hne Hdoc Hbound processed.
    destruct (AddDoc_listed_field fields idx doc field fieldVal Hnd Hb Hin Hne Hdoc Hbound)
      as (idx2 & ii & ii' & calls & Hadd2 & Hrest).
    rewrite Hadd in Hadd2. injection Hadd2 as <-.
    exists ii, ii', calls. exact Hrest.
  - intros field Hout. split.
    + apply not_elem_of_dom. rewrite (Built_dom fields _ Hb'), elem_of_list_to_set.
      exact Hout.
    + intros docRef. by apply (Built_unlisted_length fields).
Qed.

End TermWeightProofs.

(* ===================================================================== *)
(** ** Scenario 3 and the map of ToMap *)
(* ===================================================================== *)

Section ToMapProofs.
Context `{CaseTable}.

Import Index.

(** The trie of the reference field is never written. *)
Lemma Built_reference_trie fields idx ii :
  Built fields idx -> FieldIndexes idx !! str "id" = Some ii -> ii = NewInvertedIndex.
Proof.
  induction 1 as [|idx doc idx' Hb IH Hadd]; intros Hii.
  - rewrite NewIndex_lookup in Hii. destruct (decide (str "id" ∈ fields)); congruence.
  - destruct (Built_wf fields idx Hb) as [Hwf _]. pose proof Hwf as [Href _].
    destruct (AddDoc_invariant
                (fun st => ls_indexes st !! str "id" = FieldIndexes idx !! str "id")
                idx doc Hwf) as (st' & Hst' & Hsame & _).
    + intros st f st1 _ Hfd Hi Hstep.
      apply processField_cases in Hstep; [|by apply elem_of_dom].
      destruct Hstep as [->|(fv & iif & Hnf & _ & _ & Hi1 & _)]; [done|].
      rewrite Hi1, lookup_insert_ne; [done|]. by rewrite <- Href.
    + done.
    + rewrite Hadd in Hst'. injection Hst' as ->. simpl in Hii.
      apply IH. congruence.
Qed.

Lemma ToMap_fields idx : ToMap idx !! str "fields" = Some (AStrings (Fields idx)).
Proof. reflexivity. Qed.

Lemma ToMap_index idx :
  ToMap idx !! str "index"
  = Some (AMap ((fun fieldIndex => AMap {[ str "root" := ARoot (Root fieldIndex) ]})
                  <$> FieldIndexes idx)).
Proof. reflexivity. Qed.

(** C3, as amended. For every index built from NewIndex by AddDoc calls, the
    "fields" entry of ToMap is the field list of the construction, in its
    order, and the "index" entry has one value per field of that list, the
    reference field included, each a map whose only key is "root"; the root
    of the reference field "id" is the empty trie. In scenario 3 the entries
    of "title" and "body" hold tries with the tokens of the document, and
    "id" has an entry too, with an empty root. *)
Theorem ToMap_fields_and_index_entries :
  (forall fields idx,
      Built fields idx ->
      ToMap idx !! str "fields" = Some (AStrings fields)
      /\ exists nested,
           ToMap idx !! str "index" = Some (AMap nested)
           /\ (forall field, is_Some (nested !! field) <-> field ∈ fields)
           /\ (forall field entry,
                 nested !! field = Some entry ->
                 exists ii, FieldIndexes idx !! field = Some ii
                            /\ entry = AMap {[ str "root" := ARoot (Root ii) ]})
           /\ (str "id" ∈ fields ->
               nested !! str "id"
               = Some (AMap {[ str "root" := ARoot newIndexItem ]})))
  /\ exists idx nested titleIndex bodyIndex,
       AddDoc (NewIndex scenarioFields) scenarioDoc = Some idx
       /\ ToMap idx !! str "fields"
          = Some (AStrings (str <$> ["id"; "title"; "body"]%string))
       /\ ToMap idx !! str "index" = Some (AMap nested)
       /\ nested !! str "title"
          = Some (AMap {[ str "root" := ARoot (Root titleIndex) ]})
       /\ HasToken titleIndex (str "quick") = true
       /\ nested !! str "body"
          = Some (AMap {[ str "root" := ARoot (Root bodyIndex) ]})
       /\ HasToken bodyIndex (str "runn") = true
       /\ nested !! str "id" = Some (AMap {[ str "root" := ARoot newIndexItem ]}).
Proof.
  assert (forall fields idx,
      Built fields idx ->
      ToMap idx !! str "fields" = Some (AStrings fields)
      /\ exists nested,
           ToMap idx !! str "index" = Some (AMap nested)
           /\ (forall field, is_Some (nested !! field) <-> field ∈ fields)
           /\ (forall field entry,
                 nested !! field = Some entry ->
                 exists ii, FieldIndexes idx !! field = Some ii
                            /\ entry = AMap {[ str "root" := ARoot (Root ii) ]})
           /\ (str "id" ∈ fields ->
               nested !! str "id"
               = Some (AMap {[ str "root" := ARoot newIndexItem ]}))) as Hgeneral.
  { intros fields idx Hb. destruct (Built_wf fields idx Hb) as [Hwf Hf].
    split; [by rewrite ToMap_fields, Hf|].
    eexists. split; [apply ToMap_index|]. split; [|split].
    - intros field. rewrite lookup_fmap, fmap_is_Some, <- elem_of_dom.
      by rewrite (Built_dom fields idx Hb), elem_of_list_to_set.
    - intros field entry. rewrite lookup_fmap.
      destruct (FieldIndexes idx !! field) as [ii|]; [|done].
      intros [= <-]. by exists ii.
    - intros Hid. rewrite lookup_fmap.
      assert (str "id" ∈ dom (FieldIndexes idx)) as [ii Hii]%elem_of_dom.
      { by rewrite (Built_dom fields idx Hb), elem_of_list_to_set. }
      rewrite Hii. by rewrite (Built_reference_trie fields idx ii Hb Hii). }
  split; [exact Hgeneral|].
  pose proof (NewIndex_wf scenarioFields) as Hwf.
  assert (forall field fieldVal token,
             field ∈ scenarioFields -> field <> str "id" ->
             scenarioDoc !! field = Some fieldVal ->
             token ∈ tokenize (Sprintf_v fieldVal) -> isStopWord token = false ->
             exists idx ii, AddDoc (NewIndex scenarioFields) scenarioDoc = Some idx
                            /\ FieldIndexes idx !! field = Some ii
                            /\ HasToken ii (stem token) = true) as Hstem.
  { intros field fieldVal token Hin Hne Hdoc Htok Hstop.
    by apply AddDoc_indexes_stems with fieldVal. }
  destruct (Hstem (str "title") (VString (str "Quick Brown Foxes")) (str "quick"))
    as (idx & titleIndex & Hadd & Htitle & Hquick); [compute_done..|].
  destruct (Hstem (str "body") (VString (str "Running jumped runner's")) (str "running"))
    as (idx2 & bodyIndex & Hadd2 & Hbody & Hrunn); [compute_done..|].
  rewrite Hadd in Hadd2. injection Hadd2 as <-.
  assert (Built scenarioFields idx) as Hb by (eapply Built_add; [apply Built_new|done]).
  destruct (Hgeneral scenarioFields idx Hb) as (Hfields & nested & Hindex & _ & _ & Hid).
  exists idx, nested, titleIndex, bodyIndex.
  rewrite ToMap_index in Hindex. injection Hindex as <-.
  split; [done|]. split; [done|]. split; [apply ToMap_index|].
  split; [by rewrite lookup_fmap, Htitle|]. split; [exact Hquick|].
  split; [by rewrite lookup_fmap, Hbody|]. split; [exact Hrunn|].
  apply Hid. compute_done.
Qed.

End ToMapProofs.

(** C3, the statement as written fails: in scenario 3 the "index" entry of
    ToMap does hold a value for "id" (with a "root" key, over an empty
    trie). *)
Lemma scenario3_index_has_id_entry :
  (@Index.AddDoc latin1Table (Index.NewIndex scenarioFields) scenarioDoc
     ≫= fun idx =>
          Index.ToMap idx !! str "index"
            ≫= fun index =>
                 match index with
                 | Index.AMap nested => nested !! str "id"
                 | _ => None
                 end)
  = Some (Index.AMap {[ str "root" := Index.ARoot newIndexItem ]}).
Proof. vm_compute. reflexivity. Qed.

(* ===================================================================== *)
(** ** Term weights: an instance, and the limits of the statement *)
(* ===================================================================== *)

(** A document with a field that the index does not list: the listed field
    gets its length, the other one neither a trie nor a length. *)
Lemma AddDoc_posts_sqrt_weights_witness :
  NoDup (str <$> ["id"; "title"]%string)
  /\ unlistedFieldDoc !! str "body" = Some (VString (str "hello world"))
  /\ exists idx,
       @Index.AddDoc latin1Table (Index.NewIndex (str <$> ["id"; "title"]%string))
         unlistedFieldDoc = Some idx
       /\ DocumentStore.GetFieldLength (Index.Store idx) (str "1") (str "title") = 1
       /\ Index.FieldIndexes idx !! str "body" = None
       /\ DocumentStore.GetFieldLength (Index.Store idx) (str "1") (str "body") = 0.
Proof.
  assert (NoDup (str <$> ["id"; "title"]%string)) as Hnd by compute_done.
  split; [exact Hnd|]. split; [reflexivity|].
  destruct (@AddDoc_posts_sqrt_weights latin1Table (str <$> ["id"; "title"]%string)
              (Index.NewIndex (str <$> ["id"; "title"]%string)) unlistedFieldDoc Hnd
              (@Built_new latin1Table (str <$> ["id"; "title"]%string)))
    as (idx & Hadd & Hlisted & Hunlisted).
  exists idx. split; [exact Hadd|].
  destruct (Hlisted (str "title") (VString (str "x"))
              ltac:(compute_done) ltac:(compute_done) eq_refl eq_refl)
    as (_ & _ & _ & _ & _ & _ & _ & _ & _ & Hlen).
  destruct (Hunlisted (str "body") ltac:(compute_done)) as [Hnone Hzero].
  split; [exact Hlen|]. split; [exact Hnone|exact (Hzero (str "1"))].
Defined.

(** C4, the statement as written fails in two ways. A field that the
    document has but the field list of the index has not is never processed:
    its length stays 0 though it has two distinct tokens. And when the field
    list names a field twice, the frequency map of the field is counted
    twice: the token that occurs once gets the weight sqrt(2). *)
Lemma AddDoc_unlisted_and_repeated_fields :
  size (list_to_set (@processedOf latin1Table (VString (str "hello world")))
          : gset gostring) = 2%nat
  /\ (@Index.AddDoc latin1Table (Index.NewIndex (str <$> ["id"; "title"]%string))
        unlistedFieldDoc
        ≫= fun idx =>
             Some (DocumentStore.GetFieldLength (Index.Store idx) (str "1") (str "body")))
     = Some 0
  /\ occurrences (str "cat") (@processedOf latin1Table (VString (str "cat"))) = 1
  /\ (@Index.AddDoc latin1Table (Index.NewIndex (str <$> ["id"; "body"; "body"]%string))
        repeatedFieldDoc
        ≫= fun idx =>
             Index.FieldIndexes idx !! str "body"
               ≫= fun ii => GetDocs ii (str "cat") ≫= fun docs => docs !! str "1")
     = Some (Float64.Sqrt (Float64.of_int 2))
  /\ Float64.Sqrt (Float64.of_int 2) <> Float64.Sqrt (Float64.of_int 1).
Proof. vm_compute. repeat split; try reflexivity. intros Heq. discriminate Heq. Qed.

(* ===================================================================== *)
(** ** Further properties of the inverted index *)
(* ===================================================================== *)

Section AddTokenAlgebra.

Lemma postDF_comm (r1 r2 : gostring) (w1 w2 : float64)
    (docs : gmap gostring TermFrequency) (df : Z) :
  r1 <> r2 ->
  postDF r1 (postDocs r2 w2 docs) (postDF r2 docs df)
  = postDF r2 (postDocs r1 w1 docs) (postDF r1 docs df).
Proof.
  intros Hne. unfold postDF, postDocs.
  rewrite !lookup_insert_ne by done.
  by destruct (decide (is_Some (docs !! r1))), (decide (is_Some (docs !! r2))).
Qed.

Lemma addAt_comm_refs r1 r2 w1 w2 t1 : forall t2 ii,
  t1 <> t2 \/ r1 <> r2 ->
  addAt r1 w1 t1 (addAt r2 w2 t2 ii) = addAt r2 w2 t2 (addAt r1 w1 t1 ii).
Proof.
  induction t1 as [|c1 q1 IH]; intros t2 ii Hne.
  - destruct t2 as [|c2 q2]; [|by rewrite !addAt_nil, !addAt_cons].
    destruct Hne as [?|Hr]; [done|]. rewrite !addAt_nil. cbn [Docs DF Children].
    f_equal.
    + apply insert_insert_ne. done.
    + by apply (postDF_comm r1 r2 w1 w2).
  - destruct t2 as [|c2 q2]; [by rewrite !addAt_nil, !addAt_cons|].
    rewrite !addAt_cons. cbn [Docs DF Children]. f_equal.
    destruct (decide (c1 = c2)) as [->|Hc].
    + rewrite !lookup_insert_eq, !insert_insert_eq. simpl. f_equal.
      apply IH. destruct Hne as [Ht|Hr]; [left; congruence|by right].
    + rewrite !lookup_insert_ne by (unfold edge; congruence).
      apply insert_insert_ne. unfold edge. congruence.
Qed.

Lemma addAt_overwrite r w1 w2 token : forall ii,
  addAt r w2 token (addAt r w1 token ii) = addAt r w2 token ii.
Proof.
  induction token as [|ch rest IH]; intros ii.
  - rewrite !addAt_nil. cbn [Docs DF Children]. f_equal.
    + apply insert_insert_eq.
    + unfold postDF, postDocs. by rewrite decide_True by (by rewrite lookup_insert_eq).
  - rewrite !addAt_cons. cbn [Docs DF Children].
    rewrite lookup_insert_eq, insert_insert_eq. simpl. by rewrite IH.
Qed.

(** X1. Two AddToken calls that differ in their token or in their reference
    commute: the index does not depend on the order in which postings for
    different (reference, token) pairs arrive. *)
Theorem AddToken_calls_commute ii r1 t1 w1 r2 t2 w2 :
  t1 <> t2 \/ r1 <> r2 ->
  AddToken (AddToken ii r1 t1 w1) r2 t2 w2
  = AddToken (AddToken ii r2 t2 w2) r1 t1 w1.
Proof.
  intros Hne. destruct ii as [root]. unfold AddToken. simpl.
  destruct (len t1 =? 0), (len t2 =? 0); simpl; try done.
  f_equal. apply addAt_comm_refs. destruct Hne as [?|?]; [left; congruence|by right].
Qed.

(** X2. A second AddToken call for the same reference and token replaces the
    first one entirely: the index is the one the second call alone gives. In
    particular a repeated call changes nothing. *)
Theorem AddToken_last_call_wins ii r token w1 w2 :
  AddToken (AddToken ii r token w1) r token w2 = AddToken ii r token w2.
Proof.
  destruct ii as [root]. unfold AddToken. simpl.
  destruct (len token =? 0); simpl; [done|]. f_equal. apply addAt_overwrite.
Qed.

End AddTokenAlgebra.

Lemma AddToken_calls_commute_witness :
  (str "cat" <> str "car" \/ str "d1" <> str "d1")
  /\ AddToken (AddToken NewInvertedIndex (str "d1") (str "cat") one) (str "d1") (str "car") two
     = AddToken (AddToken NewInvertedIndex (str "d1") (str "car") two) (str "d1") (str "cat") one.
Proof.
  assert (str "cat" <> str "car" \/ str "d1" <> str "d1") as Hne by (left; discriminate).
  split; [exact Hne|]. exact (AddToken_calls_commute _ _ _ _ _ _ _ Hne).
Defined.

Section PostingListProofs.

Lemma GetDocs_default ii p :
  default ∅ (GetDocs ii p) = TF <$> Docs (nodeAt p (Root ii)).
Proof.
  unfold GetDocs, GetNode, nodeAt. destruct (getAt p (Root ii)); [done|].
  simpl. by rewrite fmap_empty.
Qed.

(** X3. AddToken on a non-empty token sets one entry of the document map of
    that token (creating the map when the token is new) and leaves the
    documents and the frequency of every other token of the index as they
    were. *)
Theorem AddToken_sets_one_posting ii r token w :
  token <> [] ->
  GetDocs (AddToken ii r token w) token
  = Some (<[r := w]> (default ∅ (GetDocs ii token)))
  /\ (forall p, p <> token -> HasToken ii p = true ->
                GetDocs (AddToken ii r token w) p = GetDocs ii p
                /\ GetDocFrequency (AddToken ii r token w) p = GetDocFrequency ii p).
Proof.
  intros Hne. split.
  - rewrite GetDocs_nodeAt by (apply is_Some_GetNode_AddToken; right; by split).
    rewrite Docs_nodeAt_AddToken, decide_True by done.
    unfold postDocs. by rewrite fmap_insert, GetDocs_default.
  - intros p Hp Hhas. apply HasToken_true in Hhas. split.
    + rewrite !GetDocs_nodeAt; [|done|apply is_Some_GetNode_AddToken; by left].
      rewrite Docs_nodeAt_AddToken. by rewrite decide_False by (intros [? _]; congruence).
    + rewrite !GetDocFrequency_nodeAt, DF_nodeAt_AddToken.
      by rewrite decide_False by (intros [? _]; congruence).
Qed.

Lemma lastWeight_snoc calls c ref token :
  lastWeight (calls ++ [c]) ref token
  = if decide (c_ref c = ref /\ c_token c = token) then Some (c_weight c)
    else lastWeight calls ref token.
Proof.
  unfold lastWeight. rewrite filter_app, fmap_app, filter_cons, filter_nil.
  destruct (decide (c_ref c = ref /\ c_token c = token)); simpl.
  - by rewrite last_snoc.
  - by rewrite app_nil_r.
Qed.

Lemma postings_lookup calls ref token :
  token <> [] ->
  TF <$> (postings calls token !! ref) = lastWeight calls ref token.
Proof.
  intros Hne. induction calls as [|c calls IH] using rev_ind; [done|].
  rewrite postings_snoc, lastWeight_snoc.
  unfold postDocs.
  destruct (decide (c_ref c = ref /\ c_token c = token)) as [[Hr Ht]|Hno].
  - rewrite decide_True by done. subst ref. by rewrite lookup_insert_eq.
  - case_decide as Hd; [|exact IH]. rewrite lookup_insert_ne; [exact IH|]. tauto.
Qed.

(** X4. After any sequence of AddToken calls on the empty index, the weight
    that GetDocs reports for a reference under a non-empty token is the
    weight of the last call made for that reference and token, and there is
    none when no such call was made. *)
Theorem GetDocs_reports_last_weight calls ref token :
  token <> [] ->
  GetDocs (addTokenCalls calls NewInvertedIndex) token ≫= (fun docs => docs !! ref)
  = lastWeight calls ref token.
Proof.
  intros Hne. rewrite <- (postings_lookup calls ref token Hne).
  pose proof (built_nodeAt calls token) as [Hd _]. simpl in Hd. rewrite <- Hd.
  unfold GetDocs, GetNode, nodeAt.
  destruct (getAt token (Root (addTokenCalls calls NewInvertedIndex))); simpl.
  - by rewrite lookup_fmap.
  - by rewrite lookup_empty.
Qed.

Lemma getAt_app p q : forall ii,
  getAt (p ++ q) ii = getAt p ii ≫= getAt q.
Proof.
  induction p as [|ch p IH]; intros ii; [done|].
  simpl. destruct (Children ii !! edge ch); [apply IH|done].
Qed.

(** X5. On every inverted index the tokens that HasToken accepts are closed
    under prefixes, and AddToken never removes one. *)
Theorem HasToken_prefix_closed_and_monotone ii :
  (forall p q, HasToken ii (p ++ q) = true -> HasToken ii p = true)
  /\ (forall r token w p,
        HasToken ii p = true -> HasToken (AddToken ii r token w) p = true).
Proof.
  split.
  - intros p q. rewrite !HasToken_true. unfold GetNode. rewrite getAt_app.
    destruct (getAt p (Root ii)); [by eexists|]. simpl. by intros [? ?].
  - intros r token w p. rewrite !HasToken_true, is_Some_GetNode_AddToken. by left.
Qed.

(** X6. MarshalJSON returns an error in two cases only, whatever the keys
    and counts of the trie. One is a weight, at some node, that is NaN or
    infinite and has to be encoded: the weights of a node are encoded unless
    a child of the node has the key "docs", whose object then takes their
    place. The other is a child whose object is nested deeper than 10000
    levels, which json.Unmarshal refuses when MarshalJSON reads it back. The
    object returned is nested as deep as the trie: one level for each node
    on its longest path, and two more for a posting list that is written. *)
Theorem MarshalJSON_error_conditions : forall ii,
  (is_Some (MarshalJSON ii)
   <-> AllNodes (fun node =>
                   (is_Some (Children node !! key_docs)
                    \/ map_Forall (fun _ t => Float64.is_finite (TF t) = true)
                                  (Docs node))
                   /\ map_Forall (fun _ child => wireDepth child <= maxNestingDepth)
                                 (Children node)) ii)
  /\ (forall j, MarshalJSON ii = Some j -> jsonDepth j = wireDepth ii).
Proof.
  intros ii. destruct (MarshalJSON_spec ii) as [Hsome Hdepth]. split.
  - exact Hsome.
  - intros j Hj. by destruct (Hdepth j Hj).
Qed.

End PostingListProofs.

Lemma AddToken_sets_one_posting_witness :
  str "cat" <> []
  /\ GetDocs (AddToken NewInvertedIndex (str "d1") (str "cat") one) (str "cat")
     = Some (<[str "d1" := one]> (default ∅ (GetDocs NewInvertedIndex (str "cat")))).
Proof.
  assert (str "cat" <> []) as Hne by discriminate.
  split; [exact Hne|].
  exact (proj1 (AddToken_sets_one_posting NewInvertedIndex (str "d1") (str "cat") one Hne)).
Defined.

Lemma GetDocs_reports_last_weight_witness :
  str "cat" <> []
  /\ GetDocs (addTokenCalls sampleCalls NewInvertedIndex) (str "cat")
       ≫= (fun docs => docs !! str "d1")
     = lastWeight sampleCalls (str "d1") (str "cat").
Proof.
  assert (str "cat" <> []) as Hne by discriminate.
  split; [exact Hne|].
  exact (GetDocs_reports_last_weight sampleCalls (str "d1") (str "cat") Hne).
Defined.

(* ===================================================================== *)
(** ** Further properties of the document store *)
(* ===================================================================== *)

Section DocumentStoreLookupProofs.

Import DocumentStore.

Lemma lastDoc_snoc calls c ref :
  lastDoc (calls ++ [c]) ref
  = if decide (c.1 = ref) then Some c.2 else lastDoc calls ref.
Proof.
  unfold lastDoc. rewrite filter_app, fmap_app, filter_cons, filter_nil.
  destruct (decide (c.1 = ref)); simpl.
  - by rewrite last_snoc.
  - by rewrite app_nil_r.
Qed.

(** X7. After any sequence of AddDoc calls on a new store, GetDoc finds a
    reference exactly when a call was made for it, and returns the document
    of the last such call (the empty placeholder when the store does not
    save documents); HasDoc agrees with GetDoc. *)
Theorem GetDoc_returns_last_document calls save ref :
  let ds := addDocCalls calls (NewDocumentStore save) in
  GetDoc ds ref = (fun doc => if save then doc else ∅) <$> lastDoc calls ref
  /\ (HasDoc ds ref = true <-> is_Some (GetDoc ds ref))
  /\ (is_Some (GetDoc ds ref) <-> ref ∈ calls.*1).
Proof.
  intros ds. subst ds.
  assert (GetDoc (addDocCalls calls (NewDocumentStore save)) ref
          = (fun doc => if save then doc else ∅) <$> lastDoc calls ref) as Hget.
  { induction calls as [|c calls IH] using rev_ind; [done|].
    rewrite addDocCalls_snoc, lastDoc_snoc. unfold GetDoc, AddDoc. simpl.
    rewrite Save_addDocCalls. simpl.
    destruct (decide (c.1 = ref)) as [->|Hne].
    - destruct save; by rewrite lookup_insert_eq.
    - destruct save; by rewrite lookup_insert_ne. }
  split; [exact Hget|]. split.
  - unfold HasDoc, GetDoc. apply bool_decide_eq_true.
  - pose proof (addDocCalls_inv calls save) as [Hdom _]. simpl in Hdom.
    unfold GetDoc. rewrite <- elem_of_dom, Hdom. unfold storedRefs.
    by rewrite elem_of_list_to_set.
Qed.

(** X8. Field lengths are a two-level map with last write wins: after
    AddFieldLength, GetFieldLength returns the new length for that reference
    and field and the former value for every other pair (0 when none was
    recorded). AddFieldLength touches neither the documents nor Length, and
    AddDoc of the store touches no field length, so the lengths recorded for
    a reference survive when its document is stored again. *)
Theorem GetFieldLength_AddFieldLength_lookup ds docRef field n :
  (forall r f,
      GetFieldLength (AddFieldLength ds docRef field n) r f
      = if decide (r = docRef /\ f = field) then n else GetFieldLength ds r f)
  /\ (forall r, GetDoc (AddFieldLength ds docRef field n) r = GetDoc ds r)
  /\ Length (AddFieldLength ds docRef field n) = Length ds
  /\ (forall doc r f, GetFieldLength (AddDoc ds docRef doc) r f = GetFieldLength ds r f)
  /\ (forall save r f, GetFieldLength (NewDocumentStore save) r f = 0).
Proof.
  split; [|by repeat split].
  intros r f. unfold GetFieldLength, AddFieldLength. simpl.
  destruct (decide (r = docRef)) as [->|Hr].
  - rewrite lookup_insert_eq. destruct (decide (f = field)) as [->|Hf].
    + by rewrite lookup_insert_eq, decide_True.
    + rewrite lookup_insert_ne by done. rewrite decide_False by tauto.
      by destruct (DocInfo ds !! docRef).
  - rewrite lookup_insert_ne by done. by rewrite decide_False by tauto.
Qed.

End DocumentStoreLookupProofs.

(* ===================================================================== *)
(** ** Further properties of the tokenizer and the stemmer *)
(* ===================================================================== *)

Section TextAlgebra.
Context `{CaseTable}.

Lemma splitOn_app_separator sep a s b :
  sep s = true -> splitOn sep (a ++ s :: b) = splitOn sep a ++ splitOn sep b.
Proof.
  intros Hs. induction a as [|r a IH]; simpl.
  - by rewrite Hs.
  - rewrite IH. destruct (sep r); [done|].
    pose proof (splitOn_not_nil sep a) as Hne.
    by destruct (splitOn sep a).
Qed.

Lemma keep_app l1 l2 : keep (l1 ++ l2) = keep l1 ++ keep l2.
Proof. unfold keep. by rewrite filter_app, fmap_app, filter_app. Qed.

(** X9. The tokenizer works piece by piece: the tokens of a text with a
    separator (white space or hyphen) in it are the tokens of what precedes
    the separator followed by the tokens of what follows it. So a separator
    at either end, or a run of separators, adds no token. *)
Theorem tokenize_app_separator a s b :
  isSeparator s = true ->
  tokenize (a ++ s :: b) = tokenize a ++ tokenize b.
Proof.
  intros Hs. rewrite !tokenize_eq_spec. unfold tokenize_spec.
  rewrite (splitOn_app_separator isSeparator a s b Hs).
  exact (keep_app _ _).
Qed.

Lemma stripFirst_removed rules word n :
  Forall (fun rule : gostring * Z => (length rule.1 <= n)%nat) rules ->
  exists removed,
    word = stripFirst rules word ++ removed /\ (length removed <= n)%nat.
Proof.
  induction 1 as [|[suffix minLen] rules Hs _ IH]; simpl.
  - exists []. split; [by rewrite app_nil_r|simpl; lia].
  - destruct (HasSuffix word suffix && (len suffix + minLen <? len word)); [|exact IH].
    exists (drop (length word - length suffix) word). split.
    + unfold cutSuffix. by rewrite take_drop.
    + rewrite length_drop. simpl in Hs. lia.
Qed.

(** X10. On a word of more than two bytes the stemmer only cuts letters off
    the end of the lower-cased word: the stem is a prefix of it that is not
    empty, and at most 13 code points are removed (3 by the first group, 3
    by the second, 4 by the third and 3 by the fourth). *)
Theorem stem_is_prefix_of_lowercase word :
  2 < len word ->
  exists removed,
    ToLower word = stem word ++ removed
    /\ (length removed <= 13)%nat
    /\ stem word <> []
    /\ len (stem word) <= len (ToLower word).
Proof.
  intros Hlen.
  assert (word <> []) as Hne by (intros ->; by rewrite len_nil in Hlen).
  pose proof (stem_nonempty word Hne) as Hstem.
  rewrite (stem_long word Hlen) in *.
  destruct (stripFirst_removed group1 (ToLower word) 3) as (r1 & E1 & L1);
    [repeat constructor|].
  set (w1 := stripFirst group1 (ToLower word)) in *.
  destruct (stripFirst_removed group2 w1 3) as (r2 & E2 & L2);
    [repeat constructor|].
  set (w2 := stripFirst group2 w1) in *.
  destruct (stripFirst_removed group3 w2 4) as (r3 & E3 & L3);
    [repeat constructor|].
  set (w3 := stripFirst group3 w2) in *.
  destruct (stripFirst_removed group4 w3 3) as (r4 & E4 & L4);
    [repeat constructor|].
  set (w4 := stripFirst group4 w3) in *.
  assert (ToLower word = w4 ++ (r4 ++ r3 ++ r2 ++ r1)) as E.
  { rewrite E1 at 1. rewrite E2 at 1. rewrite E3 at 1. rewrite E4 at 1.
    by rewrite <- !app_assoc. }
  exists (r4 ++ r3 ++ r2 ++ r1). split; [exact E|]. split.
  - rewrite !length_app. lia.
  - split; [exact Hstem|]. rewrite E at 1. rewrite len_app.
    pose proof (len_nonneg (r4 ++ r3 ++ r2 ++ r1)). lia.
Qed.

End TextAlgebra.

Lemma tokenize_app_separator_witness :
  @tokenize latin1Table (str "Hello" ++ 32 :: str "big-World")
  = @tokenize latin1Table (str "Hello") ++ @tokenize latin1Table (str "big-World").
Proof. apply (@tokenize_app_separator latin1Table). reflexivity. Defined.

Lemma stem_is_prefix_of_lowercase_witness :
  exists removed,
    @ToLower latin1Table (str "Nations") = @stem latin1Table (str "Nations") ++ removed
    /\ (length removed <= 13)%nat
    /\ @stem latin1Table (str "Nations") <> []
    /\ len (@stem latin1Table (str "Nations")) <= len (@ToLower latin1Table (str "Nations")).
Proof. apply (@stem_is_prefix_of_lowercase latin1Table). vm_compute. reflexivity. Defined.

(* ===================================================================== *)
(** ** Further properties of the index *)
(* ===================================================================== *)

Section IndexInvariantProofs.
Context `{CaseTable}.

Import Index.

(** A property that every [AddToken] call of the loop keeps holds after the
    loop, when the tokens it is called with are known. *)
Lemma addTokens_rel (R : InvertedIndex -> Prop) (allowed : gostring -> Prop)
    (docRef : gostring) (freq : gmap gostring Z) (ii : InvertedIndex) :
  R ii ->
  (forall acc t w, allowed t -> R acc -> R (AddToken acc docRef t w)) ->
  (forall t, is_Some (freq !! t) -> allowed t) ->
  R (addTokens docRef freq ii).
Proof.
  intros Hii Hstep. unfold addTokens.
  apply (map_fold_weak_ind
           (fun acc (m : gmap gostring Z) =>
              (forall t, is_Some (m !! t) -> allowed t) -> R acc)).
  - intros _. exact Hii.
  - intros t c m acc Hnone IH Hall. apply Hstep.
    + apply Hall. rewrite lookup_insert_eq. by eexists.
    + apply IH. intros t' Ht'. apply Hall. rewrite lookup_insert_ne; [exact Ht'|].
      intros ->. rewrite Hnone in Ht'. by destruct Ht'.
Qed.

(** A relation between the trie of a field before and after [AddDoc]: it
    holds when it is reflexive and every [AddToken] call for the reference of
    the document, with a processed token of that field, keeps it. *)
Lemma AddDoc_tries_rel (R : gostring -> InvertedIndex -> InvertedIndex -> Prop) idx doc :
  wfIndex idx ->
  (forall field ii, R field ii ii) ->
  (forall field fieldVal ii0 ii t w,
      field <> Ref idx -> doc !! field = Some fieldVal -> t ∈ processedOf fieldVal ->
      R field ii0 ii -> R field ii0 (AddToken ii (docRefOf idx doc) t w)) ->
  exists idx',
    AddDoc idx doc = Some idx'
    /\ forall field ii0, FieldIndexes idx !! field = Some ii0 ->
         exists ii', FieldIndexes idx' !! field = Some ii' /\ R field ii0 ii'.
Proof.
  intros Hwf Hrefl Hstep.
  destruct (AddDoc_invariant
    (fun st =>
       (forall field ii0, FieldIndexes idx !! field = Some ii0 ->
          exists ii', ls_indexes st !! field = Some ii' /\ R field ii0 ii')
       /\ (forall field freq t,
             ls_tokenFreq st !! field = Some freq -> is_Some (freq !! t) ->
             exists fieldVal, doc !! field = Some fieldVal /\ t ∈ processedOf fieldVal))
    idx doc Hwf) as (st' & Hadd & [HI _] & _).
  - intros st field st1 Hf Hfd [Hidx Htf] Hstep'.
    apply processField_cases in Hstep'; [|by apply elem_of_dom].
    destruct Hstep' as [->|(fieldVal & ii & Hne & Hdoc & Hii & Hi1 & Hf1 & Hs1)];
      [by split|].
    assert (forall t,
               is_Some (countTokens (default ∅ (ls_tokenFreq st !! field))
                                    (processedOf fieldVal) !! t) ->
               t ∈ processedOf fieldVal) as Hkeys.
    { intros t Ht. apply elem_of_dom in Ht. rewrite countTokens_dom in Ht.
      apply elem_of_union in Ht as [Ht|Ht].
      - destruct (ls_tokenFreq st !! field) as [freq|] eqn:Hfreq; simpl in Ht.
        + apply elem_of_dom in Ht.
          destruct (Htf field freq t Hfreq Ht) as (v & Hv & Hin).
          rewrite Hdoc in Hv. injection Hv as <-. exact Hin.
        + rewrite dom_empty_L in Ht. by apply elem_of_empty in Ht.
      - apply elem_of_list_to_set in Ht. exact Ht. }
    split.
    + intros f ii0 Hf0. destruct (Hidx f ii0 Hf0) as (ii' & Hii' & HR). rewrite Hi1.
      destruct (decide (f = field)) as [->|Hd].
      * rewrite lookup_insert_eq. eexists. split; [reflexivity|].
        rewrite Hii in Hii'. injection Hii' as <-.
        apply (addTokens_rel (R field ii0) (fun t => t ∈ processedOf fieldVal));
          [exact HR| |exact Hkeys].
        intros acc t w Ht Hacc. exact (Hstep field fieldVal ii0 acc t w Hne Hdoc Ht Hacc).
      * rewrite lookup_insert_ne by (intros ->; by apply Hd). exists ii'. by split.
    + intros f freq t. rewrite Hf1. destruct (decide (f = field)) as [->|Hd].
      * rewrite lookup_insert_eq. intros [= <-] Ht. exists fieldVal.
        split; [exact Hdoc|]. exact (Hkeys t Ht).
      * rewrite lookup_insert_ne by (intros ->; by apply Hd). apply Htf.
  - split.
    + intros field ii0 Hf. exists ii0. split; [exact Hf|apply Hrefl].
    + intros field freq t. simpl. rewrite lookup_empty. intros [=].
  - exists (withState idx st'). split; [exact Hadd|]. exact HI.
Qed.

(** What the loop over the fields leaves of the store it starts with. *)
Lemma AddDoc_store idx doc :
  wfIndex idx ->
  exists idx',
    AddDoc idx doc = Some idx'
    /\ DocumentStore.Docs (Store idx')
       = DocumentStore.Docs (ls_store (initState idx doc))
    /\ DocumentStore.Length (Store idx')
       = DocumentStore.Length (ls_store (initState idx doc))
    /\ DocumentStore.Save (Store idx') = DocumentStore.Save (Store idx).
Proof.
  intros Hwf.
  destruct (AddDoc_invariant
    (fun st =>
       DocumentStore.Docs (ls_store st)
       = DocumentStore.Docs (ls_store (initState idx doc))
       /\ DocumentStore.Length (ls_store st)
          = DocumentStore.Length (ls_store (initState idx doc))
       /\ DocumentStore.Save (ls_store st) = DocumentStore.Save (Store idx))
    idx doc Hwf) as (st' & Hadd & HI & _).
  - intros st field st1 Hf Hfd HI Hstep'.
    apply processField_cases in Hstep'; [|by apply elem_of_dom].
    destruct Hstep' as [->|(fieldVal & ii & _ & _ & _ & _ & _ & Hs1)]; [exact HI|].
    rewrite Hs1. exact HI.
  - by repeat split.
  - exists (withState idx st'). split; [exact Hadd|]. exact HI.
Qed.

Lemma Built_config fields idx :
  Built fields idx ->
  Ref idx = str "id" /\ Version idx = ElasticlunrVersion
  /\ Pipeline idx = str <$> ["trimmer"; "stopWordFilter"; "stemmer"]%string
  /\ Lang idx = str "English"
  /\ DocumentStore.Save (Store idx) = true.
Proof.
  induction 1 as [|idx doc idx' Hb IH Hadd]; [by repeat split|].
  destruct (Built_wf fields idx Hb) as [Hwf _].
  destruct (AddDoc_store idx doc Hwf) as (idx1 & Hadd1 & _ & _ & Hsave).
  rewrite Hadd in Hadd1. injection Hadd1 as <-.
  rewrite AddDoc_unfold in Hadd.
  destruct (processFields (Ref idx) (docRefOf idx doc) doc (initState idx doc) (Fields idx))
    as [st|]; [|discriminate].
  simpl in Hadd. injection Hadd as <-. simpl in *.
  destruct IH as (? & ? & ? & ? & ?). repeat split; congruence.
Qed.

(** X11. AddDoc never fails on an index made by NewIndex and AddDoc calls,
    whatever the document holds (missing fields, nil, numbers, no reference):
    it returns an index of the same family, with the same field list,
    reference field "id", version, pipeline and language, a field index for
    exactly the listed fields, and a store that still saves documents. *)
Theorem AddDoc_succeeds_on_built fields idx doc :
  Built fields idx ->
  exists idx',
    AddDoc idx doc = Some idx'
    /\ Built fields idx'
    /\ Fields idx' = fields
    /\ Ref idx' = str "id"
    /\ Version idx' = str "0.9.5"
    /\ Pipeline idx' = str <$> ["trimmer"; "stopWordFilter"; "stemmer"]%string
    /\ Lang idx' = str "English"
    /\ dom (FieldIndexes idx') = list_to_set fields
    /\ DocumentStore.Save (Store idx') = true.
Proof.
  intros Hb. destruct (Built_wf fields idx Hb) as [Hwf _].
  destruct (AddDoc_store idx doc Hwf) as (idx' & Hadd & _).
  pose proof (Built_add fields idx doc idx' Hb Hadd) as Hb'.
  exists idx'. split; [exact Hadd|]. split; [exact Hb'|].
  destruct (Built_wf fields idx' Hb') as [_ Hfields].
  destruct (Built_config fields idx' Hb') as (Href & Hver & Hpipe & Hlang & Hsave).
  pose proof (Built_dom fields idx' Hb') as Hdom.
  repeat split; assumption.
Qed.

Lemma lookup_docCopy ref docRef doc key :
  docCopy ref docRef doc !! key
  = if decide (key = ref) then (fun _ => VString docRef) <$> doc !! key else doc !! key.
Proof.
  unfold docCopy, document in *. etrans; [apply map_lookup_imap|].
  destruct (decide (key = ref)) as [Heq|Hne]; destruct (doc !! key); simpl; try done.
  - by rewrite decide_True.
  - by rewrite decide_False.
Qed.

(** X12. On such an index AddDoc stores, under the reference string r of the
    document (the %v form of its "id" value, "<nil>" when it has none), a
    copy of the document in which "id" holds the string r and every other
    key its value; the documents stored under other references are
    untouched, and Length grows by one exactly when r was not stored yet. *)
Theorem AddDoc_stores_copy fields idx doc :
  Built fields idx ->
  exists idx' stored,
    AddDoc idx doc = Some idx'
    /\ DocumentStore.GetDoc (Store idx') (docRefOf idx doc) = Some stored
    /\ (forall key,
          stored !! key
          = if decide (key = str "id")
            then (fun _ => VString (docRefOf idx doc)) <$> doc !! key
            else doc !! key)
    /\ (forall r, r <> docRefOf idx doc ->
                  DocumentStore.GetDoc (Store idx') r = DocumentStore.GetDoc (Store idx) r)
    /\ DocumentStore.Length (Store idx')
       = (if DocumentStore.HasDoc (Store idx) (docRefOf idx doc)
          then DocumentStore.Length (Store idx)
          else Int64.incr (DocumentStore.Length (Store idx)))
    /\ (doc !! str "id" = None -> docRefOf idx doc = str "<nil>").
Proof.
  intros Hb. destruct (Built_wf fields idx Hb) as [Hwf _].
  destruct (Built_config fields idx Hb) as (Href & _ & _ & _ & Hsave).
  destruct (AddDoc_store idx doc Hwf) as (idx' & Hadd & Hdocs & Hlen & _).
  exists idx', (docCopy (str "id") (docRefOf idx doc) doc).
  split; [exact Hadd|].
  unfold DocumentStore.GetDoc, DocumentStore.HasDoc. rewrite Hdocs, Hlen. simpl.
  rewrite Hsave, Href. split; [by rewrite lookup_insert_eq|].
  split; [intros key; apply lookup_docCopy|].
  split; [intros r Hr; by rewrite lookup_insert_ne|].
  split.
  - destruct (decide (is_Some (DocumentStore.Docs (Store idx) !! docRefOf idx doc))).
    + by rewrite bool_decide_eq_true_2.
    + by rewrite bool_decide_eq_false_2.
  - intros Hnone. unfold docRefOf, docField. by rewrite Href, Hnone.
Qed.

Lemma df_counts_AddToken ii docRef token w :
  AllNodes (fun node => DF node = Int64.wrap (Z.of_nat (size (Docs node)))) (Root ii) ->
  AllNodes (fun node => DF node = Int64.wrap (Z.of_nat (size (Docs node))))
           (Root (AddToken ii docRef token w)).
Proof.
  intros Hall. rewrite Root_AddToken. destruct (decide (token = [])); [exact Hall|].
  apply (AllNodes_addAt (fun d n => n = Int64.wrap (Z.of_nat (size d)))
                        (fun d n => n = Int64.wrap (Z.of_nat (size d)))).
  - auto.
  - reflexivity.
  - intros d df ->. apply postDF_wrap.
  - reflexivity.
  - exact Hall.
Qed.

Lemma Built_df_counts fields idx :
  Built fields idx ->
  forall field ii,
    FieldIndexes idx !! field = Some ii ->
    AllNodes (fun node => DF node = Int64.wrap (Z.of_nat (size (Docs node)))) (Root ii).
Proof.
  induction 1 as [|idx doc idx' Hb IH Hadd]; intros field ii Hii.
  - rewrite NewIndex_lookup in Hii. destruct (decide (field ∈ fields)); [|discriminate].
    injection Hii as <-. simpl. by apply AllNodes_newIndexItem.
  - destruct (Built_wf fields idx Hb) as [Hwf _].
    destruct (AddDoc_tries_rel
                (fun _ ii0 ii1 =>
                   AllNodes (fun node => DF node = Int64.wrap (Z.of_nat (size (Docs node))))
                            (Root ii0) ->
                   AllNodes (fun node => DF node = Int64.wrap (Z.of_nat (size (Docs node))))
                            (Root ii1))
                idx doc Hwf) as (idx1 & Hadd1 & Hrel).
    + auto.
    + intros f v ii0 ii1 t w _ _ _ Hrel H0. apply df_counts_AddToken. exact (Hrel H0).
    + rewrite Hadd in Hadd1. injection Hadd1 as <-.
      pose proof (AddDoc_dom idx doc idx' Hwf Hadd) as Hdom.
      assert (is_Some (FieldIndexes idx !! field)) as [ii0 Hii0].
      { apply elem_of_dom. rewrite <- Hdom. apply elem_of_dom. by eexists. }
      destruct (Hrel field ii0 Hii0) as (ii' & Hii' & Himp).
      rewrite Hii in Hii'. injection Hii' as <-. apply Himp. exact (IH field ii0 Hii0).
Qed.

(** X13. In every field index of an index made by NewIndex and AddDoc calls,
    the document frequency of every string is the number of documents in its
    document map (as an int64), and 0 for a string the trie does not hold. *)
Theorem Built_df_is_number_of_documents fields idx field ii p :
  Built fields idx ->
  FieldIndexes idx !! field = Some ii ->
  GetDocFrequency ii p = Int64.wrap (Z.of_nat (size (default ∅ (GetDocs ii p))))
  /\ (HasToken ii p = false -> GetDocFrequency ii p = 0).
Proof.
  intros Hb Hii. pose proof (Built_df_counts fields idx Hb field ii Hii) as Hall.
  unfold GetDocFrequency, GetDocs, HasToken, GetNode in *.
  destruct (getAt p (Root ii)) as [node|] eqn:Hnode; simpl.
  - split.
    + rewrite map_size_fmap. exact (AllNodes_getAt _ p (Root ii) node Hall Hnode).
    + intros Hf. discriminate Hf.
  - split; [by rewrite map_size_empty|done].
Qed.

Lemma lookup_default_GetDocs ii p (r : gostring) :
  GetDocs ii p ≫= (fun docs => docs !! r) = TF <$> Docs (nodeAt p (Root ii)) !! r.
Proof.
  unfold GetDocs, GetNode, nodeAt. destruct (getAt p (Root ii)); simpl.
  - by rewrite lookup_fmap.
  - by rewrite lookup_empty.
Qed.

(** X14. AddDoc only adds postings for the reference of its document, under
    the processed tokens of its fields: every string a field index held is
    still held; the weight of every other reference under every string is
    unchanged; and under a string that is not a processed token of the
    document's value of the field, the whole document map and the frequency
    are unchanged, so that postings of an earlier document with the same
    reference stay in the index. *)
Theorem AddDoc_keeps_other_postings fields idx doc :
  Built fields idx ->
  exists idx',
    AddDoc idx doc = Some idx'
    /\ forall field ii,
         FieldIndexes idx !! field = Some ii ->
         exists ii',
           FieldIndexes idx' !! field = Some ii'
           /\ (forall p, HasToken ii p = true -> HasToken ii' p = true)
           /\ (forall p r, r <> docRefOf idx doc ->
                 GetDocs ii' p ≫= (fun docs => docs !! r)
                 = GetDocs ii p ≫= (fun docs => docs !! r))
           /\ (forall p,
                 (forall fieldVal, doc !! field = Some fieldVal -> p ∉ processedOf fieldVal) ->
                 HasToken ii p = true ->
                 GetDocs ii' p = GetDocs ii p
                 /\ GetDocFrequency ii' p = GetDocFrequency ii p).
Proof.
  intros Hb. destruct (Built_wf fields idx Hb) as [Hwf _].
  destruct (AddDoc_tries_rel
    (fun field ii0 ii1 =>
       (forall p, is_Some (GetNode ii0 p) -> is_Some (GetNode ii1 p))
       /\ (forall p r, r <> docRefOf idx doc ->
             Docs (nodeAt p (Root ii1)) !! r = Docs (nodeAt p (Root ii0)) !! r)
       /\ (forall p,
             (forall fieldVal, doc !! field = Some fieldVal -> p ∉ processedOf fieldVal) ->
             nodeAt p (Root ii1) = nodeAt p (Root ii0) \/
             Docs (nodeAt p (Root ii1)) = Docs (nodeAt p (Root ii0))
             /\ DF (nodeAt p (Root ii1)) = DF (nodeAt p (Root ii0))))
    idx doc Hwf) as (idx' & Hadd & Hrel).
  - intros field ii. split; [auto|]. split; [auto|]. intros p _. by left.
  - intros field v ii0 ii1 t w Hne Hdoc Ht (Hhas & Hother & Hstale).
    split; [|split].
    + intros p Hp. apply is_Some_GetNode_AddToken. left. exact (Hhas p Hp).
    + intros p r Hr. rewrite Docs_nodeAt_AddToken, <- (Hother p r Hr).
      case_decide; [|reflexivity]. unfold postDocs.
      rewrite lookup_insert_ne; [reflexivity|]. intros E. apply Hr. by rewrite E.
    + intros p Hp. right.
      assert (t <> p) as Htp.
      { intros ->. exact (Hp v Hdoc Ht). }
      rewrite Docs_nodeAt_AddToken, DF_nodeAt_AddToken.
      rewrite !decide_False by (intros [E _]; by apply Htp).
      destruct (Hstale p Hp) as [->|[-> ->]]; by split.
  - exists idx'. split; [exact Hadd|]. intros field ii Hii.
    destruct (Hrel field ii Hii) as (ii' & Hii' & Hhas & Hother & Hstale).
    exists ii'. split; [exact Hii'|]. split; [|split].
    + intros p. rewrite !HasToken_true. apply Hhas.
    + intros p r Hr. rewrite !lookup_default_GetDocs. f_equal. exact (Hother p r Hr).
    + intros p Hp Hhasp. apply HasToken_true in Hhasp.
      rewrite !GetDocFrequency_nodeAt.
      rewrite (GetDocs_nodeAt ii p Hhasp), (GetDocs_nodeAt ii' p (Hhas p Hhasp)).
      destruct (Hstale p Hp) as [->|[-> ->]]; by split.
Qed.

End IndexInvariantProofs.

Section IndexWithoutFieldIndexes.
Context `{CaseTable}.

Import Index.

Lemma countTokens_empty_iff processed : countTokens ∅ processed = ∅ <-> processed = [].
Proof.
  split; [|by intros ->].
  intros Hc. pose proof (countTokens_dom ∅ processed) as Hd.
  rewrite Hc, !dom_empty_L in Hd. destruct processed as [|t l]; [reflexivity|].
  exfalso. assert (t ∈ (∅ : gset gostring)) as Ht; [|by apply elem_of_empty in Ht].
  rewrite Hd. apply elem_of_union_r, elem_of_list_to_set. left.
Qed.

Lemma processFields_without_indexes ref docRef doc fields : forall st,
  ls_indexes st = ∅ ->
  (forall f freq, ls_tokenFreq st !! f = Some freq -> freq = ∅) ->
  processFields ref docRef doc st fields = None
  <-> exists field fieldVal,
        field ∈ fields /\ field <> ref /\ doc !! field = Some fieldVal
        /\ processedOf fieldVal <> [].
Proof.
  induction fields as [|field rest IH]; intros st Hidx Htf.
  - simpl. split; [discriminate|]. intros (f & v & Hin & _). by apply elem_of_nil in Hin.
  - assert ((exists f v, f ∈ rest /\ f <> ref /\ doc !! f = Some v /\ processedOf v <> [])
            -> exists f v, f ∈ field :: rest /\ f <> ref /\ doc !! f = Some v
                           /\ processedOf v <> []) as Hweak.
    { intros (f & v & Hin & Hrest). exists f, v. split; [by right|exact Hrest]. }
    simpl. destruct (decide (field = ref \/ doc !! field = None)) as [Hskip|Hthis].
    + rewrite (processField_skip ref docRef doc st field Hskip).
      rewrite (IH st Hidx Htf). split; [exact Hweak|].
      intros (f & v & Hin & Hne & Hdoc & Hp). exists f, v.
      apply elem_of_cons in Hin as [->|Hin]; [|by repeat split].
      exfalso. destruct Hskip as [?|Hnone]; [by apply Hne|]. rewrite Hnone in Hdoc.
      discriminate Hdoc.
    + destruct (doc !! field) as [v|] eqn:Hdoc; [|exfalso; apply Hthis; by right].
      assert (field <> ref) as Hne by (intros ->; apply Hthis; by left).
      assert (default ∅ (ls_tokenFreq st !! field) = ∅) as Hold.
      { destruct (ls_tokenFreq st !! field) as [freq|] eqn:Hf; [|reflexivity].
        exact (Htf field freq Hf). }
      unfold processField. rewrite decide_False by exact Hne. rewrite Hdoc. cbv zeta.
      rewrite Hold, Hidx, lookup_empty.
      fold (processedOf v).
      destruct (decide (countTokens ∅ (processedOf v) = ∅)) as [Hempty|Hsome].
      * rewrite IH; [| reflexivity |].
        -- split; [exact Hweak|].
           intros (f & fv & Hin & Hnf & Hdf & Hp). exists f, fv.
           apply elem_of_cons in Hin as [->|Hin]; [|by repeat split].
           exfalso. rewrite Hdoc in Hdf. injection Hdf as <-.
           apply Hp. by apply countTokens_empty_iff.
        -- intros f freq. simpl. destruct (decide (f = field)) as [->|Hd].
           ++ rewrite lookup_insert_eq. by intros [= <-].
           ++ rewrite lookup_insert_ne by (intros ->; by apply Hd). apply Htf.
      * split; [|reflexivity]. intros _. exists field, v.
        split; [left|]. split; [exact Hne|]. split; [exact Hdoc|].
        intros Hnil. apply Hsome. by apply countTokens_empty_iff.
Qed.

(** X15. On an index whose map of field indexes is nil, AddDoc dereferences
    a nil field index, and so fails, exactly when some listed field other
    than the reference field is in the document with at least one processed
    token; a document without such a field is stored normally. *)
Theorem AddDoc_without_field_indexes idx doc :
  FieldIndexes idx = ∅ ->
  AddDoc idx doc = None
  <-> exists field fieldVal,
        field ∈ Fields idx /\ field <> Ref idx /\ doc !! field = Some fieldVal
        /\ processedOf fieldVal <> [].
Proof.
  intros Hempty. rewrite AddDoc_unfold, fmap_None.
  apply processFields_without_indexes; [exact Hempty|].
  intros f freq. simpl. rewrite lookup_empty. discriminate.
Qed.

End IndexWithoutFieldIndexes.

Lemma AddDoc_succeeds_on_built_witness :
  exists idx',
    @Index.AddDoc latin1Table (Index.NewIndex scenarioFields) scenarioDoc = Some idx'
    /\ Index.Fields idx' = scenarioFields
    /\ dom (Index.FieldIndexes idx') = list_to_set scenarioFields.
Proof.
  destruct (@AddDoc_succeeds_on_built latin1Table scenarioFields
              (Index.NewIndex scenarioFields) scenarioDoc
              (@Built_new latin1Table scenarioFields))
    as (idx' & Hadd & _ & Hfields & _ & _ & _ & _ & Hdom & _).
  exists idx'. split; [exact Hadd|]. split; [exact Hfields|exact Hdom].
Defined.

Lemma AddDoc_stores_copy_witness :
  exists idx' stored,
    @Index.AddDoc latin1Table (Index.NewIndex scenarioFields) scenarioDoc = Some idx'
    /\ DocumentStore.GetDoc (Index.Store idx') (str "1") = Some stored
    /\ stored !! str "id" = Some (VString (str "1")).
Proof.
  destruct (@AddDoc_stores_copy latin1Table scenarioFields
              (Index.NewIndex scenarioFields) scenarioDoc
              (@Built_new latin1Table scenarioFields))
    as (idx' & stored & Hadd & Hget & Hkeys & _).
  exists idx', stored. split; [exact Hadd|]. split; [exact Hget|].
  exact (Hkeys (str "id")).
Defined.

Lemma Built_df_is_number_of_documents_witness :
  exists idx' ii,
    @Index.AddDoc latin1Table (Index.NewIndex scenarioFields) scenarioDoc = Some idx'
    /\ Index.FieldIndexes idx' !! str "body" = Some ii
    /\ GetDocFrequency ii (str "jump")
       = Int64.wrap (Z.of_nat (size (default ∅ (GetDocs ii (str "jump"))))).
Proof.
  pose proof (@Built_new latin1Table scenarioFields) as Hnew.
  destruct (@AddDoc_store latin1Table (Index.NewIndex scenarioFields) scenarioDoc
              (NewIndex_wf scenarioFields)) as (idx' & Hadd & _).
  pose proof (@Built_add latin1Table scenarioFields _ _ _ Hnew Hadd) as Hb.
  assert (is_Some (Index.FieldIndexes idx' !! str "body")) as [ii Hii].
  { apply elem_of_dom. rewrite (@Built_dom latin1Table scenarioFields idx' Hb).
    compute_done. }
  exists idx', ii. split; [exact Hadd|]. split; [exact Hii|].
  exact (proj1 (@Built_df_is_number_of_documents latin1Table scenarioFields idx'
                  (str "body") ii (str "jump") Hb Hii)).
Defined.

Lemma AddDoc_keeps_other_postings_witness :
  @Index.AddDoc latin1Table (Index.NewIndex scenarioFields) scenarioDoc
  = Some scenarioIndex
  /\ exists ii idx' ii',
       Index.FieldIndexes scenarioIndex !! str "body" = Some ii
       /\ GetDocs ii (str "jump") ≫= (fun docs => docs !! str "1")
          = Some (Float64.Sqrt (Float64.of_int 1))
       /\ @Index.AddDoc latin1Table scenarioIndex secondDoc = Some idx'
       /\ Index.FieldIndexes idx' !! str "body" = Some ii'
       /\ GetDocs ii' (str "jump") ≫= (fun docs => docs !! str "1")
          = Some (Float64.Sqrt (Float64.of_int 1)).
Proof.
  assert (@Index.AddDoc latin1Table (Index.NewIndex scenarioFields) scenarioDoc
          = Some scenarioIndex) as Hfirst by (vm_compute; reflexivity).
  split; [exact Hfirst|].
  pose proof (@Built_add latin1Table scenarioFields _ _ _
                (@Built_new latin1Table scenarioFields) Hfirst) as Hb.
  assert (is_Some (Index.FieldIndexes scenarioIndex !! str "body")) as [ii Hii]
    by (vm_compute; by eexists).
  assert (GetDocs ii (str "jump") ≫= (fun docs => docs !! str "1")
          = Some (Float64.Sqrt (Float64.of_int 1))) as Hold.
  { assert (Some ii = Index.FieldIndexes scenarioIndex !! str "body") as Heq
      by (by rewrite Hii).
    vm_compute in Heq. injection Heq as ->. vm_compute. reflexivity. }
  destruct (@AddDoc_keeps_other_postings latin1Table scenarioFields
              scenarioIndex secondDoc Hb) as (idx' & Hadd & Hrel).
  destruct (Hrel (str "body") ii Hii) as (ii' & Hii' & _ & Hother & _).
  exists ii, idx', ii'. split; [exact Hii|]. split; [exact Hold|].
  split; [exact Hadd|]. split; [exact Hii'|].
  rewrite <- Hold. apply Hother.
  intros Href. vm_compute in Href. discriminate Href.
Defined.

Lemma AddDoc_without_field_indexes_witness :
  Index.FieldIndexes (bareIndex scenarioFields) = ∅
  /\ @Index.AddDoc latin1Table (bareIndex scenarioFields) scenarioDoc = None.
Proof.
  split; [reflexivity|].
  apply (@AddDoc_without_field_indexes latin1Table (bareIndex scenarioFields) scenarioDoc
           eq_refl).
  exists (str "body"), (VString (str "Running jumped runner's")).
  split; [compute_done|]. split; [discriminate|]. split; [reflexivity|].
  intros Hnil. vm_compute in Hnil. discriminate Hnil.
Defined.

Section AddDocTwice.
Context `{CaseTable}.

Import Index.

Lemma AddToken_twice ii (r token : gostring) (w1 w2 : float64) :
  AddToken (AddToken ii r token w1) r token w2 = AddToken ii r token w2.
Proof.
  destruct ii as [root]. unfold AddToken. simpl.
  destruct (len token =? 0); simpl; [done|]. f_equal. apply addAt_overwrite.
Qed.

Lemma foldr_AddToken_past (docRef : gostring) (l : list (gostring * Z))
    (t : gostring) (w : float64) (ii : InvertedIndex) :
  t ∉ l.*1 ->
  foldr (uncurry (fun token count acc =>
                    AddToken acc docRef token (Float64.Sqrt (Float64.of_int count))))
        (AddToken ii docRef t w) l
  = AddToken (foldr (uncurry (fun token count acc =>
                        AddToken acc docRef token (Float64.Sqrt (Float64.of_int count))))
                    ii l) docRef t w.
Proof.
  induction l as [|[t' c'] l IH]; intros Hnot; [reflexivity|].
  simpl in *. rewrite IH by (intros Hin; apply Hnot; by right).
  apply AddToken_comm. intros ->. apply Hnot. left.
Qed.

Lemma foldr_AddToken_idem (docRef : gostring) (l : list (gostring * Z)) :
  NoDup l.*1 ->
  forall ii,
    foldr (uncurry (fun token count acc =>
                      AddToken acc docRef token (Float64.Sqrt (Float64.of_int count))))
          (foldr (uncurry (fun token count acc =>
                      AddToken acc docRef token (Float64.Sqrt (Float64.of_int count))))
                 ii l) l
    = foldr (uncurry (fun token count acc =>
                      AddToken acc docRef token (Float64.Sqrt (Float64.of_int count))))
            ii l.
Proof.
  induction l as [|[t c] l IH]; intros Hnd ii; [reflexivity|].
  simpl in Hnd. apply NoDup_cons in Hnd as [Hnot Hnd].
  simpl. rewrite foldr_AddToken_past by exact Hnot.
  rewrite AddToken_twice. by rewrite IH.
Qed.

(** Posting the tokens of a frequency map a second time changes nothing. *)
Lemma addTokens_idem docRef freq ii :
  addTokens docRef freq (addTokens docRef freq ii) = addTokens docRef freq ii.
Proof.
  rewrite <- !(addTokens_any_order docRef freq _ (map_to_list freq)) by reflexivity.
  apply foldr_AddToken_idem. apply NoDup_fst_map_to_list.
Qed.

Lemma AddFieldLength_same ds docRef field n info :
  DocumentStore.DocInfo ds !! docRef = Some info -> info !! field = Some n ->
  DocumentStore.AddFieldLength ds docRef field n = ds.
Proof.
  intros Hinfo Hn. destruct ds as [save docs docInfo length].
  unfold DocumentStore.AddFieldLength. simpl in *. f_equal.
  rewrite Hinfo. simpl. rewrite (insert_id info) by exact Hn. by apply insert_id.
Qed.

Lemma DocumentStore_AddDoc_same ds docRef doc :
  DocumentStore.Docs ds !! docRef = Some (if DocumentStore.Save ds then doc else ∅) ->
  DocumentStore.AddDoc ds docRef doc = ds.
Proof.
  intros Hdoc. destruct ds as [save docs docInfo length].
  unfold DocumentStore.AddDoc. simpl in *. f_equal.
  - destruct save; by apply insert_id.
  - rewrite decide_True; [reflexivity|by eexists].
Qed.

(** The length that the store holds for a field of the document added. *)
Lemma AddDoc_field_info idx doc field fieldVal :
  wfIndex idx -> field ∈ Fields idx -> field <> Ref idx ->
  doc !! field = Some fieldVal ->
  exists idx' info,
    AddDoc idx doc = Some idx'
    /\ DocumentStore.DocInfo (Store idx') !! docRefOf idx doc = Some info
    /\ info !! field = Some (Z.of_nat (size (uniqueTokens (processedOf fieldVal)))).
Proof.
  intros [Href Hdom] Hin Hne Hdoc.
  apply list_elem_of_split in Hin as (pre & post & Hfields).
  assert (forall f, f ∈ pre \/ f = field \/ f ∈ post -> f ∈ dom (FieldIndexes idx)) as Hd.
  { intros f Hf. apply Hdom. rewrite Hfields, elem_of_app, elem_of_cons. tauto. }
  rewrite AddDoc_unfold, Hfields, processFields_app.
  destruct (processFields_invariant (fun _ => True) (Ref idx) (docRefOf idx doc) doc pre)
    with (st := initState idx doc) as (st1 & -> & _ & Hd1); [done|auto|done|].
  simpl in Hd1. simpl.
  assert (is_Some (ls_indexes st1 !! field)) as [ii Hii].
  { apply elem_of_dom. rewrite Hd1. apply Hd. tauto. }
  destruct (processField_this (Ref idx) (docRefOf idx doc) doc st1 field fieldVal ii
              Hne Hdoc Hii) as (st2 & -> & Hi2 & _ & Hs2).
  destruct (processFields_invariant
              (fun st => exists info,
                   DocumentStore.DocInfo (ls_store st) !! docRefOf idx doc = Some info
                   /\ info !! field
                      = Some (Z.of_nat (size (uniqueTokens (processedOf fieldVal)))))
              (Ref idx) (docRefOf idx doc) doc post)
    with (st := st2) as (st3 & -> & (info & Hinfo & Hn) & _).
  - intros st f st' _ Hfd (info & Hinfo & Hn) Hstep.
    apply processField_cases in Hstep; [|by apply elem_of_dom].
    destruct Hstep as [->|(fv & iif & _ & Hdf & _ & _ & _ & Hs)]; [by exists info|].
    rewrite Hs. unfold DocumentStore.AddFieldLength. simpl.
    rewrite lookup_insert_eq, Hinfo. simpl. eexists. split; [reflexivity|].
    destruct (decide (f = field)) as [->|Hdiff].
    + rewrite lookup_insert_eq. rewrite Hdoc in Hdf. by injection Hdf as <-.
    + rewrite lookup_insert_ne by exact Hdiff. exact Hn.
  - intros f Hf. rewrite Hi2, dom_insert_L, Hd1. apply elem_of_union_r, Hd. tauto.
  - rewrite Hs2. unfold DocumentStore.AddFieldLength. simpl.
    rewrite lookup_insert_eq. eexists. split; [reflexivity|]. by rewrite lookup_insert_eq.
  - exists (withState idx st3), info. by repeat split.
Qed.

(** A pass over the fields from a state that already holds what the pass
    writes leaves the store and the field indexes as they are. *)
Lemma processFields_fixed ref docRef doc store indexes fields :
  NoDup fields ->
  (forall f v, f ∈ fields -> f <> ref -> doc !! f = Some v ->
     (exists ii, indexes !! f
                 = Some (addTokens docRef (countTokens ∅ (processedOf v)) ii))
     /\ exists info,
          DocumentStore.DocInfo store !! docRef = Some info
          /\ info !! f = Some (Z.of_nat (size (uniqueTokens (processedOf v))))) ->
  forall tf,
    (forall f, f ∈ fields -> tf !! f = None) ->
    exists tf',
      processFields ref docRef doc
        {| ls_store := store; ls_indexes := indexes; ls_tokenFreq := tf |} fields
      = Some {| ls_store := store; ls_indexes := indexes; ls_tokenFreq := tf' |}.
Proof.
  induction 1 as [|field rest Hnot Hnd IH]; intros Hfacts tf Htf; [by exists tf|].
  assert (forall f v, f ∈ rest -> f <> ref -> doc !! f = Some v ->
     (exists ii, indexes !! f
                 = Some (addTokens docRef (countTokens ∅ (processedOf v)) ii))
     /\ exists info,
          DocumentStore.DocInfo store !! docRef = Some info
          /\ info !! f = Some (Z.of_nat (size (uniqueTokens (processedOf v))))) as Hrest.
  { intros f v Hf. apply Hfacts. by right. }
  simpl. destruct (decide (field = ref \/ doc !! field = None)) as [Hskip|Hthis].
  - rewrite (processField_skip ref docRef doc _ field Hskip).
    apply (IH Hrest). intros f Hf. apply Htf. by right.
  - destruct (doc !! field) as [v|] eqn:Hdoc; [|exfalso; apply Hthis; by right].
    assert (field <> ref) as Hne by (intros ->; apply Hthis; by left).
    destruct (Hfacts field v ltac:(left) Hne Hdoc) as [[ii Hii] (info & Hinfo & Hn)].
    destruct (processField_this ref docRef doc
                {| ls_store := store; ls_indexes := indexes; ls_tokenFreq := tf |}
                field v _ Hne Hdoc Hii) as (st' & -> & Hi & Ht & Hs).
    simpl in Hi, Ht, Hs. rewrite (Htf field ltac:(left)) in Hi, Ht. simpl in Hi, Ht.
    rewrite addTokens_idem, (insert_id indexes) in Hi by exact Hii.
    rewrite (AddFieldLength_same store docRef field _ info Hinfo Hn) in Hs.
    destruct st' as [store' indexes' tf']. simpl in Hi, Ht, Hs. subst store' indexes' tf'.
    apply (IH Hrest). intros f Hf. rewrite lookup_insert_ne; [apply Htf; by right|].
    intros ->. by apply Hnot.
Qed.

(** X16. Adding the same document twice in a row is the same as adding it
    once: on an index made by NewIndex on a field list without repeated names
    and AddDoc calls, a second AddDoc of the document changes neither the
    store nor any field index. *)
Theorem AddDoc_same_document_twice fields idx doc idx' :
  NoDup fields ->
  Built fields idx ->
  AddDoc idx doc = Some idx' ->
  AddDoc idx' doc = Some idx'.
Proof.
  intros Hnd Hb Hadd.
  destruct (Built_wf fields idx Hb) as [Hwf Hfields].
  destruct (Built_config fields idx Hb) as (Href & _ & _ & _ & Hsave).
  pose proof (Built_add fields idx doc idx' Hb Hadd) as Hb'.
  destruct (Built_wf fields idx' Hb') as [Hwf' Hfields'].
  destruct (Built_config fields idx' Hb') as (Href' & _ & _ & _ & Hsave').
  destruct (AddDoc_store idx doc Hwf) as (idx1 & Hadd1 & Hdocs & _).
  rewrite Hadd in Hadd1. injection Hadd1 as <-.
  assert (docRefOf idx' doc = docRefOf idx doc) as Hr.
  { unfold docRefOf. by rewrite Href, Href'. }
  rewrite AddDoc_unfold. unfold initState. rewrite Hr, Href'.
  rewrite DocumentStore_AddDoc_same; cycle 1.
  { rewrite Hdocs, Hsave'. simpl. rewrite Hsave, Href. by rewrite lookup_insert_eq. }
  destruct (processFields_fixed (str "id") (docRefOf idx doc) doc (Store idx')
              (FieldIndexes idx') (Fields idx')) with (tf := (∅ : gmap gostring (gmap gostring Z)))
    as (tf' & ->).
  - by rewrite Hfields'.
  - intros f v Hf Hne Hdoc. rewrite Hfields' in Hf. rewrite <- Hfields in Hf.
    rewrite <- Href in Hne. split.
    + assert (is_Some (FieldIndexes idx !! f)) as [ii Hii].
      { apply elem_of_dom. by apply Hwf. }
      destruct (AddDoc_field_index idx doc f v ii Hwf ltac:(by rewrite Hfields) Hf Hne
                  Hdoc Hii) as (idx1 & Hadd1 & Hi).
      rewrite Hadd in Hadd1. injection Hadd1 as <-. by exists ii.
    + destruct (AddDoc_field_info idx doc f v Hwf Hf Hne Hdoc)
        as (idx1 & info & Hadd1 & Hinfo & Hn).
      rewrite Hadd in Hadd1. injection Hadd1 as <-. by exists info.
  - intros f _. apply lookup_empty.
  - simpl. by destruct idx'.
Qed.

End AddDocTwice.

Lemma AddDoc_same_document_twice_witness :
  exists idx',
    @Index.AddDoc latin1Table (Index.NewIndex scenarioFields) scenarioDoc = Some idx'
    /\ @Index.AddDoc latin1Table idx' scenarioDoc = Some idx'.
Proof.
  destruct (@AddDoc_store latin1Table (Index.NewIndex scenarioFields) scenarioDoc
              (NewIndex_wf scenarioFields)) as (idx' & Hadd & _).
  exists idx'. split; [exact Hadd|].
  exact (@AddDoc_same_document_twice latin1Table scenarioFields
           (Index.NewIndex scenarioFields) scenarioDoc idx' ltac:(compute_done)
           (@Built_new latin1Table scenarioFields) Hadd).
Defined.

(* ===================================================================== *)
(** ** The renderer: escaping and tag stripping *)
(* ===================================================================== *)

Section EscapingProofs.

Lemma ReplaceAll_app a b old new :
  ReplaceAll (a ++ b) old new = ReplaceAll a old new ++ ReplaceAll b old new.
Proof. unfold ReplaceAll. apply bind_app. Qed.

Lemma ReplaceAll_cons r s old new :
  ReplaceAll (r :: s) old new = (if r =? old then new else [r]) ++ ReplaceAll s old new.
Proof. reflexivity. Qed.

Lemma htmlEscape_app a b : htmlEscape (a ++ b) = htmlEscape a ++ htmlEscape b.
Proof. unfold htmlEscape. by rewrite !ReplaceAll_app. Qed.

Lemma htmlEscape_one r : htmlEscape [r] = escapeRune r.
Proof.
  unfold htmlEscape, escapeRune.
  destruct (Z.eqb_spec r 38) as [->|H38]; [reflexivity|].
  destruct (Z.eqb_spec r 60) as [->|H60]; [reflexivity|].
  destruct (Z.eqb_spec r 62) as [->|H62]; [reflexivity|].
  destruct (Z.eqb_spec r 34) as [->|H34]; [reflexivity|].
  unfold ReplaceAll. simpl.
  rewrite (proj2 (Z.eqb_neq r 38) H38). simpl.
  rewrite (proj2 (Z.eqb_neq r 60) H60). simpl.
  rewrite (proj2 (Z.eqb_neq r 62) H62). simpl.
  by rewrite (proj2 (Z.eqb_neq r 34) H34).
Qed.

Lemma htmlEscape_bind s : htmlEscape s = s ≫= escapeRune.
Proof.
  induction s as [|r s IH]; [reflexivity|].
  change (r :: s) with ([r] ++ s). rewrite htmlEscape_app, bind_app, IH, htmlEscape_one.
  simpl. by rewrite app_nil_r.
Qed.

Lemma escapeRune_plain r :
  Forall (fun x => x <> 60 /\ x <> 62 /\ x <> 34) (escapeRune r).
Proof.
  unfold escapeRune.
  destruct (Z.eqb_spec r 38); [repeat constructor; discriminate|].
  destruct (Z.eqb_spec r 60); [repeat constructor; discriminate|].
  destruct (Z.eqb_spec r 62); [repeat constructor; discriminate|].
  destruct (Z.eqb_spec r 34); [repeat constructor; discriminate|].
  by repeat constructor.
Qed.

(** X17. htmlEscape, written as four successive replacements, acts as a
    single pass that rewrites each character on its own (& to &amp;, < to
    &lt;, > to &gt;, the double quote to &quot;, any other character to
    itself): the ampersands of the entities it writes are not escaped again.
    So it distributes over concatenation, and its result holds no <, no >
    and no double quote. *)
Theorem htmlEscape_single_pass s :
  htmlEscape s = s ≫= escapeRune
  /\ (forall t, htmlEscape (s ++ t) = htmlEscape s ++ htmlEscape t)
  /\ Forall (fun r => r <> 60 /\ r <> 62 /\ r <> 34) (htmlEscape s).
Proof.
  split; [apply htmlEscape_bind|]. split; [intros t; apply htmlEscape_app|].
  rewrite htmlEscape_bind. induction s as [|r s IH]; [constructor|].
  simpl. apply Forall_app. split; [apply escapeRune_plain|exact IH].
Qed.

Lemma escapeRune_cases r :
  (r = 38 /\ escapeRune r = [38; 97; 109; 112; 59])
  \/ (r = 60 /\ escapeRune r = [38; 108; 116; 59])
  \/ (r = 62 /\ escapeRune r = [38; 103; 116; 59])
  \/ (r = 34 /\ escapeRune r = [38; 113; 117; 111; 116; 59])
  \/ (r <> 38 /\ r <> 60 /\ r <> 62 /\ r <> 34 /\ escapeRune r = [r]).
Proof.
  unfold escapeRune.
  destruct (Z.eqb_spec r 38); [by left|].
  destruct (Z.eqb_spec r 60); [by right; left|].
  destruct (Z.eqb_spec r 62); [by right; right; left|].
  destruct (Z.eqb_spec r 34); [by right; right; right; left|].
  by right; right; right; right.
Qed.

Lemma escape_bind_inj s1 : forall s2,
  s1 ≫= escapeRune = s2 ≫= escapeRune -> s1 = s2.
Proof.
  induction s1 as [|r1 s1 IH]; intros [|r2 s2] Heq.
  - reflexivity.
  - exfalso. rewrite bind_cons in Heq. change ([] ≫= escapeRune) with (@nil rune) in Heq.
    destruct (escapeRune_cases r2) as [[_ E]|[[_ E]|[[_ E]|[[_ E]|(_ & _ & _ & _ & E)]]]];
      rewrite E in Heq; discriminate Heq.
  - exfalso. rewrite bind_cons in Heq. change ([] ≫= escapeRune) with (@nil rune) in Heq.
    destruct (escapeRune_cases r1) as [[_ E]|[[_ E]|[[_ E]|[[_ E]|(_ & _ & _ & _ & E)]]]];
      rewrite E in Heq; discriminate Heq.
  - rewrite !bind_cons in Heq.
    destruct (escapeRune_cases r1)
      as [[-> E1]|[[-> E1]|[[-> E1]|[[-> E1]|(A1 & B1 & C1 & D1 & E1)]]]];
    destruct (escapeRune_cases r2)
      as [[-> E2]|[[-> E2]|[[-> E2]|[[-> E2]|(A2 & B2 & C2 & D2 & E2)]]]];
    rewrite ?E1, ?E2 in Heq; simpl in Heq;
    try discriminate Heq;
    try (injection Heq as Heq; f_equal; by apply IH);
    try (injection Heq as Hr Heq; first [congruence | subst; f_equal; by apply IH]).
Qed.

(** X18. htmlEscape loses nothing: two texts have the same escaped form only
    when they are the same text. *)
Theorem htmlEscape_injective s1 s2 :
  htmlEscape s1 = htmlEscape s2 <-> s1 = s2.
Proof.
  split; [|by intros ->]. rewrite !htmlEscape_bind. apply escape_bind_inj.
Qed.

Lemma jsEscape_app a b : jsEscape (a ++ b) = jsEscape a ++ jsEscape b.
Proof. unfold jsEscape. by rewrite !ReplaceAll_app. Qed.

Lemma jsEscape_cons r s :
  jsEscape (r :: s)
  = (if r =? 92 then [92; 92] else if r =? 39 then [92; 39] else [r]) ++ jsEscape s.
Proof.
  change (r :: s) with ([r] ++ s). rewrite jsEscape_app. f_equal.
  unfold jsEscape, ReplaceAll. simpl.
  destruct (Z.eqb_spec r 92) as [->|H92]; [reflexivity|]. simpl.
  destruct (Z.eqb_spec r 39) as [->|H39]; reflexivity.
Qed.

Lemma jsStringValue_escaped r s :
  jsStringValue (jsEscape (r :: s))
  = if (r =? 10) || (r =? 13) then None
    else (fun v => r :: v) <$> jsStringValue (jsEscape s).
Proof.
  rewrite jsEscape_cons.
  destruct (Z.eqb_spec r 92) as [->|H92]; [reflexivity|].
  destruct (Z.eqb_spec r 39) as [->|H39]; [reflexivity|].
  simpl. rewrite (proj2 (Z.eqb_neq r 39) H39), (proj2 (Z.eqb_neq r 92) H92). simpl.
  by destruct ((r =? 10) || (r =? 13)).
Qed.

(** X19. The text that generateSearchIndex writes between the single quotes
    of the JavaScript string literal reads back, by the rules of such a
    literal, as the JSON text it was made from: no quote is left bare and
    every backslash is doubled. This holds exactly when the JSON text has no
    raw line break, which a literal cannot hold. *)
Theorem jsEscape_reads_back jsonStr :
  jsStringValue (jsEscape jsonStr)
  = if decide (Forall (fun r => r <> 10 /\ r <> 13) jsonStr) then Some jsonStr else None.
Proof.
  induction jsonStr as [|r s IH]; [reflexivity|].
  rewrite jsStringValue_escaped, IH.
  destruct (decide (Forall (fun r => r <> 10 /\ r <> 13) (r :: s))) as [Hc|Hc];
    destruct (decide (Forall (fun r => r <> 10 /\ r <> 13) s)) as [Hs|Hs];
    destruct (Z.eqb_spec r 10) as [H10|H10]; destruct (Z.eqb_spec r 13) as [H13|H13];
    try reflexivity; exfalso.
  all: try (apply Forall_cons in Hc as [[Ha Hb] Hc]; by first [apply Ha|apply Hb|apply Hs]).
  all: apply Hc; constructor; [by split|exact Hs].
Qed.

End EscapingProofs.

Section StripProofs.

Lemma closeTag_None s : closeTag s = None <-> 62 ∉ s.
Proof.
  induction s as [|r s IH]; simpl.
  - split; [intros _; apply not_elem_of_nil|done].
  - destruct (Z.eqb_spec r 62) as [->|Hr].
    + split; [discriminate|]. intros Hn. exfalso. apply Hn. left.
    + rewrite IH. rewrite not_elem_of_cons. split; [by split; [intros E; apply Hr|]|tauto].
Qed.

Lemma closeTag_first t b : 62 ∉ t -> closeTag (t ++ 62 :: b) = Some (stripHTML b).
Proof.
  induction t as [|r t IH]; intros Hn; simpl.
  - reflexivity.
  - apply not_elem_of_cons in Hn as [Hr Hn].
    rewrite (proj2 (Z.eqb_neq r 62)) by (intros E; by apply Hr). by apply IH.
Qed.

Lemma stripHTML_plain a s : 60 ∉ a -> stripHTML (a ++ s) = a ++ stripHTML s.
Proof.
  induction a as [|r a IH]; intros Hn; [reflexivity|].
  apply not_elem_of_cons in Hn as [Hr Hn]. simpl.
  rewrite (proj2 (Z.eqb_neq r 60)) by (intros E; by apply Hr). by rewrite IH.
Qed.

(** X20. stripHTML removes exactly the tags, read from left to right: text
    without < is kept as it is; a < with a > after it is removed together
    with everything up to the first such >, and the rest is stripped in the
    same way; a < with no > after it stays, with all the text after it. *)
Theorem stripHTML_removes_tags :
  (forall s, 60 ∉ s -> stripHTML s = s)
  /\ (forall a t b, 60 ∉ a -> 62 ∉ t ->
        stripHTML (a ++ 60 :: t ++ 62 :: b) = a ++ stripHTML b)
  /\ (forall a b, 60 ∉ a -> 62 ∉ b -> stripHTML (a ++ 60 :: b) = a ++ 60 :: b).
Proof.
  split; [|split].
  - intros s Hs. rewrite <- (app_nil_r s) at 1. rewrite stripHTML_plain by exact Hs.
    simpl. by rewrite app_nil_r.
  - intros a t b Ha Ht. rewrite stripHTML_plain by exact Ha. simpl.
    by rewrite closeTag_first.
  - intros a b Ha Hb. rewrite stripHTML_plain by exact Ha. simpl.
    by rewrite (proj2 (closeTag_None b) Hb).
Qed.

Lemma stripHTML_closeTag_noTag s :
  (forall a b, stripHTML s = a ++ 60 :: b -> 62 ∉ b)
  /\ (forall out, closeTag s = Some out -> forall a b, out = a ++ 60 :: b -> 62 ∉ b).
Proof.
  induction s as [|r s [IH1 IH2]].
  - split; [|discriminate]. intros [|? ?] b; discriminate.
  - split.
    + simpl. destruct (Z.eqb_spec r 60) as [->|Hr].
      * destruct (closeTag s) as [out|] eqn:Hc; [by apply IH2|].
        apply closeTag_None in Hc. intros [|x a] b Heq.
        -- injection Heq as <-. exact Hc.
        -- injection Heq as _ ->. intros Hin. apply Hc.
           apply elem_of_app. right. by right.
      * intros [|x a] b Heq.
        -- injection Heq as E _. by destruct Hr.
        -- injection Heq as _ Heq. by apply (IH1 a b).
    + simpl. destruct (Z.eqb_spec r 62) as [->|Hr].
      * intros out [= <-]. exact IH1.
      * exact IH2.
Qed.

Lemma stripHTML_noTag_id s :
  (forall a b, s = a ++ 60 :: b -> 62 ∉ b) -> stripHTML s = s.
Proof.
  induction s as [|r s IH]; intros Hno; [reflexivity|].
  simpl. destruct (Z.eqb_spec r 60) as [->|Hr].
  - by rewrite (proj2 (closeTag_None s) (Hno [] s eq_refl)).
  - f_equal. apply IH. intros a b ->. by apply (Hno (r :: a) b).
Qed.

Lemma stripHTML_closeTag_sublist s :
  stripHTML s `sublist_of` s
  /\ (forall out, closeTag s = Some out -> out `sublist_of` s).
Proof.
  induction s as [|r s [IH1 IH2]].
  - split; [done|discriminate].
  - split.
    + simpl. destruct (Z.eqb_spec r 60) as [->|Hr].
      * destruct (closeTag s) as [out|] eqn:Hc; [|done].
        apply sublist_cons. by apply IH2.
      * by apply sublist_skip.
    + simpl. destruct (Z.eqb_spec r 62) as [->|Hr].
      * intros out [= <-]. by apply sublist_cons.
      * intros out Hc. apply sublist_cons. by apply IH2.
Qed.

(** X21. What stripHTML returns holds no complete tag (no < with a > after
    it), so stripping a second time changes nothing; and stripHTML only
    deletes: its result is the text with some characters left out, in the
    same order. *)
Theorem stripHTML_leaves_no_tag s :
  ~ hasTag (stripHTML s)
  /\ stripHTML (stripHTML s) = stripHTML s
  /\ stripHTML s `sublist_of` s.
Proof.
  pose proof (proj1 (stripHTML_closeTag_noTag s)) as Hno.
  split; [|split].
  - intros (a & b & c & Heq). apply (Hno a (b ++ 62 :: c) Heq).
    apply elem_of_app. right. left.
  - by apply stripHTML_noTag_id.
  - exact (proj1 (stripHTML_closeTag_sublist s)).
Qed.

End StripProofs.

(* ===================================================================== *)
(** ** The book model and the chapters of the renderer *)
(* ===================================================================== *)

Section ChapterProofs.

Import Models Renderer.

Lemma Chapter_induction (P : Chapter -> Prop) :
  (forall c,
      Forall (fun item => match item with ChapterItem ch => P ch | _ => True end)
             (SubItems c) -> P c) ->
  forall c, P c.
Proof.
  intros Hstep. fix IH 1. intros [n c num subs p sp pn d]. apply Hstep. simpl.
  induction subs as [|item rest IHl]; constructor; [|exact IHl].
  destruct item; [apply IH|exact I|exact I].
Qed.

Lemma foldl_app_bind {A B} (g : A -> list B) (step : list B -> A -> list B) :
  (forall acc x, step acc x = acc ++ g x) ->
  forall l acc, foldl step acc l = acc ++ (l ≫= g).
Proof.
  intros Hstep l. induction l as [|x l IH]; intros acc.
  - simpl. by rewrite app_nil_r.
  - rewrite bind_cons. simpl. by rewrite IH, Hstep, <- app_assoc.
Qed.

Lemma bind_ext_Forall {A B} (g1 g2 : A -> list B) l :
  Forall (fun x => g1 x = g2 x) l -> l ≫= g1 = l ≫= g2.
Proof.
  induction 1 as [|x l Hx _ IH]; [reflexivity|]. by rewrite !bind_cons, Hx, IH.
Qed.

Lemma omap_bind {A B C} (f : B -> option C) (g : A -> list B) l :
  omap f (l ≫= g) = l ≫= (fun x => omap f (g x)).
Proof.
  induction l as [|x l IH]; [reflexivity|]. by rewrite !bind_cons, omap_app, IH.
Qed.

Lemma GetAllChapters_bind c :
  GetAllChapters c
  = SubItems c ≫= (fun item => match item with
                               | ChapterItem ch => ch :: GetAllChapters ch
                               | _ => []
                               end).
Proof.
  destruct c as [n c num subs p sp pn d]. simpl.
  rewrite (foldl_app_bind (fun item => match item with
                                       | ChapterItem ch => ch :: GetAllChapters ch
                                       | _ => []
                                       end)); [reflexivity|].
  intros acc [ch| |t]; [by rewrite <- app_assoc|by rewrite app_nil_r..].
Qed.

Lemma collectSubChapters_bind c :
  collectSubChapters c
  = SubItems c ≫= (fun item => match item with
                               | ChapterItem ch => ch :: collectSubChapters ch
                               | _ => []
                               end).
Proof.
  destruct c as [n c num subs p sp pn d]. simpl.
  rewrite (foldl_app_bind (fun item => match item with
                                       | ChapterItem ch => ch :: collectSubChapters ch
                                       | _ => []
                                       end)); [reflexivity|].
  intros acc [ch| |t]; [by rewrite <- app_assoc|by rewrite app_nil_r..].
Qed.

Lemma IterSubItems_bind c :
  IterSubItems c
  = SubItems c ≫= (fun item => item :: match item with
                                       | ChapterItem ch => IterSubItems ch
                                       | _ => []
                                       end).
Proof.
  destruct c as [n c num subs p sp pn d]. simpl.
  rewrite (foldl_app_bind (fun item => item :: match item with
                                               | ChapterItem ch => IterSubItems ch
                                               | _ => []
                                               end)); [reflexivity|].
  intros acc [ch| |t]; [by rewrite <- app_assoc|reflexivity..].
Qed.

Lemma collectSubChapters_GetAllChapters c : collectSubChapters c = GetAllChapters c.
Proof.
  induction c as [c IH] using Chapter_induction.
  rewrite collectSubChapters_bind, GetAllChapters_bind. apply bind_ext_Forall.
  eapply Forall_impl; [exact IH|]. intros [ch| |t] Hch; [by rewrite Hch|done..].
Qed.

Lemma omap_IterSubItems c : omap asChapter (IterSubItems c) = GetAllChapters c.
Proof.
  induction c as [c IH] using Chapter_induction.
  rewrite IterSubItems_bind, GetAllChapters_bind, omap_bind. apply bind_ext_Forall.
  eapply Forall_impl; [exact IH|].
  intros [ch| |t] Hch; [rewrite <- Hch; reflexivity|reflexivity..].
Qed.

Lemma collectChapters_bind book :
  collectChapters book
  = Items book ≫= (fun item => match item with
                               | ChapterItem ch => ch :: GetAllChapters ch
                               | _ => []
                               end).
Proof.
  unfold collectChapters.
  rewrite (foldl_app_bind (fun item => match item with
                                       | ChapterItem ch => ch :: GetAllChapters ch
                                       | _ => []
                                       end)); [reflexivity|].
  intros acc [ch| |t]; [|by rewrite app_nil_r..].
  by rewrite collectSubChapters_GetAllChapters, <- app_assoc.
Qed.

(** X22. The renderer's own flattening of the book agrees with the model's:
    collectSubChapters returns what Chapter.GetAllChapters returns, and
    collectChapters returns the chapters among the items of Book.IterAll, in
    the same (depth-first) order; separators and part titles are skipped at
    every level, chapters below them do not exist. *)
Theorem collectChapters_agrees_with_model :
  (forall ch, collectSubChapters ch = GetAllChapters ch)
  /\ (forall ch, GetAllChapters ch = omap asChapter (IterSubItems ch))
  /\ (forall book, collectChapters book = omap asChapter (IterAll book)).
Proof.
  split; [exact collectSubChapters_GetAllChapters|].
  split; [intros ch; by rewrite omap_IterSubItems|].
  intros book. rewrite collectChapters_bind. unfold IterAll.
  rewrite (foldl_app_bind (fun item => item :: match item with
                                               | ChapterItem ch => IterSubItems ch
                                               | _ => []
                                               end)).
  - simpl. rewrite omap_bind. apply bind_ext_Forall, Forall_forall.
    intros [ch| |t] _; [rewrite <- omap_IterSubItems; reflexivity|reflexivity..].
  - intros acc [ch| |t]; [by rewrite <- app_assoc|reflexivity..].
Qed.

Lemma Chapters_bind book :
  Chapters book
  = Items book ≫= (fun item => match item with
                               | ChapterItem ch =>
                                   (if IsDraftChapter ch then [] else [ch])
                                   ++ GetAllChapters ch
                               | _ => []
                               end).
Proof.
  unfold Chapters.
  rewrite (foldl_app_bind (fun item => match item with
                                       | ChapterItem ch =>
                                           (if IsDraftChapter ch then [] else [ch])
                                           ++ GetAllChapters ch
                                       | _ => []
                                       end)); [reflexivity|].
  intros acc [ch| |t]; [|by rewrite app_nil_r..].
  destruct (IsDraftChapter ch); simpl; [reflexivity|by rewrite <- app_assoc].
Qed.

(** X23. Book.Chapters drops the draft chapters of the top level only: it
    returns the list of collectChapters with some chapters left out, the same
    list when no top-level chapter is a draft, and it always returns every
    chapter nested below a top-level chapter, draft or not. *)
Theorem Chapters_drops_top_level_drafts book :
  Chapters book `sublist_of` collectChapters book
  /\ (Forall (fun item => match item with
                          | ChapterItem ch => IsDraftChapter ch = false
                          | _ => True
                          end) (Items book) ->
      Chapters book = collectChapters book)
  /\ (forall top ch, ChapterItem top ∈ Items book -> ch ∈ GetAllChapters top ->
                     ch ∈ Chapters book)
  /\ (forall top, ChapterItem top ∈ Items book ->
                  top ∈ Chapters book \/ IsDraftChapter top = true).
Proof.
  rewrite Chapters_bind, collectChapters_bind. split; [|split; [|split]].
  - induction (Items book) as [|item items IH]; [done|]. simpl.
    apply sublist_app; [|exact IH]. destruct item as [ch| |t]; [|done..].
    destruct (IsDraftChapter ch); simpl; [by apply sublist_cons|done].
  - intros Hall. apply bind_ext_Forall. eapply Forall_impl; [exact Hall|].
    intros [ch| |t] Hd; [by rewrite Hd|done..].
  - intros top ch Htop Hch. apply list_elem_of_bind. exists (ChapterItem top).
    split; [|exact Htop]. apply elem_of_app. by right.
  - intros top Htop. destruct (IsDraftChapter top) eqn:Hd; [by right|left].
    apply list_elem_of_bind. exists (ChapterItem top). split; [|exact Htop].
    rewrite Hd. apply elem_of_app. left. left.
Qed.

End ChapterProofs.

(* ===================================================================== *)
(** ** The search index of the renderer *)
(* ===================================================================== *)

Section SearchIndexProofs.
Context `{CaseTable}.
Variable convertMarkdown : gostring -> gostring * list Renderer.HeadingInfo.

Import Models Renderer.

Lemma str_inj s1 s2 : str s1 = str s2 -> s1 = s2.
Proof.
  unfold str. intros Heq.
  rewrite <- (string_of_list_ascii_of_string s1), <- (string_of_list_ascii_of_string s2).
  f_equal. revert Heq. generalize (list_ascii_of_string s1) (list_ascii_of_string s2).
  intros l1. induction l1 as [|a1 l1 IH]; intros [|a2 l2] Heq; try discriminate Heq.
  - reflexivity.
  - injection Heq as Ha Hl. f_equal; [|by apply IH].
    apply N2Z.inj in Ha.
    rewrite <- (ascii_N_embedding a1), <- (ascii_N_embedding a2). by rewrite Ha.
Qed.

Lemma formatInt_inj n m : formatInt n = formatInt m -> n = m.
Proof.
  unfold formatInt. intros Heq%str_inj.
  assert (forall z, Z.to_int z <> Decimal.Pos Decimal.Nil
                    /\ Z.to_int z <> Decimal.Neg Decimal.Nil) as Hnn.
  { intros [|p|p]; simpl; split; try discriminate;
      intros [= E]; by apply DecimalPos.Unsigned.to_uint_nonnil in E. }
  apply DecimalZ.to_int_inj.
  assert (Some (Z.to_int n) = Some (Z.to_int m)) as Hs; [|by injection Hs].
  rewrite <- (NilZero.isi (Z.to_int n)), <- (NilZero.isi (Z.to_int m)) by apply Hnn.
  by rewrite Heq.
Qed.

Lemma idOf_small (i : nat) : Z.of_nat i < 2 ^ 63 -> idOf i = formatInt (Z.of_nat i).
Proof.
  intros Hi. unfold idOf. rewrite wrap_in_range; [reflexivity|].
  unfold Int64.in_range, Int64.min_int, Int64.max_int. lia.
Qed.

Lemma idOf_inj (i j : nat) :
  Z.of_nat i < 2 ^ 63 -> Z.of_nat j < 2 ^ 63 -> idOf i = idOf j -> i = j.
Proof.
  intros Hi Hj. rewrite !idOf_small by assumption. intros Heq%formatInt_inj. lia.
Qed.

Lemma docRefOf_searchDoc idx body breadcrumbs docID title :
  Index.Ref idx = str "id" ->
  docRefOf idx (searchDoc body breadcrumbs docID title) = formatInt docID.
Proof. intros Href. unfold docRefOf. rewrite Href. reflexivity. Qed.

Lemma addSearchDoc_inv st docs body breadcrumbs title url :
  searchInv st docs ->
  exists st',
    addSearchDoc st body breadcrumbs title url = Some st'
    /\ searchInv st' (docs ++ [ {| se_url := url; se_body := body;
                                   se_breadcrumbs := breadcrumbs;
                                   se_title := title |} ]).
Proof.
  intros (Hb & Hid & Hurls & Hdom & Hlen & Hold).
  destruct (Built_wf _ _ Hb) as [Hwf _].
  destruct (Built_config _ _ Hb) as (Href & _ & _ & _ & Hsave).
  destruct (AddDoc_store (ss_idx st) (searchDoc body breadcrumbs (ss_docID st) title) Hwf)
    as (idx' & Hadd & Hdocs & Hlen' & _).
  unfold addSearchDoc. rewrite Hadd. eexists. split; [reflexivity|].
  unfold initState in Hdocs, Hlen'. simpl in Hdocs, Hlen'.
  rewrite (docRefOf_searchDoc _ _ _ _ _ Href), Hsave in Hdocs.
  rewrite (docRefOf_searchDoc _ _ _ _ _ Href) in Hlen'.
  unfold searchInv. simpl. rewrite length_app. simpl.
  replace (length docs + 1)%nat with (S (length docs)) by lia.
  split; [exact (Built_add _ _ _ _ Hb Hadd)|]. split; [|split; [|split; [|split]]].
  - rewrite Hid. unfold Int64.incr. rewrite wrap_wrap_succ. f_equal. lia.
  - by rewrite Hurls, fmap_app.
  - rewrite Hdocs, dom_insert_L, Hdom, seq_S, fmap_app, list_to_set_app_L. simpl.
    rewrite Hid. unfold idOf. apply set_eq. intros x.
    rewrite !elem_of_union, elem_of_singleton, elem_of_empty. tauto.
  - rewrite Hlen', Hdocs.
    destruct (DocumentStore.Docs (Index.Store (ss_idx st)) !! formatInt (ss_docID st))
      as [d|] eqn:Hd.
    + rewrite decide_True by (by eexists).
      rewrite map_size_insert_Some by (by eexists). exact Hlen.
    + rewrite decide_False by (by intros [? ?]).
      rewrite map_size_insert_None by exact Hd. rewrite Hlen. unfold Int64.incr.
      rewrite wrap_wrap_succ. f_equal. lia.
  - intros Hsmall i d Hi. rewrite Hdocs, Hid.
    change (formatInt (Int64.wrap (Z.of_nat (length docs)))) with (idOf (length docs)).
    apply lookup_app_Some in Hi as [Hi|[Hge Hi]].
    + pose proof (lookup_lt_Some _ _ _ Hi) as Hlt.
      rewrite lookup_insert_ne.
      * apply Hold; [lia|exact Hi].
      * intros Heq. apply idOf_inj in Heq; lia.
    + destruct (i - length docs)%nat as [|k] eqn:Hk; [|by destruct k].
      injection Hi as <-. assert (i = length docs) as -> by lia.
      rewrite lookup_insert_eq, Href, wrap_in_range; [reflexivity|].
      unfold Int64.in_range, Int64.min_int, Int64.max_int. lia.
Qed.

(** The walk of the book, for any property of the state and of the list of
    the documents added that each added document keeps. *)
Section Walk.
Variable K : searchState -> list searchEntry -> Prop.
Hypothesis Kstep : forall st docs body breadcrumbs title url,
  K st docs ->
  exists st',
    addSearchDoc st body breadcrumbs title url = Some st'
    /\ K st' (docs ++ [ {| se_url := url; se_body := body;
                           se_breadcrumbs := breadcrumbs; se_title := title |} ]).

Lemma addHeadings_walk docPath breadcrumb headings : forall st docs,
  K st docs ->
  exists st',
    addHeadings docPath breadcrumb headings st = Some st'
    /\ K st' (docs ++ (headingEntry docPath breadcrumb <$> headings)).
Proof.
  unfold addHeadings.
  induction headings as [|h headings IH]; intros st docs Hinv.
  - exists st. simpl. by rewrite app_nil_r.
  - cbn [foldl mbind option_bind].
    destruct (Kstep st docs (Text h) (breadcrumb ++ breadcrumbSep ++ Text h)
                (Text h) (docPath ++ str "#" ++ ID h) Hinv) as (st1 & -> & Hinv1).
    destruct (IH st1 _ Hinv1) as (st2 & Hst2 & Hinv2).
    exists st2. split; [exact Hst2|].
    rewrite fmap_cons, (cons_middle _ docs), app_assoc. exact Hinv2.
Qed.

Lemma foldl_chapters_walk (f : Chapter -> searchState -> option searchState)
    (g : Chapter -> list searchEntry) items :
  Forall (fun item => match item with
                      | ChapterItem ch =>
                          forall st docs,
                            K st docs ->
                            exists st', f ch st = Some st' /\ K st' (docs ++ g ch)
                      | _ => True
                      end) items ->
  forall st docs,
    K st docs ->
    exists st',
      foldl (fun acc item => match item with
                             | ChapterItem ch => acc ≫= f ch
                             | _ => acc
                             end) (Some st) items = Some st'
      /\ K st' (docs ++ (items ≫= fun item => match item with
                                                      | ChapterItem ch => g ch
                                                      | _ => []
                                                      end)).
Proof.
  induction 1 as [|item items Hitem _ IH]; intros st docs Hinv.
  - exists st. simpl. by rewrite app_nil_r.
  - rewrite bind_cons, app_assoc. cbn [foldl].
    destruct item as [ch| |t]; [|rewrite app_nil_r; by apply IH..].
    destruct (Hitem st docs Hinv) as (st1 & Hst1 & Hinv1).
    cbn [mbind option_bind]. rewrite Hst1. by apply IH.
Qed.

Lemma processChaptersRecursive_walk ch : forall parentBreadcrumb st docs,
  K st docs ->
  exists st',
    processChaptersRecursive convertMarkdown ch parentBreadcrumb st = Some st'
    /\ K st' (docs ++ chapterDocs convertMarkdown ch parentBreadcrumb).
Proof.
  induction ch as [ch IH] using Chapter_induction. intros parentBreadcrumb st docs Hinv.
  destruct ch as [name content num subs path sp pn d]. simpl in IH. simpl.
  destruct path as [path|]; [|exists st; by rewrite app_nil_r].
  destruct (convertMarkdown content) as [htmlContent headings]. simpl.
  destruct (Kstep st docs (stripHTML htmlContent)
              (breadcrumbOf parentBreadcrumb name) name (docPathOf path) Hinv)
    as (st1 & -> & Hinv1).
  destruct (addHeadings_walk (docPathOf path) (breadcrumbOf parentBreadcrumb name)
              headings st1 _ Hinv1) as (st2 & -> & Hinv2).
  destruct (foldl_chapters_walk
              (fun subCh => processChaptersRecursive convertMarkdown subCh
                              (breadcrumbOf parentBreadcrumb name))
              (fun subCh => chapterDocs convertMarkdown subCh
                              (breadcrumbOf parentBreadcrumb name))
              subs) with (st := st2)
              (docs := (docs ++ [ {| se_url := docPathOf path;
                                     se_body := stripHTML htmlContent;
                                     se_breadcrumbs := breadcrumbOf parentBreadcrumb name;
                                     se_title := name |} ])
                       ++ (headingEntry (docPathOf path)
                             (breadcrumbOf parentBreadcrumb name) <$> headings))
    as (st3 & Hst3 & Hinv3).
  - eapply Forall_impl; [exact IH|]. intros [subCh| |t] Hsub; [|done..].
    intros st' docs' Hinv'. by apply Hsub.
  - exact Hinv2.
  - exists st3. split; [exact Hst3|].
    rewrite <- !app_assoc in Hinv3. exact Hinv3.
Qed.

Lemma generateSearchIndex_walk book :
  K {| ss_idx := Index.NewIndex searchFields; ss_docURLs := []; ss_docID := 0 |} [] ->
  exists st,
    generateSearchIndex convertMarkdown book = Some st
    /\ K st (bookDocs convertMarkdown book).
Proof.
  intros Hinit.
  destruct (foldl_chapters_walk
              (fun ch => processChaptersRecursive convertMarkdown ch [])
              (fun ch => chapterDocs convertMarkdown ch [])
              (Items book)) with
    (st := {| ss_idx := Index.NewIndex searchFields; ss_docURLs := []; ss_docID := 0 |})
    (docs := @nil searchEntry)
    as (st & Hst & Hinv).
  - apply Forall_forall. intros [ch| |t] _; [|done..].
    intros st docs Hinv. by apply processChaptersRecursive_walk.
  - exact Hinit.
  - exists st. split; [exact Hst|]. exact Hinv.
Qed.

End Walk.

Lemma searchInv_initial :
  searchInv {| ss_idx := Index.NewIndex searchFields; ss_docURLs := []; ss_docID := 0 |} [].
Proof.
  split; [apply Built_new|]. split; [reflexivity|]. split; [reflexivity|].
  split; [simpl; by rewrite dom_empty_L|]. split; [reflexivity|].
  intros _ i d Hi. by rewrite lookup_nil in Hi.
Qed.

Lemma generateSearchIndex_inv book :
  exists st,
    generateSearchIndex convertMarkdown book = Some st
    /\ searchInv st (bookDocs convertMarkdown book).
Proof.
  apply (generateSearchIndex_walk searchInv); [|apply searchInv_initial].
  intros st docs body breadcrumbs title url. apply addSearchDoc_inv.
Qed.

(** X24. generateSearchIndex never fails while it builds the index, whatever
    the book and whatever convertMarkdown returns. When it is done, the
    counter docID is the length of doc_urls, and the references of the
    documents in the store are exactly the decimal forms of the positions
    0, 1, ... of doc_urls: every stored document has its URL, and every URL
    its document. With fewer than 2^63 documents the store's Length is the
    length of doc_urls. *)
Theorem generateSearchIndex_ids_are_url_positions book :
  exists st,
    generateSearchIndex convertMarkdown book = Some st
    /\ Built searchFields (ss_idx st)
    /\ ss_docID st = Int64.wrap (Z.of_nat (length (ss_docURLs st)))
    /\ (forall r,
          DocumentStore.HasDoc (Index.Store (ss_idx st)) r = true
          <-> exists i, (i < length (ss_docURLs st))%nat
                        /\ r = formatInt (Int64.wrap (Z.of_nat i)))
    /\ (Z.of_nat (length (ss_docURLs st)) < 2 ^ 63 ->
        DocumentStore.Length (Index.Store (ss_idx st))
        = Z.of_nat (length (ss_docURLs st))).
Proof.
  destruct (generateSearchIndex_inv book) as (st & Hst & Hb & Hid & Hurls & Hdom & Hlen & _).
  exists st. rewrite Hurls, length_fmap.
  split; [exact Hst|]. split; [exact Hb|]. split; [exact Hid|]. split.
  - intros r. unfold DocumentStore.HasDoc. rewrite bool_decide_eq_true.
    rewrite <- elem_of_dom, Hdom, elem_of_list_to_set, list_elem_of_fmap.
    split.
    + intros (i & -> & Hi). apply elem_of_seq in Hi. exists i. split; [lia|reflexivity].
    + intros (i & Hi & ->). exists i. split; [reflexivity|]. apply elem_of_seq. lia.
  - intros Hsmall. rewrite Hlen, <- size_dom, Hdom.
    rewrite size_list_to_set.
    + rewrite length_fmap, length_seq. apply wrap_in_range.
      unfold Int64.in_range, Int64.min_int, Int64.max_int. lia.
    + apply NoDup_fmap_2_strong; [|apply NoDup_seq].
      intros i j Hi%elem_of_seq Hj%elem_of_seq. apply idOf_inj; lia.
Qed.

(** X25. The documents of the search index are those of a depth-first walk
    of the book: a chapter without a path contributes nothing, and neither do
    the chapters below it; a chapter with a path contributes itself (its
    text with the tags stripped, its breadcrumb, its name), then one document
    per heading (URL "page#id"), then its sub-chapters under its breadcrumb.
    doc_urls lists the URLs of these documents in that order and, below 2^63
    documents, the store holds under the decimal form of each position i the
    document of that position, with "id" the string form of i. *)
Theorem generateSearchIndex_stores_walk book :
  exists st,
    generateSearchIndex convertMarkdown book = Some st
    /\ ss_docURLs st = se_url <$> bookDocs convertMarkdown book
    /\ (Z.of_nat (length (bookDocs convertMarkdown book)) < 2 ^ 63 ->
        forall (i : nat) d,
          bookDocs convertMarkdown book !! i = Some d ->
          exists stored,
            DocumentStore.GetDoc (Index.Store (ss_idx st)) (formatInt (Z.of_nat i))
            = Some stored
            /\ stored !! str "id" = Some (VString (formatInt (Z.of_nat i)))
            /\ stored !! str "title" = Some (VString (se_title d))
            /\ stored !! str "body" = Some (VString (se_body d))
            /\ stored !! str "breadcrumbs" = Some (VString (se_breadcrumbs d))).
Proof.
  destruct (generateSearchIndex_inv book) as (st & Hst & _ & _ & Hurls & _ & _ & Hdocs).
  exists st. split; [exact Hst|]. split; [exact Hurls|].
  intros Hsmall i d Hi. pose proof (lookup_lt_Some _ _ _ Hi) as Hlt.
  eexists. unfold DocumentStore.GetDoc. rewrite <- idOf_small by lia.
  split; [exact (Hdocs Hsmall i d Hi)|].
  rewrite !lookup_docCopy. repeat split; reflexivity.
Qed.

Lemma lookup_snoc_Some {A} (l : list A) (x : A) (i : nat) (y : A) :
  (l ++ [x]) !! i = Some y <-> l !! i = Some y \/ (i = length l /\ y = x).
Proof.
  rewrite lookup_app_Some. split.
  - intros [Hl|[Hge Hx]]; [by left|right].
    destruct (i - length l)%nat as [|k] eqn:Hk; [|by destruct k].
    injection Hx as <-. split; [lia|reflexivity].
  - intros [Hl|[-> ->]]; [by left|right]. split; [lia|]. by rewrite Nat.sub_diag.
Qed.

Lemma searchFields_cases field :
  field ∈ searchFields ->
  field = str "title" \/ field = str "body" \/ field = str "breadcrumbs".
Proof.
  unfold searchFields. cbn [fmap list_fmap].
  rewrite !elem_of_cons, elem_of_nil. tauto.
Qed.

Lemma searchDoc_field field body breadcrumbs docID title text :
  field ∈ searchFields ->
  entryField field {| se_url := []; se_body := body; se_breadcrumbs := breadcrumbs;
                      se_title := title |} = Some text ->
  field <> str "id"
  /\ searchDoc body breadcrumbs docID title !! field = Some (VString text).
Proof.
  intros Hfield Htext. apply searchFields_cases in Hfield.
  destruct Hfield as [->|[->| ->]]; injection Htext as <-;
    (split; [discriminate|reflexivity]).
Qed.

Lemma entryField_is_Some field d :
  field ∈ searchFields -> is_Some (entryField field d).
Proof.
  intros Hfield. apply searchFields_cases in Hfield.
  destruct Hfield as [->|[->| ->]]; by eexists.
Qed.

Lemma addSearchDoc_postings st docs body breadcrumbs title url :
  searchInv st docs /\ postInv st docs ->
  exists st',
    addSearchDoc st body breadcrumbs title url = Some st'
    /\ (searchInv st' (docs ++ [ {| se_url := url; se_body := body;
                                    se_breadcrumbs := breadcrumbs;
                                    se_title := title |} ])
        /\ postInv st' (docs ++ [ {| se_url := url; se_body := body;
                                     se_breadcrumbs := breadcrumbs;
                                     se_title := title |} ])).
Proof.
  intros [Hinv Hpost].
  destruct (addSearchDoc_inv st docs body breadcrumbs title url Hinv)
    as (st' & Hadd & Hinv').
  exists st'. split; [exact Hadd|]. split; [exact Hinv'|].
  destruct Hinv as (Hb & Hid & _).
  destruct (Built_wf _ _ Hb) as [Hwf Hfields].
  destruct (Built_config _ _ Hb) as (Href & _).
  unfold addSearchDoc in Hadd.
  destruct (Index.AddDoc (ss_idx st) (searchDoc body breadcrumbs (ss_docID st) title))
    as [idx'|] eqn:Hidx'; [|discriminate Hadd].
  injection Hadd as <-. intros field Hfield. simpl.
  destruct (Hpost field Hfield) as (ii & Hii & Hold).
  destruct (entryField_is_Some field
              {| se_url := []; se_body := body; se_breadcrumbs := breadcrumbs;
                 se_title := title |} Hfield) as [text Htext].
  destruct (searchDoc_field field body breadcrumbs (ss_docID st) title text Hfield Htext)
    as [Hne Hdoc].
  destruct (AddDoc_field_index (ss_idx st)
              (searchDoc body breadcrumbs (ss_docID st) title) field (VString text) ii
              Hwf) as (idx1 & Hadd1 & Hii').
  { rewrite Hfields. compute_done. }
  { by rewrite Hfields. }
  { by rewrite Href. }
  { exact Hdoc. }
  { exact Hii. }
  rewrite Hidx' in Hadd1. injection Hadd1 as <-.
  rewrite (docRefOf_searchDoc _ _ _ _ _ Href), Hid in Hii'.
  change (formatInt (Int64.wrap (Z.of_nat (length docs)))) with (idOf (length docs))
    in Hii'.
  eexists. split; [exact Hii'|]. intros p r.
  rewrite Docs_nodeAt_addTokens.
  assert (is_Some (Index.countTokens ∅ (processedOf (VString text)) !! p)
          <-> p ∈ processedOf (VString text)) as Hkeys.
  { rewrite <- elem_of_dom, countTokens_dom, dom_empty_L, elem_of_union,
      elem_of_empty, elem_of_list_to_set. tauto. }
  assert ((exists (i : nat) d text',
              (docs ++ [ {| se_url := url; se_body := body;
                            se_breadcrumbs := breadcrumbs; se_title := title |} ]) !! i
              = Some d
              /\ r = idOf i /\ entryField field d = Some text'
              /\ p ∈ processedOf (VString text'))
          <-> is_Some (Docs (nodeAt p (Root ii)) !! r)
              \/ (r = idOf (length docs) /\ p ∈ processedOf (VString text))) as Hsplit.
  { rewrite Hold. split.
    - intros (i & d & text' & Hi & Hr & Ht & Hp).
      apply lookup_snoc_Some in Hi as [Hi|[-> ->]].
      + left. exists i, d, text'. split; [exact Hi|]. split; [exact Hr|].
        split; [exact Ht|exact Hp].
      + right. split; [exact Hr|].
        assert (Some text' = Some text) as Heq by (rewrite <- Ht, <- Htext; reflexivity).
        injection Heq as <-. exact Hp.
    - intros [(i & d & text' & Hi & Hr & Ht & Hp)|[Hr Hp]].
      + exists i, d, text'. split; [apply lookup_snoc_Some; by left|].
        split; [exact Hr|]. split; [exact Ht|exact Hp].
      + exists (length docs), {| se_url := url; se_body := body;
                                 se_breadcrumbs := breadcrumbs; se_title := title |}, text.
        split; [apply lookup_snoc_Some; by right|]. split; [exact Hr|].
        split; [exact Htext|exact Hp]. }
  rewrite Hsplit. clear Hsplit.
  destruct (Index.countTokens ∅ (processedOf (VString text)) !! p) as [c|] eqn:Hc.
  - assert (p ∈ processedOf (VString text)) as Hp.
    { apply Hkeys. by eexists. }
    assert (p <> []) as Hpne.
    { exact (processTokens_nonempty p _ Hp). }
    rewrite decide_False by exact Hpne. unfold postDocs.
    destruct (decide (r = idOf (length docs))) as [->|Hr].
    + rewrite lookup_insert_eq. split; [intros _; right; by split|intros _; by eexists].
    + rewrite lookup_insert_ne by (intros E; apply Hr; by rewrite E).
      split; [by left|]. intros [Hs|[Hr' _]]; [exact Hs|by destruct Hr].
  - assert (p ∉ processedOf (VString text)) as Hp.
    { intros Hin. apply Hkeys in Hin. destruct Hin as [c Hin]. discriminate Hin. }
    split; [by left|]. intros [Hs|[_ Hin]]; [exact Hs|by destruct Hp].
Qed.

Lemma postInv_initial :
  postInv {| ss_idx := Index.NewIndex searchFields; ss_docURLs := []; ss_docID := 0 |} [].
Proof.
  intros field Hfield. exists NewInvertedIndex. cbn [ss_idx].
  split.
  - rewrite NewIndex_lookup. by rewrite decide_True.
  - intros p r. unfold nodeAt. cbn [Root NewInvertedIndex].
    rewrite getAt_newIndexItem. cbn [Docs newIndexItem]. rewrite lookup_empty.
    split; [by intros [? ?]|].
    intros (i & d & text & Hi & _). by rewrite lookup_nil in Hi.
Qed.

(** X29. The field indexes that generateSearchIndex builds hold exactly the
    processed tokens of the documents: in the trie of each of the fields
    title, body and breadcrumbs, GetDocs reports a weight for a reference
    under a string if and only if the reference is the id of a document of
    the walk (the decimal form of its position) and the string is a
    processed token (tokenized, not a stop word, stemmed) of the text of that
    document in that field. *)
Theorem generateSearchIndex_postings_are_document_tokens book :
  exists st,
    generateSearchIndex convertMarkdown book = Some st
    /\ forall field,
         field ∈ searchFields ->
         exists ii,
           Index.FieldIndexes (ss_idx st) !! field = Some ii
           /\ forall p r,
                is_Some (GetDocs ii p ≫= (fun docs => docs !! r))
                <-> exists (i : nat) d text,
                      bookDocs convertMarkdown book !! i = Some d
                      /\ r = formatInt (Int64.wrap (Z.of_nat i))
                      /\ entryField field d = Some text
                      /\ p ∈ processedOf (VString text).
Proof.
  destruct (generateSearchIndex_walk (fun st docs => searchInv st docs /\ postInv st docs)
              addSearchDoc_postings book (conj searchInv_initial postInv_initial))
    as (st & Hst & _ & Hpost).
  exists st. split; [exact Hst|]. intros field Hfield.
  destruct (Hpost field Hfield) as (ii & Hii & Hiff).
  exists ii. split; [exact Hii|]. intros p r.
  rewrite lookup_default_GetDocs, fmap_is_Some. apply Hiff.
Qed.

End SearchIndexProofs.

(* ===================================================================== *)
(** ** The order of the documents *)
(* ===================================================================== *)

Section AddDocOrder.
Context `{CaseTable}.

Import Index.

Lemma alter_lookup_insert {A} (g : A -> A) (m : gmap gostring A) k x :
  m !! k = Some x -> <[k := g x]> m = alter g k m.
Proof.
  intros Hk. apply map_eq. intros k'. destruct (decide (k' = k)) as [->|Hne].
  - by rewrite lookup_insert_eq, lookup_alter_eq, Hk.
  - by rewrite lookup_insert_ne, lookup_alter_ne by (intros ->; by apply Hne).
Qed.

Lemma processFields_updates ref docRef doc fields : forall st,
  (forall f, f ∈ fields -> f ∈ dom (ls_indexes st)) ->
  exists tf',
    processFields ref docRef doc st fields
    = Some {| ls_store := (foldl applyUpdate (ls_store st, ls_indexes st)
                             (fieldUpdates ref docRef doc (ls_tokenFreq st) fields)).1;
              ls_indexes := (foldl applyUpdate (ls_store st, ls_indexes st)
                               (fieldUpdates ref docRef doc (ls_tokenFreq st) fields)).2;
              ls_tokenFreq := tf' |}.
Proof.
  induction fields as [|field rest IH]; intros st Hdom.
  - exists (ls_tokenFreq st). simpl. by destruct st.
  - assert (forall f, f ∈ rest -> f ∈ dom (ls_indexes st)) as Hrest.
    { intros f Hf. apply Hdom. by right. }
    cbn [processFields fieldUpdates].
    destruct (decide (field = ref)) as [Href|Href].
    { rewrite (processField_skip ref docRef doc st field (or_introl Href)).
      by apply IH. }
    destruct (doc !! field) as [fieldVal|] eqn:Hdoc.
    2:{ rewrite (processField_skip ref docRef doc st field (or_intror Hdoc)).
        by apply IH. }
    assert (is_Some (ls_indexes st !! field)) as [ii Hii].
    { apply elem_of_dom, Hdom. left. }
    destruct (processField_this ref docRef doc st field fieldVal ii Href Hdoc Hii)
      as (st1 & -> & Hi1 & Ht1 & Hs1).
    destruct (IH st1) as (tf' & ->).
    { intros f Hf. rewrite Hi1, dom_insert_L. apply elem_of_union_r. by apply Hrest. }
    exists tf'. cbn [foldl applyUpdate fst snd]. rewrite Hi1, Ht1, Hs1.
    by rewrite (alter_lookup_insert _ _ _ _ Hii).
Qed.

Lemma AddDoc_updates idx doc :
  wfIndex idx ->
  AddDoc idx doc
  = Some (withUpdates idx (foldl applyUpdate (Store idx, FieldIndexes idx)
                             (docUpdates (Ref idx) (Fields idx) doc))).
Proof.
  intros [_ Hdom]. rewrite AddDoc_unfold.
  destruct (processFields_updates (Ref idx) (docRefOf idx doc) doc (Fields idx)
              (initState idx doc) Hdom) as (tf' & ->).
  reflexivity.
Qed.

Lemma foldl_swap_one {A B} (f : A -> B -> A) (l : list B) (y : B) :
  (forall a x, x ∈ l -> f (f a x) y = f (f a y) x) ->
  forall a, f (foldl f a l) y = foldl f (f a y) l.
Proof.
  induction l as [|x l IH]; intros Hcomm a; [reflexivity|].
  simpl. rewrite IH by (intros a' x' Hx'; apply Hcomm; by right).
  f_equal. apply Hcomm. left.
Qed.

Lemma foldl_swap {A B} (f : A -> B -> A) (l1 l2 : list B) :
  (forall a x y, x ∈ l1 -> y ∈ l2 -> f (f a x) y = f (f a y) x) ->
  forall a, foldl f (foldl f a l1) l2 = foldl f (foldl f a l2) l1.
Proof.
  induction l2 as [|y l2 IH]; intros Hcomm a; [reflexivity|].
  simpl. rewrite (foldl_swap_one f l1 y) by (intros a' x Hx; apply Hcomm; [exact Hx|left]).
  apply IH. intros a' x y' Hx Hy'. apply Hcomm; [exact Hx|by right].
Qed.

Lemma foldr_swap {A B C} (f : A -> C -> C) (g : B -> C -> C) l1 l2 :
  (forall a b c, f a (g b c) = g b (f a c)) ->
  forall c, foldr f (foldr g c l2) l1 = foldr g (foldr f c l1) l2.
Proof.
  intros Hcomm c. induction l1 as [|a l1 IH]; [reflexivity|].
  simpl. rewrite IH. clear IH. induction l2 as [|b l2 IH]; [reflexivity|].
  simpl. by rewrite Hcomm, IH.
Qed.

Lemma AddToken_comm_refs ii (r1 r2 t1 t2 : gostring) (w1 w2 : float64) :
  r1 <> r2 ->
  AddToken (AddToken ii r1 t1 w1) r2 t2 w2 = AddToken (AddToken ii r2 t2 w2) r1 t1 w1.
Proof.
  intros Hne. destruct ii as [root]. unfold AddToken. simpl.
  destruct (len t1 =? 0), (len t2 =? 0); simpl; try done.
  f_equal. apply addAt_comm_refs. by right.
Qed.

Lemma addTokens_comm_refs (r1 r2 : gostring) (freq1 freq2 : gmap gostring Z) ii :
  r1 <> r2 ->
  addTokens r1 freq1 (addTokens r2 freq2 ii) = addTokens r2 freq2 (addTokens r1 freq1 ii).
Proof.
  intros Hne.
  rewrite <- !(addTokens_any_order r1 freq1 _ (map_to_list freq1)) by reflexivity.
  rewrite <- !(addTokens_any_order r2 freq2 _ (map_to_list freq2)) by reflexivity.
  apply foldr_swap. intros [t1 c1] [t2 c2] acc. simpl. by apply AddToken_comm_refs.
Qed.

Lemma DocumentStore_AddDoc_comm ds (r1 r2 : gostring) (d1 d2 : document) :
  r1 <> r2 ->
  DocumentStore.AddDoc (DocumentStore.AddDoc ds r1 d1) r2 d2
  = DocumentStore.AddDoc (DocumentStore.AddDoc ds r2 d2) r1 d1.
Proof.
  intros Hne. destruct ds as [save docs info length].
  unfold DocumentStore.AddDoc. simpl. f_equal.
  - destruct save; apply insert_insert_ne; by intros ->.
  - destruct save; rewrite !lookup_insert_ne by (by intros ->);
      destruct (decide (is_Some (docs !! r1))), (decide (is_Some (docs !! r2)));
      reflexivity.
Qed.

Lemma AddFieldLength_comm ds (r1 r2 f1 f2 : gostring) (n1 n2 : Z) :
  r1 <> r2 ->
  DocumentStore.AddFieldLength (DocumentStore.AddFieldLength ds r1 f1 n1) r2 f2 n2
  = DocumentStore.AddFieldLength (DocumentStore.AddFieldLength ds r2 f2 n2) r1 f1 n1.
Proof.
  intros Hne. destruct ds as [save docs info length].
  unfold DocumentStore.AddFieldLength. simpl. f_equal.
  rewrite !lookup_insert_ne by (by intros ->). apply insert_insert_ne. by intros ->.
Qed.

Lemma applyUpdate_comm st u1 u2 :
  updateRef u1 <> updateRef u2 ->
  applyUpdate (applyUpdate st u1) u2 = applyUpdate (applyUpdate st u2) u1.
Proof.
  destruct st as [store indexes].
  destruct u1 as [r1 d1|r1 f1 n1 freq1], u2 as [r2 d2|r2 f2 n2 freq2];
    simpl; intros Hne.
  - f_equal. by apply DocumentStore_AddDoc_comm.
  - reflexivity.
  - reflexivity.
  - f_equal; [by apply AddFieldLength_comm|].
    destruct (decide (f1 = f2)) as [->|Hf].
    + rewrite !alter_alter_eq. apply alter_ext. intros ii _. simpl.
      symmetry. by apply addTokens_comm_refs.
    + apply alter_alter_ne. intros E. apply Hf. by rewrite E.
Qed.

Lemma updateRef_fieldUpdates ref docRef doc fields : forall tf u,
  u ∈ fieldUpdates ref docRef doc tf fields -> updateRef u = docRef.
Proof.
  induction fields as [|field rest IH]; intros tf u; simpl.
  - intros Hu. by apply elem_of_nil in Hu.
  - destruct (decide (field = ref)); [apply IH|].
    destruct (doc !! field); [|apply IH].
    intros [->|Hu]%elem_of_cons; [reflexivity|]. by apply IH in Hu.
Qed.

Lemma updateRef_docUpdates ref fields doc u :
  u ∈ docUpdates ref fields doc -> updateRef u = Sprintf_v (docField doc ref).
Proof.
  unfold docUpdates. intros [->|Hu]%elem_of_cons; [reflexivity|].
  by apply updateRef_fieldUpdates in Hu.
Qed.

Lemma AddDoc_updates_twice idx d1 d2 :
  wfIndex idx ->
  AddDoc idx d1 ≫= (fun idx1 => AddDoc idx1 d2)
  = Some (withUpdates idx
            (foldl applyUpdate
               (foldl applyUpdate (Store idx, FieldIndexes idx)
                  (docUpdates (Ref idx) (Fields idx) d1))
               (docUpdates (Ref idx) (Fields idx) d2))).
Proof.
  intros Hwf. pose proof (AddDoc_updates idx d1 Hwf) as Hadd1.
  pose proof (AddDoc_wf idx d1 _ Hwf Hadd1) as [Hwf1 _].
  rewrite Hadd1. cbn [mbind option_bind]. rewrite (AddDoc_updates _ d2 Hwf1).
  destruct (foldl applyUpdate (Store idx, FieldIndexes idx)
              (docUpdates (Ref idx) (Fields idx) d1)) as [store1 indexes1].
  reflexivity.
Qed.

(** X26. The index does not depend on the order in which two documents with
    different reference strings are added: on an index made by NewIndex and
    AddDoc calls, adding d1 then d2 gives the same store and the same field
    indexes as adding d2 then d1. *)
Theorem AddDoc_order_of_distinct_documents fields idx d1 d2 :
  Built fields idx ->
  docRefOf idx d1 <> docRefOf idx d2 ->
  AddDoc idx d1 ≫= (fun idx1 => AddDoc idx1 d2)
  = AddDoc idx d2 ≫= (fun idx2 => AddDoc idx2 d1).
Proof.
  intros Hb Hne. destruct (Built_wf fields idx Hb) as [Hwf _].
  rewrite !AddDoc_updates_twice by exact Hwf. f_equal. f_equal.
  apply foldl_swap. intros st u1 u2 Hu1 Hu2. apply applyUpdate_comm.
  rewrite (updateRef_docUpdates _ _ _ _ Hu1), (updateRef_docUpdates _ _ _ _ Hu2).
  exact Hne.
Qed.

End AddDocOrder.

Lemma AddDoc_order_of_distinct_documents_witness :
  @Index.AddDoc latin1Table (Index.NewIndex scenarioFields) scenarioDoc
    ≫= (fun idx1 => @Index.AddDoc latin1Table idx1 (sampleDoc "first"))
  = @Index.AddDoc latin1Table (Index.NewIndex scenarioFields) (sampleDoc "first")
      ≫= (fun idx2 => @Index.AddDoc latin1Table idx2 scenarioDoc).
Proof.
  apply (@AddDoc_order_of_distinct_documents latin1Table scenarioFields
           (Index.NewIndex scenarioFields) scenarioDoc (sampleDoc "first")
           (@Built_new latin1Table scenarioFields)).
  intros Heq. vm_compute in Heq. discriminate Heq.
Defined.

(* ===================================================================== *)
(** ** Decoding the wire format *)
(* ===================================================================== *)

Section DecodingProofs.

Lemma is_Some_UnmarshalJSON df0 data :
  is_Some (UnmarshalJSON df0 data)
  <-> jsonDecodes data = true /\ (data = JNull \/ exists o, data = JObj o).
Proof.
  rewrite UnmarshalJSON_eq. destruct (jsonDecodes data); simpl.
  - destruct data as [|b|x|s|l|o].
    + split; [intros _; split; [done|by left]|by eexists].
    + split; [by intros [? ?]|]. intros [_ [?|[? ?]]]; discriminate.
    + split; [by intros [? ?]|]. intros [_ [?|[? ?]]]; discriminate.
    + split; [by intros [? ?]|]. intros [_ [?|[? ?]]]; discriminate.
    + split; [by intros [? ?]|]. intros [_ [?|[? ?]]]; discriminate.
    + split; [intros _; split; [done|right; by eexists]|by eexists].
  - split; [by intros [? ?]|]. by intros [? _].
Qed.

(** X27. UnmarshalJSON returns an error exactly when json.Unmarshal does:
    on a document that is neither an object nor null, that is nested deeper
    than 10000 levels, or that holds a number literal out of the range of
    float64. On an object that it accepts, whatever the object holds: every
    key other than "docs" and "df" whose value is an object or null becomes
    a child, the keys with any other value are dropped without an error, and
    when the object has no "df" the count of the receiver is left as it
    was. *)
Theorem UnmarshalJSON_error_conditions df0 data :
  (is_Some (UnmarshalJSON df0 data)
   <-> (jsonDepth data <= maxNestingDepth /\ numbersInRange data = true)
       /\ (data = JNull \/ exists o, data = JObj o))
  /\ (forall o, data = JObj o ->
        is_Some (UnmarshalJSON df0 data) ->
        exists item,
          UnmarshalJSON df0 data = Some item
          /\ (forall key,
                is_Some (Children item !! key)
                <-> key <> key_docs /\ key <> key_df
                    /\ exists val, o !! key = Some val
                                   /\ (val = JNull \/ exists o', val = JObj o'))
          /\ (o !! key_df = None -> DF item = df0)
          /\ (o !! key_docs = None -> Docs item = ∅)).
Proof.
  split.
  { rewrite is_Some_UnmarshalJSON. unfold jsonDecodes.
    by rewrite andb_true_iff, Z.leb_le. }
  intros o -> Hsome. apply is_Some_UnmarshalJSON in Hsome as [Hdec _].
  rewrite (UnmarshalJSON_unfold _ _ Hdec). eexists. split; [reflexivity|].
  simpl. split; [|split].
  - intros key. rewrite map_lookup_imap.
    destruct (o !! key) as [val|] eqn:Hval; simpl.
    + destruct (decide (key = key_docs \/ key = key_df)) as [Hk|Hk].
      * split; [by intros [? ?]|]. intros (H1 & H2 & _). tauto.
      * rewrite is_Some_UnmarshalJSON. split.
        -- intros [_ Hv]. split; [tauto|]. split; [tauto|]. by exists val.
        -- intros (_ & _ & v & [= <-] & Hv). split; [|exact Hv].
           by apply (jsonDecodes_below o key val).
    + split; [by intros [? ?]|]. intros (_ & _ & v & Hv & _). discriminate Hv.
  - by intros ->.
  - by intros ->.
Qed.

End DecodingProofs.

(* ===================================================================== *)
(** ** Section numbers *)
(* ===================================================================== *)

Section SectionNumberProofs.

Lemma stringOfRune_digit p :
  0 <= p <= 9 -> stringOfRune (toRune (Int64.wrap (p + 48))) = formatInt p.
Proof.
  intros Hp.
  assert (p = 0 \/ p = 1 \/ p = 2 \/ p = 3 \/ p = 4 \/ p = 5 \/ p = 6 \/ p = 7
          \/ p = 8 \/ p = 9) as Hcases by lia.
  repeat (destruct Hcases as [->|Hcases]; [reflexivity|]). by subst p.
Qed.

Lemma stringOfRune_length r : length (stringOfRune r) = 1%nat.
Proof. unfold stringOfRune. by destruct (_ && _). Qed.

Lemma SectionNumber_loop (g : Z -> gostring) parts : forall i result,
  0 <= i ->
  (foldl (fun (acc : Z * gostring) part =>
            let result := if 0 <? acc.1 then acc.2 ++ str "." else acc.2 in
            (acc.1 + 1, result ++ g part)) (i, result) parts).2
  = match parts with
    | [] => result
    | x :: rest =>
        foldl (fun acc y => acc ++ str "." ++ y)
              ((if 0 <? i then result ++ str "." else result) ++ g x) (g <$> rest)
    end.
Proof.
  induction parts as [|x rest IH]; intros i result Hi; [reflexivity|].
  cbn [foldl]. rewrite IH by (simpl; lia). cbn [fst snd].
  destruct rest as [|y rest]; [reflexivity|].
  rewrite (proj2 (Z.ltb_lt 0 (i + 1))) by lia.
  cbn [fmap list_fmap foldl]. by rewrite <- !app_assoc.
Qed.

(** X28. SectionNumber.String writes one code point per part, with a dot
    between two parts: it is empty for a nil pointer and for no parts; when
    every part is a digit from 0 to 9 the result is the decimal numbers
    joined by dots; in general its length is twice the number of parts minus
    one, whatever the parts are. *)
Theorem SectionNumber_String_digits parts :
  SectionNumber_String None = []
  /\ SectionNumber_String (Some []) = []
  /\ (Forall (fun p => 0 <= p <= 9) parts ->
      SectionNumber_String (Some parts) = joinDots (formatInt <$> parts))
  /\ (parts <> [] ->
      length (SectionNumber_String (Some parts)) = (2 * length parts - 1)%nat).
Proof.
  split; [reflexivity|]. split; [reflexivity|].
  assert (SectionNumber_String (Some parts)
          = joinDots ((fun p => stringOfRune (toRune (Int64.wrap (p + 48)))) <$> parts))
    as Hjoin.
  { unfold SectionNumber_String. destruct parts as [|x rest]; [reflexivity|].
    replace (Z.of_nat (length (x :: rest)) =? 0) with false
      by (symmetry; apply Z.eqb_neq; simpl length; lia).
    exact (SectionNumber_loop
             (fun p => stringOfRune (toRune (Int64.wrap (p + 48)))) (x :: rest) 0 []
             ltac:(lia)). }
  split.
  - intros Hall. rewrite Hjoin. f_equal. apply Forall_fmap_ext_1.
    eapply Forall_impl; [exact Hall|]. intros p Hp. by apply stringOfRune_digit.
  - intros Hne. rewrite Hjoin. destruct parts as [|x rest]; [done|]. clear Hne Hjoin.
    simpl joinDots. cbn [fmap list_fmap].
    assert (forall (l : list Z) acc,
               length (foldl (fun acc y => acc ++ str "." ++ y) acc
                             ((fun p => stringOfRune (toRune (Int64.wrap (p + 48)))) <$> l))
               = (length acc + 2 * length l)%nat) as Hlen.
    { induction l as [|y l IH]; intros acc; [simpl; lia|].
      cbn [fmap list_fmap foldl]. rewrite IH, !length_app, stringOfRune_length.
      simpl length. lia. }
    rewrite Hlen, stringOfRune_length. simpl length. lia.
Qed.

End SectionNumberProofs.

(* ===================================================================== *)
(** ** The URLs of the pages *)
(* ===================================================================== *)

Section DocPathProofs.

Import Renderer.

Lemma ReplaceAll_absent s old new : old ∉ s -> ReplaceAll s old new = s.
Proof.
  induction s as [|r s IH]; intros Hn; [reflexivity|].
  apply not_elem_of_cons in Hn as [Hr Hs]. rewrite ReplaceAll_cons, IH by exact Hs.
  by rewrite (proj2 (Z.eqb_neq r old)) by (intros E; by apply Hr).
Qed.

Lemma ReplaceAll_slash s : 92 ∉ ReplaceAll s 92 (str "/").
Proof.
  induction s as [|r s IH]; [apply not_elem_of_nil|].
  rewrite ReplaceAll_cons. destruct (Z.eqb_spec r 92) as [->|Hr].
  - apply not_elem_of_cons. split; [discriminate|exact IH].
  - apply not_elem_of_cons. split; [by intros E|exact IH].
Qed.

Lemma docPathOf_unfold path :
  docPathOf path = ReplaceAll (TrimSuffix path (str ".md")) 92 (str "/") ++ str ".html".
Proof. unfold docPathOf. by rewrite ReplaceAll_app. Qed.

(** X30. The URL that generateSearchIndex derives from the path of a chapter
    always ends in ".html" and holds no backslash before that ending; for a
    path "base.md" without backslashes it is "base.html"; and a path that
    does not end in ".md" keeps its whole name, with ".html" appended. *)
Theorem docPathOf_normal_form :
  (forall path, exists base, docPathOf path = base ++ str ".html" /\ 92 ∉ base)
  /\ (forall base, 92 ∉ base -> docPathOf (base ++ str ".md") = base ++ str ".html")
  /\ (forall path, HasSuffix path (str ".md") = false ->
                   docPathOf path = ReplaceAll path 92 (str "/") ++ str ".html").
Proof.
  split; [|split].
  - intros path. eexists. split; [apply docPathOf_unfold|apply ReplaceAll_slash].
  - intros base Hbase. rewrite docPathOf_unfold. unfold TrimSuffix.
    rewrite HasSuffix_app, cutSuffix_app. by rewrite ReplaceAll_absent.
  - intros path Hno. rewrite docPathOf_unfold. unfold TrimSuffix. by rewrite Hno.
Qed.

End DocPathProofs.
